(** * Expressions.js: a shallow embedding of the compile pipeline

  The development follows the layout of the repository:

  - [Js]: the JavaScript values, exceptions and string helpers the
    sources rely on;
  - [Regex]: the regular expressions of the sources and the
    backtracking matcher behind [String.prototype.replace];
  - [Strings]: [src/strings.js], the literal isolator
    ([pullOutStrings] / [putInStrings]) with its two regular
    expressions;
  - [SetterRewrite]: the [replace(/(\s*\||$)/, ...)] call of
    [parseSetter];
  - [Expressions]: [src/expressions.js], in the two revisions the
    source tree carries ([RevA]: variadic extra arguments, [RevB]:
    array of extra arguments);
  - [Chains]: the null-safe property chains of [property-chains.js];
  - [StandIn]: collaborators to run the builder on concrete inputs.

  The properties follow the definitions, module by module.

  Strings are [string]s of 8-bit characters; the regular expressions
  of the sources only ever distinguish a handful of characters
  (quotes, slash, backslash, pipe, white space and U+0001). *)

From Stdlib Require Import String Ascii List ZArith Lia Bool.
From Stdlib Require Import DecimalString.
From stdpp Require Import base option gmap strings.

Set Warnings "-register-all".
Import ListNotations.

Local Open Scope string_scope.
Local Open Scope list_scope.

(** ** JavaScript values and exceptions *)

Module Js.

(** Thrown values: the pipeline throws [TypeError], [Error] and, from
    the function constructor, [SyntaxError]. *)
Inductive error : Type :=
| TypeError (msg : string)
| Error (msg : string)
| SyntaxError (msg : string).

(** The outcome of a call: a returned value or a thrown exception. *)
Inductive result (A : Type) : Type :=
| Ok (a : A)
| Throw (e : error).
Arguments Ok {A} a.
Arguments Throw {A} e.

Definition is_ok {A} (r : result A) : bool :=
  match r with Ok _ => true | Throw _ => false end.

(** Values: primitives, [String] wrapper objects ([new String(s)]) and
    plain objects, whose own properties are an association list
    (first binding wins). *)
Inductive value : Type :=
| VUndefined
| VNull
| VBool (b : bool)
| VNum (n : Z)
| VStr (s : string)
| VStrObj (s : string)
| VObj (props : list (string * value)).

(** [typeof v] *)
Definition typeof (v : value) : string :=
  match v with
  | VUndefined => "undefined"
  | VNull => "object"
  | VBool _ => "boolean"
  | VNum _ => "number"
  | VStr _ => "string"
  | VStrObj _ => "object"
  | VObj _ => "object"
  end.

(** Truthiness, as tested by [if (v)]. *)
Definition truthy (v : value) : bool :=
  match v with
  | VUndefined | VNull => false
  | VBool b => b
  | VNum n => negb (n =? 0)%Z
  | VStr s => negb (String.eqb s EmptyString)
  | VStrObj _ | VObj _ => true
  end.

(** [v == null] *)
Definition nullish (v : value) : bool :=
  match v with VUndefined | VNull => true | _ => false end.

(** Characters the regular expressions single out. *)
Definition squote : ascii := "'"%char.
Definition dquote : ascii := "034"%char.
Definition slash : ascii := "/"%char.
Definition backslash : ascii := "\"%char.
Definition pipe : ascii := "|"%char.
Definition newline : ascii := "010"%char.
(** U+0001: inside a character class, [\1] is not a back-reference
    but the legacy octal escape for the character of code 1. *)
Definition soh : ascii := "001"%char.

(** One-character string. *)
Definition str1 (c : ascii) : string := String c EmptyString.

(** [arr.join(sep)] on an array of strings. *)
Fixpoint join (sep : string) (l : list string) : string :=
  match l with
  | [] => EmptyString
  | [x] => x
  | x :: rest => x +:+ sep +:+ join sep rest
  end.

End Js.
Import Js.

(** ** Regular expressions *)

Module Regex.

(** The constructs the expressions of the sources are made of.  There
    is one capture group, so [Backref] is [\1]. *)
Inductive regex : Type :=
| Class (p : ascii -> bool)
| Backref
| Group (r : regex)
| Seq (r1 r2 : regex)
| Alt (r1 r2 : regex)
| Star (greedy : bool) (r : regex)
| End.

(** The character [a]. *)
Definition Char (a : ascii) : regex := Class (fun c => Ascii.eqb c a).

(** [s] without its prefix [w], if it starts with [w]. *)
Fixpoint strip_prefix (w s : string) : option string :=
  match w with
  | EmptyString => Some s
  | String a w' =>
      match s with
      | String c t => if Ascii.eqb c a then strip_prefix w' t else None
      | EmptyString => None
      end
  end.

Fixpoint take (n : nat) (s : string) : string :=
  match n, s with
  | S n', String c t => String c (take n' t)
  | _, _ => EmptyString
  end.

(** What a match that started at [s] and left [rest] went over. *)
Definition consumed (s rest : string) : string :=
  take (String.length s - String.length rest) s.

(** A match: the text left after it and the capture. *)
Definition outcome : Type := option (string * option string).

(** The backtracking matcher, in continuation-passing style: [k] is
    what remains to be matched after [r].  Alternatives are tried from
    the left; a greedy star tries one more round before it goes on, a
    lazy star goes on before it tries one more round.  A round of a star
    has to consume a character; the fuel bounds the number of rounds. *)
Fixpoint run (fuel : nat) (r : regex) (s : string) (cap : option string)
    (k : string -> option string -> outcome) {struct fuel} : outcome :=
  (fix go (r : regex) (s : string) (cap : option string)
       (k : string -> option string -> outcome) {struct r} : outcome :=
     match r with
     | Class p =>
         match s with
         | String c t => if p c then k t cap else None
         | EmptyString => None
         end
     | Backref =>
         match cap with
         | Some w =>
             match strip_prefix w s with
             | Some t => k t cap
             | None => None
             end
         | None => k s cap
         end
     | Group r' => go r' s cap (fun rest _ => k rest (Some (consumed s rest)))
     | Seq r1 r2 => go r1 s cap (fun rest cap' => go r2 rest cap' k)
     | Alt r1 r2 =>
         match go r1 s cap k with
         | Some res => Some res
         | None => go r2 s cap k
         end
     | Star greedy r' =>
         match fuel with
         | O => None
         | S fuel' =>
             let again :=
               go r' s cap (fun rest cap' =>
                 if Nat.ltb (String.length rest) (String.length s)
                 then run fuel' (Star greedy r') rest cap' k
                 else None) in
             if greedy then
               match again with
               | Some res => Some res
               | None => k s cap
               end
             else
               match k s cap with
               | Some res => Some res
               | None => again
               end
         end
     | End =>
         match s with
         | EmptyString => k s cap
         | String _ _ => None
         end
     end) r s cap k.

(** The expression tried at the start of [s]. *)
Definition exec (r : regex) (s : string) : outcome :=
  run (S (String.length s)) r s None (fun rest cap => Some (rest, cap)).

(** The capture as the callback of [replace] gets it. *)
Definition captured (cap : option string) : string :=
  match cap with
  | Some w => w
  | None => EmptyString
  end.

(** [s.replace(re, callback)] for an expression with the [g] flag: the
    scan goes from the left; where the expression matches, the callback
    is called with the match and the capture and its result replaces the
    match, and the scan resumes after the match (one character further
    when the match is empty); elsewhere the character is copied.  The
    callback may update a state [a].  The fuel bounds the number of
    steps of the scan. *)
Fixpoint replace_from {A : Type} (fuel : nat) (re : regex)
    (callback : string -> string -> A -> string * A) (s : string) (a : A) : string * A :=
  match fuel with
  | O => (s, a)
  | S fuel' =>
      match exec re s with
      | Some (rest, cap) =>
          let (x, a') := callback (consumed s rest) (captured cap) a in
          match consumed s rest, s with
          | EmptyString, EmptyString => (x, a')
          | EmptyString, String c t =>
              let (out, a'') := replace_from fuel' re callback t a' in
              (x +:+ String c out, a'')
          | String _ _, _ =>
              let (out, a'') := replace_from fuel' re callback rest a' in
              (x +:+ out, a'')
          end
      | None =>
          match s with
          | EmptyString => (EmptyString, a)
          | String c t =>
              let (out, a') := replace_from fuel' re callback t a in
              (String c out, a')
          end
      end
  end.

Definition replace {A : Type} (re : regex)
    (callback : string -> string -> A -> string * A) (s : string) (a : A) : string * A :=
  replace_from (S (String.length s)) re callback s a.

(** [s.replace(re, replacement)] for an expression without the [g]
    flag: the leftmost match only; [replacement] gets the capture. *)
Fixpoint replace_first (re : regex) (replacement : string -> string) (s : string) : string :=
  match exec re s with
  | Some (rest, cap) => replacement (captured cap) +:+ rest
  | None =>
      match s with
      | EmptyString => EmptyString
      | String c t => String c (replace_first re replacement t)
      end
  end.

End Regex.

(** ** [src/strings.js]: the literal isolator *)

Module Strings.
Import Regex.

(** The character class that opens both regular expressions: a single
    quote, a double quote or a slash. *)
Definition is_quote (c : ascii) : bool :=
  Ascii.eqb c squote || Ascii.eqb c dquote || Ascii.eqb c slash.

(** [var quoteRegex = /(Q)(\\\1|[^\1])*?\1/g], with [Q] the class
    above.  Inside a character class [\1] is not a back-reference but
    the legacy octal escape of U+0001, so [[^\1]] is any character but
    U+0001.  The second pair of parentheses captures nothing that is
    used. *)
Definition quote_round : regex :=
  Alt (Seq (Char backslash) Backref) (Class (fun c => negb (Ascii.eqb c soh))).

Definition quoteRegex : regex :=
  Seq (Group (Class is_quote)) (Seq (Star false quote_round) Backref).

(** [var emptyQuoteExpr = /(Q)\1/g] *)
Definition emptyQuoteExpr : regex :=
  Seq (Group (Class is_quote)) Backref.

(** [function(str, quote) { strings.push(str); return quote + quote; }] *)
Definition push_string (str quote : string) (strings : list string) : string * list string :=
  (quote +:+ quote, strings ++ [str]).

(** [expr.replace(quoteRegex, ...)] after [strings = []]. *)
Definition replace_quoteRegex (expr : string) : string * list string :=
  replace quoteRegex push_string expr [].

(** [strings.shift()], whose result the replace converts to a string:
    an empty array gives [undefined]. *)
Definition shift (l : list string) : string * list string :=
  match l with
  | [] => ("undefined", [])
  | x :: rest => (x, rest)
  end.

(** [function() { return strings.shift(); }] *)
Definition shift_string (str quote : string) (strings : list string) : string * list string :=
  shift strings.

(** [expr.replace(emptyQuoteExpr, ...)] *)
Definition replace_emptyQuoteExpr (expr : string) (strings : list string) : string * list string :=
  replace emptyQuoteExpr shift_string expr strings.

(** The module variable [strings]: [null] or the pending array. *)
Definition table : Type := option (list string).

(** The initial value, [var strings = null]. *)
Definition init : table := None.

(** [expr.replace] exists on strings and on [String] objects only. *)
Definition as_string (v : value) : option string :=
  match v with
  | VStr s | VStrObj s => Some s
  | _ => None
  end.

(** The [TypeError] of a call [expr.method(...)] on a value without
    that method. *)
Definition no_method (v : value) (method : string) : error :=
  match v with
  | VUndefined => TypeError ("Cannot read property '" +:+ method +:+ "' of undefined")
  | VNull => TypeError ("Cannot read property '" +:+ method +:+ "' of null")
  | _ => TypeError ("expr." +:+ method +:+ " is not a function")
  end.

(** [exports.pullOutStrings]. An array, even an empty one, is truthy. *)
Definition pullOutStrings (expr : value) (strings : table) : result string * table :=
  match strings with
  | Some _ => (Throw (Error "putInStrings must be called after pullOutStrings."), strings)
  | None =>
      match as_string expr with
      | Some s =>
          let (out, pushed) := replace_quoteRegex s in
          (Ok out, Some pushed)
      | None => (Throw (no_method expr "replace"), Some [])
      end
  end.

(** [exports.putInStrings]. *)
Definition putInStrings (expr : string) (strings : table) : result string * table :=
  match strings with
  | None => (Throw (Error "pullOutStrings must be called before putInStrings."), strings)
  | Some l =>
      let (out, _) := replace_emptyQuoteExpr expr l in
      (Ok out, None)
  end.

(** *** The two scans in closed form *)

(** What [quoteRegex] does after the opening quote [q]: [quote_body q s]
    is the match of [(\\\1|[^\1])*?\1] at the start of [s], as the
    matched text (which ends with the closing quote) and what follows
    it.  At every position the closing quote is tried first; otherwise a
    backslash followed by the quote is stepped over, and if the match
    fails after that, or for any other character but U+0001, one
    character is stepped over. *)
Fixpoint quote_body (q : ascii) (s : string) : option (string * string) :=
  match s with
  | EmptyString => None
  | String c t =>
      if Ascii.eqb c q then Some (str1 c, t)
      else
        let any_char :=
          if Ascii.eqb c soh then None
          else match quote_body q t with
               | Some (m, r) => Some (String c m, r)
               | None => None
               end in
        match t with
        | String d t' =>
            if Ascii.eqb c backslash && Ascii.eqb d q then
              match quote_body q t' with
              | Some (m, r) => Some (String c (String d m), r)
              | None => any_char
              end
            else any_char
        | EmptyString => any_char
        end
  end.

(** [quoteRegex] at the start of [s]: the whole match, the quote and
    the rest of the text. *)
Definition match_quote (s : string) : option (string * ascii * string) :=
  match s with
  | String q t =>
      if is_quote q then
        match quote_body q t with
        | Some (m, r) => Some (String q m, q, r)
        | None => None
        end
      else None
  | EmptyString => None
  end.

(** The scan of [pullOutStrings]: the stripped text and the strings
    pushed. *)
Fixpoint scan_quotes (fuel : nat) (s : string) : string * list string :=
  match fuel with
  | O => (s, [])
  | S fuel' =>
      match s with
      | EmptyString => (EmptyString, [])
      | String c t =>
          match match_quote s with
          | Some (str, quote, r) =>
              let (out, pushed) := scan_quotes fuel' r in
              (String quote (String quote out), str :: pushed)
          | None =>
              let (out, pushed) := scan_quotes fuel' t in
              (String c out, pushed)
          end
      end
  end.

Definition isolate (s : string) : string * list string :=
  scan_quotes (String.length s) s.

(** The scan of [putInStrings]: every pair of equal quote characters,
    found from the left, is replaced by the next string. *)
Fixpoint restore (s : string) (l : list string) : string * list string :=
  match s with
  | EmptyString => (EmptyString, l)
  | String c t =>
      match t with
      | String d t' =>
          if is_quote c && Ascii.eqb d c then
            let (x, l') := shift l in
            let (out, l'') := restore t' l' in
            (x +:+ out, l'')
          else
            let (out, l') := restore t l in
            (String c out, l')
      | EmptyString => (s, l)
      end
  end.

(** [s] has only characters that satisfy [p]. *)
Fixpoint all_chars (p : ascii -> bool) (s : string) : bool :=
  match s with
  | EmptyString => true
  | String c t => p c && all_chars p t
  end.

(** The last character of [s] is [c]. *)
Fixpoint ends_with (c : ascii) (s : string) : bool :=
  match s with
  | EmptyString => false
  | String d EmptyString => Ascii.eqb d c
  | String _ t => ends_with c t
  end.

(** A span between two bare slashes: no slash and no U+0001 in it, and
    no backslash in front of the closing slash. *)
Definition bare_span (mid : string) : bool :=
  all_chars (fun c => negb (Ascii.eqb c slash) && negb (Ascii.eqb c soh)) mid &&
  negb (ends_with backslash mid).

(** A literal body that the delimiter [q] closes: no [q] and no U+0001
    in it, and no backslash in front of the closing delimiter. *)
Definition bare_body (q : ascii) (body : string) : bool :=
  all_chars (fun c => negb (Ascii.eqb c q) && negb (Ascii.eqb c soh)) body &&
  negb (ends_with backslash body).

(** The shape of a literal: a delimiter, then at least one more
    character, the last of which is the same delimiter. *)
Definition quoted (str : string) : bool :=
  match str with
  | String q (String d t) => is_quote q && ends_with q (String d t)
  | _ => false
  end.

(** The number of characters a table holds. *)
Definition total_length (l : list string) : nat :=
  fold_right (fun s n => String.length s + n) 0 l.

End Strings.

(** ** The rewrite of [parseSetter] *)

Module SetterRewrite.
Import Regex.

(** [\s] on 8-bit characters: tab, line feed, vertical tab, form feed,
    carriage return, space and no-break space. *)
Definition is_space (c : ascii) : bool :=
  let n := nat_of_ascii c in
  (Nat.leb 9 n && Nat.leb n 13) || Nat.eqb n 32 || Nat.eqb n 160.

(** [/(\s*\||$)/] *)
Definition pipe_or_end : regex :=
  Group (Alt (Seq (Star true (Class is_space)) (Char pipe)) End).

(** [expr.replace(/(\s*\||$)/, ins + '$1')] *)
Definition replace_pipe_or_end (ins : string) (s : string) : string :=
  replace_first pipe_or_end (fun cap => ins +:+ cap) s.

(** [expr.charAt(0) === '!'] *)
Definition starts_with_bang (s : string) : bool :=
  match s with
  | String c _ => Ascii.eqb c "!"%char
  | EmptyString => false
  end.

(** [expr.slice(1)] *)
Definition slice1 (s : string) : string :=
  match s with
  | String _ t => t
  | EmptyString => EmptyString
  end.

(** *** The replace in closed form *)

(** The first alternative, [\s*\|], at the start of [s]: the matched
    text and the rest.  The greedy [\s*] takes all the white space and a
    pipe has to follow; giving white space back never helps, a pipe is
    not white space. *)
Fixpoint ws_pipe (s : string) : option (string * string) :=
  match s with
  | EmptyString => None
  | String c t =>
      if Ascii.eqb c pipe then Some (str1 c, t)
      else if is_space c then
        match ws_pipe t with
        | Some (m, r) => Some (String c m, r)
        | None => None
        end
      else None
  end.

(** The leftmost match is replaced: at each position the first
    alternative is tried, then [$], which matches at the end of the text
    only and captures the empty string. *)
Fixpoint insert_at_match (ins : string) (s : string) : string :=
  match ws_pipe s with
  | Some (m, r) => ins +:+ m +:+ r
  | None =>
      match s with
      | EmptyString => ins
      | String c t => String c (insert_at_match ins t)
      end
  end.

(** *** The rewrite in the words of the specification

    The assignment is inserted before the first pipe segment (the pipe
    with the white space in front of it), or at the end when there is
    no pipe. *)

(** The text before the first pipe and, if there is one, the text from
    that pipe on. *)
Fixpoint before_first_pipe (s : string) : string * option string :=
  match s with
  | EmptyString => (EmptyString, None)
  | String c t =>
      if Ascii.eqb c pipe then (EmptyString, Some s)
      else let (pre, rest) := before_first_pipe t in (String c pre, rest)
  end.

(** A text cut in front of its trailing white space. *)
Fixpoint trailing_space (s : string) : string * string :=
  match s with
  | EmptyString => (EmptyString, EmptyString)
  | String c t =>
      let (core, ws) := trailing_space t in
      match core with
      | EmptyString => if is_space c then (EmptyString, String c ws) else (str1 c, ws)
      | _ => (String c core, ws)
      end
  end.

Definition insert_before_first_pipe (ins s : string) : string :=
  match before_first_pipe s with
  | (pre, Some rest) =>
      let (core, ws) := trailing_space pre in core +:+ ins +:+ ws +:+ rest
  | (pre, None) => pre +:+ ins
  end.

(** The text a setter is compiled from: [e] becomes an assignment of
    [_value_], and [!e] an assignment of [!_value_] to [e]. *)
Definition setter_text (e : string) : string :=
  if starts_with_bang e
  then insert_before_first_pipe " = !_value_" (slice1 e)
  else insert_before_first_pipe " = _value_" e.

(** The last character of [s] is white space. *)
Fixpoint ends_in_space (s : string) : bool :=
  match s with
  | EmptyString => false
  | String c EmptyString => is_space c
  | String _ t => ends_in_space t
  end.

End SetterRewrite.

(** ** [src/expressions.js]: the function builder and its cache *)

Module Expressions.

(** A reference to a function object: two callables are the same
    object exactly when their references are equal. *)
Definition ref : Type := nat.

(** The function [Function(p1, ..., pn, body)] creates. *)
Record rawfunc : Type := mkRaw {
  params : list string;
  body : string
}.

(** The closure [bindArguments] returns: the function and the arguments
    it captured, with the [expr] property [parse] sets on it. *)
Record funobj : Type := mkFun {
  fo_func : rawfunc;
  fo_args : list value;
  fo_expr : option string
}.

(** The module-level variables of [expressions.js] and [strings.js],
    the function objects allocated so far and the arrays callers hand
    in as extra arguments (revision B updates them in place).  The
    object [cache] is a map from keys to functions: every key has a pipe
    in it, so that no lookup reaches a property of [Object.prototype]. *)
Record state : Type := mkState {
  strings : Strings.table;
  valueProperty : string;
  cache : gmap string ref;
  heap : list funobj;
  arrays : list (list string);
  exports_globals : list (string * value)
}.

(** The state after the modules are loaded: [var strings = null],
    [var valueProperty = '_value_'], [var cache = {}] and
    [exports.globals = {}]. *)
Definition init : state :=
  {| strings := Strings.init;
     valueProperty := "_value_";
     cache := ∅;
     heap := [];
     arrays := [];
     exports_globals := [] |}.

Definition set_strings (t : Strings.table) (st : state) : state :=
  {| strings := t; valueProperty := valueProperty st; cache := cache st;
     heap := heap st; arrays := arrays st; exports_globals := exports_globals st |}.

Definition set_valueProperty (v : string) (st : state) : state :=
  {| strings := strings st; valueProperty := v; cache := cache st;
     heap := heap st; arrays := arrays st; exports_globals := exports_globals st |}.

Definition set_cache (c : gmap string ref) (st : state) : state :=
  {| strings := strings st; valueProperty := valueProperty st; cache := c;
     heap := heap st; arrays := arrays st; exports_globals := exports_globals st |}.

Definition set_heap (h : list funobj) (st : state) : state :=
  {| strings := strings st; valueProperty := valueProperty st; cache := cache st;
     heap := h; arrays := arrays st; exports_globals := exports_globals st |}.

Definition set_arrays (a : list (list string)) (st : state) : state :=
  {| strings := strings st; valueProperty := valueProperty st; cache := cache st;
     heap := heap st; arrays := a; exports_globals := exports_globals st |}.

(** Computations that read and write the module state and may throw;
    what was written before a throw stays written. *)
Definition M (A : Type) : Type := state -> result A * state.

Definition ret {A} (a : A) : M A := fun st => (Ok a, st).

Definition throw {A} (e : error) : M A := fun st => (Throw e, st).

Definition bind {A B} (m : M A) (k : A -> M B) : M B :=
  fun st =>
    match m st with
    | (Ok a, st') => k a st'
    | (Throw e, st') => (Throw e, st')
    end.

Notation "x <- m ;; k" := (bind m (fun x => k))
  (at level 100, m at next level, right associativity).
Notation "m ;;; k" := (bind m (fun _ => k))
  (at level 100, right associativity).

Definition lift {A} (r : result A) : M A := fun st => (r, st).

Definition get {A} (f : state -> A) : M A := fun st => (Ok (f st), st).

Definition modify (f : state -> state) : M unit := fun st => (Ok tt, f st).

(** The calls into [strings.js], on the module variable [strings]. *)
Definition strings_pullOutStrings (expr : value) : M string :=
  fun st =>
    let (r, t) := Strings.pullOutStrings expr (strings st) in (r, set_strings t st).

Definition strings_putInStrings (expr : string) : M string :=
  fun st =>
    let (r, t) := Strings.putInStrings expr (strings st) in (r, set_strings t st).

(** What [expressions.js] requires but the source tree does not carry:
    [parseFormatters] of [formatters.js], [parseExpression] of
    [property-chains.js], either of which may throw and is taken to
    depend on its arguments only; and, of the engine, the parser behind
    the [Function] constructor, which gives the message of the syntax
    error for parameter names and a body it rejects, and the text a
    number is converted to (digits up to a size, an exponent from there
    on). *)
Class Collaborators : Type := {
  parseFormatters : string -> result string;
  parseExpression : string -> gmap string value -> result string;
  function_syntax_error : list string -> string -> option string;
  number_to_string : Z -> string
}.

(** The string [v + ''] gives when the conversion returns; an object
    is converted by [Object.prototype.toString] ([plus_string] below
    has the objects for which the conversion throws instead). *)
Definition to_string `{Collaborators} (v : value) : string :=
  match v with
  | VUndefined => "undefined"
  | VNull => "null"
  | VBool true => "true"
  | VBool false => "false"
  | VNum n => number_to_string n
  | VStr s => s
  | VStrObj s => s
  | VObj _ => "[object Object]"
  end.

(** [obj[key]] on the own properties of a plain object. *)
Fixpoint lookup_prop (props : list (string * value)) (key : string) : value :=
  match props with
  | [] => VUndefined
  | (k, v) :: rest => if String.eqb k key then v else lookup_prop rest key
  end.

(** [Object.keys(v)] with [v[key]] for each key: the own properties of a
    plain object; other values are taken to have none. *)
Definition entries (v : value) : list (string * value) :=
  match v with
  | VObj props => map (fun kv => (fst kv, lookup_prop props (fst kv))) props
  | _ => []
  end.

(** [getVariables] *)
Definition getVariables (registry : list (string * value)) (globals : value)
    (extraArgs : list string) : gmap string value :=
  let variables : gmap string value := ∅ in
  let variables :=
    fold_left (fun vars kv => <[fst kv := snd kv]> vars) (entries (VObj registry)) variables in
  let variables :=
    if truthy globals
    then fold_left (fun vars kv => <[fst kv := snd kv]> vars) (entries globals) variables
    else variables in
  fold_left (fun vars key => <[key := VNull]> vars) extraArgs variables.

(** [bindArguments(func, ...args)]: a new closure over [func] and
    [args]; its reference is the next free slot of the heap. *)
Definition bindArguments (func : rawfunc) (args : list value) : M ref :=
  fun st =>
    (Ok (length (heap st)),
     set_heap (heap st ++ [{| fo_func := func; fo_args := args; fo_expr := None |}]) st).

(** Calling the closure: [func.apply(this, args.concat(arguments))].
    [apply] stands for the engine running a function against a [this]
    and an argument list. *)
Definition binder {R : Type} (apply : rawfunc -> value -> list value -> R)
    (fn : funobj) (this : value) (arguments : list value) : R :=
  apply (fo_func fn) this (fo_args fn ++ arguments).

Section WithCollaborators.
Context `{Collaborators}.

(** [Function.apply(null, args)] *)
Definition Function_apply (args : list string) : result rawfunc :=
  let ps := List.removelast args in
  let b := List.last args EmptyString in
  match function_syntax_error ps b with
  | None => Ok {| params := ps; body := b |}
  | Some msg => Throw (SyntaxError msg)
  end.

Definition message (e : error) : string :=
  match e with TypeError m | Error m | SyntaxError m => m end.

(** The message of the error [compileExpression] throws. *)
Definition bad_expression (original expr msg : string) : string :=
  "Bad expression: " +:+ original +:+ str1 newline +:+
  "Compiled expression:" +:+ str1 newline +:+ expr +:+ str1 newline +:+ msg.

(** [compileExpression] *)
Definition compileExpression (original : string) (expr : string)
    (globals formatters : value) (extraArgs : list string) : M ref :=
  let args := (["_globals_"; "_formatters_"] ++ extraArgs) ++ [expr] in
  match Function_apply args with
  | Ok func => bindArguments func [globals; formatters]
  | Throw e => throw (Error (bad_expression original expr (message e)))
  end.

(** [s.split('\n')] *)
Fixpoint split_lines (s : string) : list string :=
  match s with
  | EmptyString => [EmptyString]
  | String c t =>
      if Ascii.eqb c newline then EmptyString :: split_lines t
      else match split_lines t with
           | x :: rest => String c x :: rest
           | [] => [str1 c]
           end
  end.

(** [lines[lines.length - 1] = 'return ' + lines[lines.length - 1]] *)
Fixpoint return_last (lines : list string) : list string :=
  match lines with
  | [] => []
  | [x] => ["return " +:+ x]
  | x :: rest => x :: return_last rest
  end.

(** The getter branch of [parse]: split, prefix the last line, join. *)
Definition add_return (expr : string) : string :=
  join (str1 newline) (return_last (split_lines expr)).

(** [func.expr = expr] *)
Definition set_expr (func : ref) (expr : string) : M unit :=
  modify (fun st =>
    set_heap (alter (fun fn => {| fo_func := fo_func fn; fo_args := fo_args fn;
                                  fo_expr := Some expr |}) func (heap st)) st).

(** [cache[cacheKey] = func] *)
Definition cache_store (cacheKey : string) (func : ref) : M unit :=
  modify (fun st => set_cache (<[cacheKey := func]> (cache st)) st).

(** [expr + '|' + extraArgs.join(',')] *)
Definition cacheKey (expr : string) (extraArgs : list string) : string :=
  expr +:+ "|" +:+ join "," extraArgs.

(** [extraArgs[0] === valueProperty] *)
Definition is_setter (extraArgs : list string) (valueProperty : string) : bool :=
  match extraArgs with
  | a :: _ => String.eqb a valueProperty
  | [] => false
  end.

(** The part of [parse] the two revisions share, from
    [strings.pullOutStrings] to [return func]. *)
Definition compile (cacheKey : string) (original : string) (expr : value)
    (isSetter : bool) (globals formatters : value) (extraArgs : list string) : M ref :=
  expr <- strings_pullOutStrings expr ;;
  expr <- lift (parseFormatters expr) ;;
  registry <- get exports_globals ;;
  expr <- lift (parseExpression expr (getVariables registry globals extraArgs)) ;;
  let expr := if isSetter then expr else add_return expr in
  expr <- strings_putInStrings expr ;;
  func <- compileExpression original expr globals formatters extraArgs ;;
  set_expr func expr ;;;
  cache_store cacheKey func ;;;
  ret func.

(** What a successful [compile] leaves behind: no table pending, a new
    function object in the next free slot and the cache entry for it. *)
Definition compiled (key : string) (globals formatters : value)
    (extraArgs : list string) (text : string) (st : state) : state :=
  {| strings := None;
     valueProperty := valueProperty st;
     cache := <[key := length (heap st)]> (cache st);
     heap := heap st ++
       [{| fo_func := {| params := "_globals_" :: "_formatters_" :: extraArgs;
                         body := text |};
           fo_args := [globals; formatters];
           fo_expr := Some text |}];
     arrays := arrays st;
     exports_globals := exports_globals st |}.

(** The text [compile] hands to [compileExpression] when the steps
    before it succeed, for a string [expr] and no table pending. *)
Definition generated (registry : list (string * value)) (expr : string)
    (isSetter : bool) (globals : value) (extraArgs : list string) : result string :=
  let (stripped, pushed) := Strings.replace_quoteRegex expr in
  match parseFormatters stripped with
  | Ok formatted =>
      match parseExpression formatted (getVariables registry globals extraArgs) with
      | Ok chained =>
          Ok (fst (Strings.replace_emptyQuoteExpr
                     (if isSetter then chained else add_return chained) pushed))
      | Throw e => Throw e
      end
  | Throw e => Throw e
  end.

(** A property of the cache and the function objects that [compile]
    keeps. *)
Definition store_invariant (P : state -> Prop) : Prop :=
  (forall st st', cache st' = cache st -> heap st' = heap st -> P st -> P st') /\
  (forall key original expr isSetter globals formatters extraArgs st,
      P st ->
      P (snd (compile key original expr isSetter globals formatters extraArgs st))).

End WithCollaborators.

Definition no_pipe (c : ascii) : bool := negb (Ascii.eqb c pipe).

Definition no_comma (c : ascii) : bool := negb (Ascii.eqb c ","%char).

(** An extra-argument name that is not empty and has neither of the
    separators of the cache key in it. *)
Definition name_ok (a : string) : bool :=
  negb (String.eqb a EmptyString) &&
  Strings.all_chars (fun c => no_comma c && no_pipe c) a.

(** [exports.globals[key] = v], which callers may do between calls. *)
Definition set_global (key : string) (v : value) (st : state) : state :=
  {| strings := strings st; valueProperty := valueProperty st; cache := cache st;
     heap := heap st; arrays := arrays st;
     exports_globals := (key, v) :: exports_globals st |}.

(** The entries the cache has in [st] are still there in [st']. *)
Definition cache_grows (st st' : state) : Prop :=
  forall key func, cache st !! key = Some func -> cache st' !! key = Some func.

(** [st'] has the placeholder name of [st] and at least its cache. *)
Definition keeps (st st' : state) : Prop :=
  valueProperty st' = valueProperty st /\ cache_grows st st'.

(** The cache is well formed: its entries refer to function objects
    that exist, and no function object is entered under two keys. *)
Definition cache_wf (st : state) : Prop :=
  (forall key func, cache st !! key = Some func -> func < length (heap st)) /\
  (forall key1 key2 func,
      cache st !! key1 = Some func -> cache st !! key2 = Some func -> key1 = key2).

(** Every function object is a closure of [bindArguments] over a
    function of the constructor and the two values it was bound to. *)
Definition heap_wf (st : state) : Prop :=
  forall func fn,
    heap st !! func = Some fn ->
    exists globals formatters extraArgs,
      fo_args fn = [globals; formatters] /\
      params (fo_func fn) = "_globals_" :: "_formatters_" :: extraArgs.

(** [obj] has an own property [key]. *)
Definition has_prop (props : list (string * value)) (key : string) : bool :=
  existsb (fun kv => String.eqb (fst kv) key) props.

(** [v + s] for a string [s] converts [v] to a primitive and then to a
    string.  For a plain object that is [valueOf], which gives no
    primitive, then [toString]: an own [toString] property hides the
    one of [Object.prototype], and as no property of these objects is a
    function, the conversion then throws a [TypeError]. *)
Definition plus_string `{Collaborators} (v : value) : result string :=
  match v with
  | VObj props =>
      if has_prop props "toString"
      then Throw (TypeError "Cannot convert object to primitive value")
      else Ok (to_string v)
  | _ => Ok (to_string v)
  end.

Definition no_newline (c : ascii) : bool := negb (Ascii.eqb c newline).

(** [n] exclamation marks. *)
Fixpoint bangs (n : nat) : string :=
  match n with
  | O => EmptyString
  | S n' => String "!" (bangs n')
  end.

(** *** Revision A (lines 1-101): variadic extra arguments *)

Module RevA.
Section WithCollaborators.
Context `{Collaborators}.

(** [exports.parse = function(expr, globals, formatters) {...}];
    [extraArgs] is [slice.call(arguments, 3)]. *)
Definition parse (expr : value) (globals formatters : value)
    (extraArgs : list string) : M ref :=
  if negb (String.eqb (typeof expr) "string") then
    throw (TypeError "Invalid expr, must be type String")
  else
    let cacheKey := cacheKey (to_string expr) extraArgs in
    func <- get (fun st => cache st !! cacheKey) ;;
    match func with
    | Some func => ret func
    | None =>
        let original := to_string expr in
        valueProperty <- get valueProperty ;;
        let isSetter := is_setter extraArgs valueProperty in
        compile cacheKey original expr isSetter globals formatters extraArgs
    end.

(** [exports.parseSetter]; [extraArgs] is [slice.call(arguments, 3)]. *)
Definition parseSetter (expr : string) (globals formatters : value)
    (extraArgs : list string) : M ref :=
  let expr :=
    if SetterRewrite.starts_with_bang expr then
      SetterRewrite.replace_pipe_or_end " = !_value_" (SetterRewrite.slice1 expr)
    else
      SetterRewrite.replace_pipe_or_end " = _value_" expr in
  valueProperty <- get valueProperty ;;
  parse (VStr expr) globals formatters ([valueProperty] ++ extraArgs).

(** What a client does to the module, and the state a sequence of such
    calls leads to. *)
Inductive call : Type :=
| Parse (expr globals formatters : value) (extraArgs : list string)
| ParseSetter (expr : string) (globals formatters : value) (extraArgs : list string)
| SetGlobal (key : string) (v : value).

Definition step (st : state) (c : call) : state :=
  match c with
  | Parse expr globals formatters extraArgs =>
      snd (parse expr globals formatters extraArgs st)
  | ParseSetter expr globals formatters extraArgs =>
      snd (parseSetter expr globals formatters extraArgs st)
  | SetGlobal key v => set_global key v st
  end.

Definition run (calls : list call) (st : state) : state :=
  fold_left step calls st.

End WithCollaborators.
End RevA.

(** *** Revision B (lines 102-198): an array of extra arguments *)

Module RevB.
Section WithCollaborators.
Context `{Collaborators}.

(** [expr.charAt(0) === '!'], which throws where [expr] has no
    [charAt]. *)
Definition charAt0_is_bang (expr : value) : result bool :=
  match Strings.as_string expr with
  | Some s => Ok (SetterRewrite.starts_with_bang s)
  | None => Throw (Strings.no_method expr "charAt")
  end.

(** [expr.slice(1)] *)
Definition slice1 (expr : value) : value :=
  match Strings.as_string expr with
  | Some s => VStr (SetterRewrite.slice1 s)
  | None => expr
  end.

(** [if (!Array.isArray(extraArgs)) extraArgs = [];] *)
Definition array_or_empty (extraArgs : option (list string)) : list string :=
  match extraArgs with
  | Some a => a
  | None => []
  end.

(** [exports.parse = function(expr, globals, formatters, extraArgs)]:
    [extraArgs] is the content of the array handed in, [None] when the
    argument is not an array. [parse] only reads the array.  The key is
    [expr + '|' + ...], which converts [expr] to a string first. *)
Definition parse (expr : value) (globals formatters : value)
    (extraArgs : option (list string)) : M ref :=
  let extraArgs := array_or_empty extraArgs in
  text <- lift (plus_string expr) ;;
  let cacheKey := cacheKey text extraArgs in
  func <- get (fun st => cache st !! cacheKey) ;;
  match func with
  | Some func => ret func
  | None =>
      let original := text in
      valueProperty0 <- get valueProperty ;;
      let isSetter := is_setter extraArgs valueProperty0 in
      expr <- (if isSetter then
                 bang <- lift (charAt0_is_bang expr) ;;
                 if (bang : bool) then
                   modify (set_valueProperty ("!" +:+ valueProperty0)) ;;;
                   ret (slice1 expr)
                 else ret expr
               else ret expr) ;;
      compile cacheKey original expr isSetter globals formatters extraArgs
  end.

(** [exports.parseSetter]: [extraArgs] is a reference to the caller's
    array, [None] when the argument is not an array, in which case a
    new array is made.  [unshift] updates the array in place. *)
Definition parseSetter (expr : string) (globals formatters : value)
    (extraArgs : option nat) : M ref :=
  extraArgs <- (match extraArgs with
                | Some a => ret a
                | None => fun st => (Ok (length (arrays st)), set_arrays (arrays st ++ [[]]) st)
                end) ;;
  valueProperty <- get valueProperty ;;
  modify (fun st => set_arrays (alter (fun a => valueProperty :: a) extraArgs (arrays st)) st) ;;;
  let expr := SetterRewrite.replace_pipe_or_end " = _value_" expr in
  content <- get (fun st => arrays st !! extraArgs) ;;
  parse (VStr expr) globals formatters content.

(** What a client does to the module, and the state a sequence of such
    calls leads to. *)
Inductive call : Type :=
| Parse (expr globals formatters : value) (extraArgs : option (list string))
| ParseSetter (expr : string) (globals formatters : value) (extraArgs : option nat)
| SetGlobal (key : string) (v : value).

Definition step (st : state) (c : call) : state :=
  match c with
  | Parse expr globals formatters extraArgs =>
      snd (parse expr globals formatters extraArgs st)
  | ParseSetter expr globals formatters extraArgs =>
      snd (parseSetter expr globals formatters extraArgs st)
  | SetGlobal key v => set_global key v st
  end.

Definition run (calls : list call) (st : state) : state :=
  fold_left step calls st.

End WithCollaborators.
End RevB.

End Expressions.


(** ** [src/property-chains.js]: null-safe property chains

    The source tree has [expressions.js] call [parseExpression] of
    this module but not the module itself.  What follows is modelled
    from section 4.3 of the specification and from the results the
    tests in [expressions.js] expect of [parseExpression]; it covers
    the expressions that are one property chain. *)

Module Chains.
Import Expressions.

(** *** Chains as written *)

(** Modelled from the spec: a property chain as it stands in an
    expression (section 4.3 and the glossary): a name followed by
    links, each of them a property [.name], an index [[e]] or a call
    [(e1, ..., ek)], whose operands are chains again. *)
Inductive chain : Type :=
| Chain (root : string) (ls : links)
with links : Type :=
| LNil
| LProp (name : string) (rest : links)
| LIndex (key : chain) (rest : links)
| LCall (args : chains) (rest : links)
with chains : Type :=
| CNil
| CCons (c : chain) (cs : chains).

Scheme chain_mut := Induction for chain Sort Prop
with links_mut := Induction for links Sort Prop
with chains_mut := Induction for chains Sort Prop.

Combined Scheme chain_links_chains_ind from chain_mut, links_mut, chains_mut.

(** The links [b] after the links [a]. *)
Fixpoint lapp (a b : links) : links :=
  match a with
  | LNil => b
  | LProp name rest => LProp name (lapp rest b)
  | LIndex key rest => LIndex key (lapp rest b)
  | LCall args rest => LCall args (lapp rest b)
  end.

(** The text of a chain. *)
Fixpoint show (c : chain) : string :=
  match c with
  | Chain root ls => root +:+ show_links ls
  end
with show_links (ls : links) : string :=
  match ls with
  | LNil => EmptyString
  | LProp name rest => "." +:+ name +:+ show_links rest
  | LIndex key rest => "[" +:+ show key +:+ "]" +:+ show_links rest
  | LCall args rest => "(" +:+ show_args args +:+ ")" +:+ show_links rest
  end
with show_args (cs : chains) : string :=
  match cs with
  | CNil => EmptyString
  | CCons c CNil => show c
  | CCons c cs' => show c +:+ ", " +:+ show_args cs'
  end.

(** The characters of a name: ASCII letters, digits, [_] and [$]. *)
Definition name_char (c : ascii) : bool :=
  let n := nat_of_ascii c in
  (Nat.leb 65 n && Nat.leb n 90) || (Nat.leb 97 n && Nat.leb n 122) ||
  (Nat.leb 48 n && Nat.leb n 57) || Nat.eqb n 95 || Nat.eqb n 36.

(** A name a chain does not start with here: one spelled like a
    reference temporary, and [__proto__], which an assignment does not
    enter as a key in the table of [getVariables]. *)
Definition reserved (name : string) : bool :=
  String.prefix "_ref" name || String.eqb name "__proto__".

(** Every name of the chain is made of name characters, and no chain
    starts with a reserved name. *)
Fixpoint names_ok (c : chain) : bool :=
  match c with
  | Chain root ls =>
      Strings.all_chars name_char root && negb (reserved root) && links_ok ls
  end
with links_ok (ls : links) : bool :=
  match ls with
  | LNil => true
  | LProp name rest => Strings.all_chars name_char name && links_ok rest
  | LIndex key rest => names_ok key && links_ok rest
  | LCall args rest => args_ok args && links_ok rest
  end
with args_ok (cs : chains) : bool :=
  match cs with
  | CNil => true
  | CCons c cs' => names_ok c && args_ok cs'
  end.

(** Modelled from the spec: reading a chain from its text, as the
    transformer of [property-chains.js] (absent from the source tree)
    has to; a name is the longest run of name characters that does not
    start with a digit. *)
Fixpoint read_name (s : string) : string * string :=
  match s with
  | String c t =>
      if name_char c then let (name, rest) := read_name t in (String c name, rest)
      else (EmptyString, s)
  | EmptyString => (EmptyString, EmptyString)
  end.

Definition starts_with_digit (s : string) : bool :=
  match s with
  | String c _ => let n := nat_of_ascii c in Nat.leb 48 n && Nat.leb n 57
  | EmptyString => false
  end.

(** Modelled from the spec: the words [and] and [or] are operators
    (section 4.3), not names. *)
Definition word_operator (name : string) : bool :=
  String.eqb name "and" || String.eqb name "or".

(** What cannot be the name of a chain or of a property. *)
Definition not_a_name (name : string) : bool :=
  String.eqb name EmptyString || starts_with_digit name || word_operator name.

Fixpoint skip_spaces (s : string) : string :=
  match s with
  | String c t => if Ascii.eqb c " "%char then skip_spaces t else s
  | EmptyString => s
  end.

(** Modelled from the spec: the links after a name are read as long
    as a [.], a [[] or a [(] follows; the arguments of a call are
    separated by commas. *)
Fixpoint read_chain (fuel : nat) (s : string) : option (chain * string) :=
  match fuel with
  | O => None
  | S fuel' =>
      let (root, rest) := read_name s in
      if not_a_name root then None
      else match read_links fuel' rest with
           | Some (ls, rest') => Some (Chain root ls, rest')
           | None => None
           end
  end
with read_links (fuel : nat) (s : string) : option (links * string) :=
  match fuel with
  | O => None
  | S fuel' =>
      match s with
      | String c t =>
          if Ascii.eqb c "."%char then
            let (name, rest) := read_name t in
            if not_a_name name then None
            else match read_links fuel' rest with
                 | Some (ls, rest') => Some (LProp name ls, rest')
                 | None => None
                 end
          else if Ascii.eqb c "["%char then
            match read_chain fuel' t with
            | Some (key, String d rest) =>
                if Ascii.eqb d "]"%char then
                  match read_links fuel' rest with
                  | Some (ls, rest') => Some (LIndex key ls, rest')
                  | None => None
                  end
                else None
            | _ => None
            end
          else if Ascii.eqb c "("%char then
            match read_args fuel' t with
            | Some (args, String d rest) =>
                if Ascii.eqb d ")"%char then
                  match read_links fuel' rest with
                  | Some (ls, rest') => Some (LCall args ls, rest')
                  | None => None
                  end
                else None
            | _ => None
            end
          else Some (LNil, s)
      | EmptyString => Some (LNil, s)
      end
  end
with read_args (fuel : nat) (s : string) : option (chains * string) :=
  match fuel with
  | O => None
  | S fuel' =>
      match s with
      | String c _ =>
          if Ascii.eqb c ")"%char then Some (CNil, s)
          else match read_chain fuel' s with
               | Some (arg, String d rest) =>
                   if Ascii.eqb d ","%char then
                     match read_args fuel' (skip_spaces rest) with
                     | Some (CCons a args, rest') => Some (CCons arg (CCons a args), rest')
                     | _ => None
                     end
                   else Some (CCons arg CNil, String d rest)
               | _ => None
               end
      | EmptyString => None
      end
  end.

(** Modelled from the spec: the chain a text is, when it is one chain
    and nothing else. *)
Definition read (s : string) : option chain :=
  match read_chain (2 * String.length s + 2) s with
  | Some (c, EmptyString) => Some c
  | _ => None
  end.

(** *** The rewrite *)

(** Modelled from the spec: the expressions the rewrite of section
    4.3 produces, as the tests of [parseExpression] spell them:
    [Guard n e rest] is [(_refN = e) == null ? void 0 : rest] and
    [IfFunction e rest] is [typeof e !== 'function' ? void 0 : rest]. *)
Inductive code : Type :=
| This
| Name (x : string)
| Ref (n : nat)
| Member (e : code) (name : string)
| At (e : code) (key : code)
| Invoke (e : code) (args : codes)
| Guard (n : nat) (e : code) (rest : code)
| IfFunction (e : code) (rest : code)
| Paren (e : code)
with codes : Type :=
| KNil
| KCons (e : code) (es : codes).

(** Where a name is read from. *)
Inductive scope : Type :=
| Context
| Global
| Unqualified.

(** Modelled from the spec: [property-chains.js] is not part of the
    source tree.  The names the transformer declares for itself:
    section 4.3 has the boolean and null literals and the keywords left
    unqualified, section 6 names the host names that are always
    available, and the test [should not prefix keywords] expects
    [window] and [Math] as they stand. *)
Definition declared : list string :=
  ["true"; "false"; "null"; "undefined"; "this";
   "window"; "Math"; "parseInt"; "parseFloat"; "isNaN"; "Array"].

(** Modelled from the spec: the classification of a name in section
    4.3 of the specification, [property-chains.js] being absent from
    the source tree.  The table is the one [getVariables] builds: an
    extra-argument name is bound to [null] there, and is left
    unqualified (so is a global given as [null], which the README says
    is taken from the host); a name bound to anything else is a global,
    read from the globals argument; a declared name is left
    unqualified; any other name is bound to the context. *)
Definition classify (variables : gmap string value) (name : string) : scope :=
  match variables !! name with
  | Some VNull => Unqualified
  | Some _ => Global
  | None => if existsb (String.eqb name) declared then Unqualified else Context
  end.

(** Modelled from the spec: the access a name is rewritten to
    (section 4.3): [this.name], [_globals_.name] or the name as it
    stands; [property-chains.js] is absent from the source tree. *)
Definition root_access (variables : gmap string value) (root : string) : code :=
  match classify variables root with
  | Context => Member This root
  | Global => Member (Name "_globals_") root
  | Unqualified => Name root
  end.

(** Modelled from the spec: a value that is read further by a
    property or an index goes through a reference temporary (section
    4.3); a value that is called does not. *)
Definition needs_guard (ls : links) : bool :=
  match ls with
  | LProp _ _ | LIndex _ _ => true
  | _ => false
  end.

(** Modelled from the spec: the temporary reserved for the value the
    links [ls] are applied to, and the next free number. *)
Definition reserve (n : nat) (ls : links) : nat * nat :=
  if needs_guard ls then (n, S n) else (O, n).

(** Modelled from the spec: the rewrite of a chain in section 4.3 of
    the specification, in the shape the tests of [parseExpression]
    expect; [property-chains.js] is absent from the source tree.  A
    value that is read further by a property or an index is assigned
    to the next reference temporary and tested against [null], and the
    chain goes on from the temporary only when the test passes; a value
    that is called is tested to be a function first; the guards nest to
    the right, the operands of an index or a call are rewritten the
    same way, and the temporaries are numbered in the order in which
    their guards open in the text.  A single name is left direct, any
    other chain is put in parentheses.  [rewrite_links g n cur ls]
    applies [ls] to the value of [cur], for which the temporary [g] is
    reserved; [n] is the next free number. *)
Fixpoint rewrite (variables : gmap string value) (n : nat) (c : chain) : code * nat :=
  match c with
  | Chain root LNil => (root_access variables root, n)
  | Chain root ls =>
      let (g, n0) := reserve n ls in
      let (body, n1) := rewrite_links variables g n0 (root_access variables root) ls in
      (Paren body, n1)
  end
with rewrite_links (variables : gmap string value) (g n : nat) (cur : code) (ls : links)
    : code * nat :=
  match ls with
  | LNil => (cur, n)
  | LProp name rest =>
      let (g', n0) := reserve n rest in
      let (body, n1) := rewrite_links variables g' n0 (Member (Ref g) name) rest in
      (Guard g cur body, n1)
  | LIndex key rest =>
      let (g', n0) := reserve n rest in
      let (key', n1) := rewrite variables n0 key in
      let (body, n2) := rewrite_links variables g' n1 (At (Ref g) key') rest in
      (Guard g cur body, n2)
  | LCall args rest =>
      let (g', n0) := reserve n rest in
      let (args', n1) := rewrite_args variables n0 args in
      let (body, n2) := rewrite_links variables g' n1 (Invoke cur args') rest in
      (IfFunction cur body, n2)
  end
with rewrite_args (variables : gmap string value) (n : nat) (cs : chains) : codes * nat :=
  match cs with
  | CNil => (KNil, n)
  | CCons c cs' =>
      let (e, n0) := rewrite variables n c in
      let (es, n1) := rewrite_args variables n0 cs' in
      (KCons e es, n1)
  end.

(** Modelled from the spec: the name of a reference temporary, as the
    tests of [parseExpression] have it. *)
Definition ref_name (n : nat) : string :=
  "_ref" +:+ NilZero.string_of_uint (Nat.to_uint n).

(** Modelled from the spec: the JavaScript text of an expression, in
    the spelling the tests of [parseExpression] expect. *)
Fixpoint print (e : code) : string :=
  match e with
  | This => "this"
  | Name x => x
  | Ref n => ref_name n
  | Member e name => print e +:+ "." +:+ name
  | At e key => print e +:+ "[" +:+ print key +:+ "]"
  | Invoke e args => print e +:+ "(" +:+ print_args args +:+ ")"
  | Guard n e rest =>
      "(" +:+ ref_name n +:+ " = " +:+ print e +:+ ") == null ? void 0 : " +:+ print rest
  | IfFunction e rest =>
      "typeof " +:+ print e +:+ " !== 'function' ? void 0 : " +:+ print rest
  | Paren e => "(" +:+ print e +:+ ")"
  end
with print_args (es : codes) : string :=
  match es with
  | KNil => EmptyString
  | KCons e KNil => print e
  | KCons e es' => print e +:+ ", " +:+ print_args es'
  end.

(** The expression a chain is rewritten to, the temporaries counting
    from 1, and the next free number after it. *)
Definition code_of (variables : gmap string value) (c : chain) : code :=
  fst (rewrite variables 1 c).

Definition next_free (variables : gmap string value) (c : chain) : nat :=
  snd (rewrite variables 1 c).

(** Modelled from the spec: the declaration of the temporaries
    [_ref1] to [_ref(n-1)], on a line of its own, as the tests of
    [parseExpression] expect it; nothing when there is none. *)
Definition declaration (n : nat) : string :=
  match n with
  | O | S O => EmptyString
  | _ => "var " +:+ join ", " (map ref_name (seq 1 (n - 1))) +:+ ";" +:+ str1 newline
  end.

(** Modelled from the spec: the text [parseExpression] of
    [property-chains.js], absent from the source tree, returns for an
    expression that is the chain [c]: the declaration of the
    temporaries, then the rewritten chain. *)
Definition parseExpression_text (variables : gmap string value) (c : chain) : string :=
  declaration (next_free variables c) +:+ print (code_of variables c).

(** Modelled from the spec: [parseExpression] of [property-chains.js],
    absent from the source tree, on a text that is one chain.  Texts
    that are not one chain (operators between chains, literals, the
    words [and] and [or], assignments) are outside this model. *)
Definition parseExpression_chain (text : string) (variables : gmap string value)
    : option string :=
  match read text with
  | Some c => Some (parseExpression_text variables c)
  | None => None
  end.

(** The body of a function that declares the temporaries below [n]
    and returns the expression [e]. *)
Definition returning (n : nat) (e : code) : string :=
  declaration n +:+ "return " +:+ print e.

(** The body of the function [parse] builds for the chain [c] as a
    getter: the [return] in front of the last line. *)
Definition function_text (variables : gmap string value) (c : chain) : string :=
  returning (next_free variables c) (code_of variables c).

(** *** What the text means *)

(** What an expression evaluates to: a value of the program, or a
    function of the host, known by a name.  Functions are reached as
    properties (the methods of an object, own or inherited) and as
    names of the host; what calling one does is a parameter. *)
Inductive datum : Type :=
| Data (v : value)
| Callable (f : string).

(** [d == null] and [typeof d] *)
Definition is_null (d : datum) : bool :=
  match d with
  | Data v => nullish v
  | Callable _ => false
  end.

Definition type_of (d : datum) : string :=
  match d with
  | Data v => typeof v
  | Callable _ => "function"
  end.

Definition undefined : datum := Data VUndefined.

(** The temporaries, [undefined] until assigned. *)
Definition store : Type := nat -> datum.

Definition empty_store : store := fun _ => undefined.

Definition assign (n : nat) (v : datum) (refs : store) : store :=
  fun m => if Nat.eqb m n then v else refs m.

(** The parameters of a function bound to the arguments of a call, a
    later parameter of the same name first; other names are those of
    the host, which throws for a name it does not have. *)
Fixpoint bind_params (host_global : string -> result datum) (ps : list string)
    (args : list value) : string -> result datum :=
  match ps with
  | [] => host_global
  | p :: ps' =>
      let v := match args with a :: _ => a | [] => VUndefined end in
      let rest := bind_params host_global ps' (tl args) in
      fun x =>
        if existsb (String.eqb x) ps' then rest x
        else if String.eqb x p then Ok (Data v) else rest x
  end.

Definition null_error : error :=
  TypeError "Cannot read property of null or undefined".

Definition call_error : error := TypeError "is not a function".

Section Evaluation.

(** The engine and the host: [member v name] is [v.name] and
    [index v key] is [v[key]] for [v] other than [null] and
    [undefined], own or inherited; [host f this args] is what calling
    the function [f] does; [env] gives the identifiers in scope (the
    parameters and the names of the host), or throws for a name that
    is not defined, and [this] is the binding context. *)
Variable member : datum -> string -> datum.
Variable index : datum -> datum -> result datum.
Variable host : string -> datum -> list datum -> result datum.
Variable env : string -> result datum.
Variable this : value.

(** An identifier that stands as it is: [this], a literal, or a name
    in scope ([undefined] is one of these: a name of the host that a
    parameter can hide). *)
Definition name_value (x : string) : result datum :=
  if String.eqb x "this" then Ok (Data this)
  else if String.eqb x "true" then Ok (Data (VBool true))
  else if String.eqb x "false" then Ok (Data (VBool false))
  else if String.eqb x "null" then Ok (Data VNull)
  else env x.

(** [f.call(recv, ...args)], as a call expression does it. *)
Definition call (f recv : datum) (args : list datum) : result datum :=
  match f with
  | Callable name => host name recv args
  | Data _ => Throw call_error
  end.

(** Evaluation of an expression of the rewrite, as the engine does it:
    the value, and with it the object a property was read from, which
    is the receiver when the property is called.  Reading a property of
    [null] or [undefined] and calling what is not a function throw a
    [TypeError]; what a called function throws is thrown on. *)
Fixpoint eval (e : code) (refs : store) : result (datum * datum) * store :=
  match e with
  | This => (Ok (undefined, Data this), refs)
  | Name x =>
      match name_value x with
      | Ok v => (Ok (undefined, v), refs)
      | Throw err => (Throw err, refs)
      end
  | Ref n => (Ok (undefined, refs n), refs)
  | Member b name =>
      match eval b refs with
      | (Ok (_, vb), refs1) =>
          if is_null vb then (Throw null_error, refs1)
          else (Ok (vb, member vb name), refs1)
      | (Throw err, refs1) => (Throw err, refs1)
      end
  | At b key =>
      match eval b refs with
      | (Ok (_, vb), refs1) =>
          match eval key refs1 with
          | (Ok (_, vk), refs2) =>
              if is_null vb then (Throw null_error, refs2)
              else match index vb vk with
                   | Ok v => (Ok (vb, v), refs2)
                   | Throw err => (Throw err, refs2)
                   end
          | (Throw err, refs2) => (Throw err, refs2)
          end
      | (Throw err, refs1) => (Throw err, refs1)
      end
  | Invoke f args =>
      match eval f refs with
      | (Ok (recv, vf), refs1) =>
          match eval_args args refs1 with
          | (Ok vals, refs2) =>
              match call vf recv vals with
              | Ok v => (Ok (undefined, v), refs2)
              | Throw err => (Throw err, refs2)
              end
          | (Throw err, refs2) => (Throw err, refs2)
          end
      | (Throw err, refs1) => (Throw err, refs1)
      end
  | Guard n e rest =>
      match eval e refs with
      | (Ok (_, v), refs1) =>
          if is_null v then (Ok (undefined, undefined), assign n v refs1)
          else match eval rest (assign n v refs1) with
               | (Ok (_, u), refs2) => (Ok (undefined, u), refs2)
               | (Throw err, refs2) => (Throw err, refs2)
               end
      | (Throw err, refs1) => (Throw err, refs1)
      end
  | IfFunction e rest =>
      match eval e refs with
      | (Ok (_, v), refs1) =>
          if String.eqb (type_of v) "function" then
            match eval rest refs1 with
            | (Ok (_, u), refs2) => (Ok (undefined, u), refs2)
            | (Throw err, refs2) => (Throw err, refs2)
            end
          else (Ok (undefined, undefined), refs1)
      | (Throw err, refs1) => (Throw err, refs1)
      end
  | Paren e => eval e refs
  end
with eval_args (es : codes) (refs : store) : result (list datum) * store :=
  match es with
  | KNil => (Ok [], refs)
  | KCons e es' =>
      match eval e refs with
      | (Ok (_, v), refs1) =>
          match eval_args es' refs1 with
          | (Ok vs, refs2) => (Ok (v :: vs), refs2)
          | (Throw err, refs2) => (Throw err, refs2)
          end
      | (Throw err, refs1) => (Throw err, refs1)
      end
  end.

(** The value of an outcome. *)
Definition value_of (r : result (datum * datum)) : result datum :=
  match r with
  | Ok (_, v) => Ok v
  | Throw err => Throw err
  end.

(** Running a function whose body is the text of [e] with a [return]:
    the temporaries are declared, so [undefined], at the start. *)
Definition run (e : code) : result datum :=
  value_of (fst (eval e empty_store)).

(** The chain as plain JavaScript reads it, link by link and with no
    guard, each name read from where its scope says: the value and the
    object it was read from. *)
Definition root_value (variables : gmap string value) (root : string)
    : result (datum * datum) :=
  match classify variables root with
  | Context =>
      if nullish this then Throw null_error
      else Ok (Data this, member (Data this) root)
  | Global =>
      match name_value "_globals_" with
      | Ok g => if is_null g then Throw null_error else Ok (g, member g root)
      | Throw err => Throw err
      end
  | Unqualified =>
      match name_value root with
      | Ok v => Ok (undefined, v)
      | Throw err => Throw err
      end
  end.

Fixpoint plain (variables : gmap string value) (c : chain) : result (datum * datum) :=
  match c with
  | Chain root ls =>
      match root_value variables root with
      | Ok (recv, v) => plain_links variables recv v ls
      | Throw err => Throw err
      end
  end
with plain_links (variables : gmap string value) (recv v : datum) (ls : links)
    : result (datum * datum) :=
  match ls with
  | LNil => Ok (recv, v)
  | LProp name rest =>
      if is_null v then Throw null_error
      else plain_links variables v (member v name) rest
  | LIndex key rest =>
      match plain variables key with
      | Ok (_, vk) =>
          if is_null v then Throw null_error
          else match index v vk with
               | Ok x => plain_links variables v x rest
               | Throw err => Throw err
               end
      | Throw err => Throw err
      end
  | LCall args rest =>
      match plain_args variables args with
      | Ok vals =>
          match call v recv vals with
          | Ok x => plain_links variables undefined x rest
          | Throw err => Throw err
          end
      | Throw err => Throw err
      end
  end
with plain_args (variables : gmap string value) (cs : chains) : result (list datum) :=
  match cs with
  | CNil => Ok []
  | CCons c cs' =>
      match plain variables c with
      | Ok (_, v) =>
          match plain_args variables cs' with
          | Ok vs => Ok (v :: vs)
          | Throw err => Throw err
          end
      | Throw err => Throw err
      end
  end.

(** The chain read with a question mark at every link: [undefined] as
    soon as a value that is read further is [null] or [undefined], or a
    value that is called is not a function. *)
Fixpoint safe (variables : gmap string value) (c : chain) : result (datum * datum) :=
  match c with
  | Chain root ls =>
      match root_value variables root with
      | Ok (recv, v) => safe_links variables recv v ls
      | Throw err => Throw err
      end
  end
with safe_links (variables : gmap string value) (recv v : datum) (ls : links)
    : result (datum * datum) :=
  match ls with
  | LNil => Ok (recv, v)
  | LProp name rest =>
      if is_null v then Ok (undefined, undefined)
      else safe_links variables v (member v name) rest
  | LIndex key rest =>
      if is_null v then Ok (undefined, undefined)
      else match safe variables key with
           | Ok (_, vk) =>
               match index v vk with
               | Ok x => safe_links variables v x rest
               | Throw err => Throw err
               end
           | Throw err => Throw err
           end
  | LCall args rest =>
      if String.eqb (type_of v) "function" then
        match safe_args variables args with
        | Ok vals =>
            match call v recv vals with
            | Ok x => safe_links variables undefined x rest
            | Throw err => Throw err
            end
        | Throw err => Throw err
        end
      else Ok (undefined, undefined)
  end
with safe_args (variables : gmap string value) (cs : chains) : result (list datum) :=
  match cs with
  | CNil => Ok []
  | CCons c cs' =>
      match safe variables c with
      | Ok (_, v) =>
          match safe_args variables cs' with
          | Ok vs => Ok (v :: vs)
          | Throw err => Throw err
          end
      | Throw err => Throw err
      end
  end.

(** What the links [ls] give when they are applied to the outcome [r]
    with a question mark at every link. *)
Definition continue (variables : gmap string value) (r : result (datum * datum))
    (ls : links) : result (datum * datum) :=
  match r with
  | Ok (recv, v) => safe_links variables recv v ls
  | Throw err => Throw err
  end.

(** Two stores with the same temporaries below [k]. *)
Definition agree (k : nat) (refs refs' : store) : Prop :=
  forall m, m < k -> refs m = refs' m.

(** The expression [cur] has the outcome [r] in every store that has
    the temporaries of [refs] below [lo], and leaves those alone. *)
Definition stable (lo : nat) (cur : code) (refs : store) (r : result (datum * datum))
    : Prop :=
  forall refs', agree lo refs refs' ->
  exists refs'', eval cur refs' = (r, refs'') /\ agree lo refs' refs''.

(** The links [ls] cannot be applied to the value [v]: a property or
    an index of [null] or [undefined], a call of what is not a
    function. *)
Definition blocked (v : datum) (ls : links) : bool :=
  match ls with
  | LNil => false
  | LProp _ _ | LIndex _ _ => is_null v
  | LCall _ _ => negb (String.eqb (type_of v) "function")
  end.

End Evaluation.

(** The engine on a function whose body declares the temporaries
    below [n] and returns the expression [e]: the parameters are bound
    to the arguments of the call and [e] is evaluated.  A function made
    by the function constructor is not strict: called with [null] or
    [undefined] for [this], it sees the global object [host_this] of
    the host.  A function with any other body is not run by this
    model. *)
Definition run_as (member : datum -> string -> datum)
    (index : datum -> datum -> result datum)
    (host : string -> datum -> list datum -> result datum)
    (host_global : string -> result datum) (host_this : value)
    (n : nat) (e : code)
    (f : rawfunc) (this : value) (args : list value) : option (result datum) :=
  if String.eqb (body f) (returning n e) then
    Some (run member index host (bind_params host_global (params f) args)
              (if nullish this then host_this else this) e)
  else None.

(** The engine on the function [parse] builds for the chain [c]. *)
Definition run_chain (member : datum -> string -> datum)
    (index : datum -> datum -> result datum)
    (host : string -> datum -> list datum -> result datum)
    (host_global : string -> result datum) (host_this : value)
    (variables : gmap string value) (c : chain)
    : rawfunc -> value -> list value -> option (result datum) :=
  run_as member index host host_global host_this
         (next_free variables c) (code_of variables c).

(** The function object [parse] builds for the chain [c] as a getter:
    the function of the constructor, with the parameters [_globals_],
    [_formatters_] and the extra-argument names, closed over the
    globals and the formatters of the call. *)
Definition getter (variables : gmap string value) (c : chain)
    (globals formatters : value) (extraArgs : list string) : funobj :=
  {| fo_func := {| params := "_globals_" :: "_formatters_" :: extraArgs;
                   body := function_text variables c |};
     fo_args := [globals; formatters];
     fo_expr := Some (function_text variables c) |}.

(** A text in which no two equal delimiters of a literal stand side
    by side, and which neither starts nor ends with one: the restore
    step finds nothing to fill in it, also when it is put between other
    such texts. *)
Fixpoint no_pairs (s : string) : bool :=
  match s with
  | String c ((String d _) as t) =>
      negb (Strings.is_quote c && Ascii.eqb d c) && no_pairs t
  | _ => true
  end.

Definition first_quote (s : string) : bool :=
  match s with
  | String c _ => Strings.is_quote c
  | EmptyString => false
  end.

Fixpoint last_quote (s : string) : bool :=
  match s with
  | EmptyString => false
  | String c EmptyString => Strings.is_quote c
  | String _ t => last_quote t
  end.

Definition tame (s : string) : bool :=
  no_pairs s && negb (first_quote s) && negb (last_quote s).

(** A character that neither delimits a literal nor ends a line, and
    a text of one line that the restore step leaves alone. *)
Definition word_char (c : ascii) : bool := negb (Strings.is_quote c) && no_newline c.

Definition clean (s : string) : bool := tame s && Strings.all_chars no_newline s.

End Chains.

(** ** A stand-in for the collaborators *)

Module StandIn.

(** First and later characters of an identifier (ASCII letters, [_],
    [$] and digits). *)
Definition ident_start (c : ascii) : bool :=
  let n := nat_of_ascii c in
  (Nat.leb 65 n && Nat.leb n 90) || (Nat.leb 97 n && Nat.leb n 122) ||
  Nat.eqb n 95 || Nat.eqb n 36.

Definition ident_part (c : ascii) : bool :=
  let n := nat_of_ascii c in
  ident_start c || (Nat.leb 48 n && Nat.leb n 57).

(** A parameter string of the function constructor: identifiers
    separated by commas. *)
Fixpoint ident_list (in_ident : bool) (s : string) : bool :=
  match s with
  | EmptyString => in_ident
  | String c t =>
      if in_ident then
        if Ascii.eqb c ","%char then ident_list false t
        else ident_part c && ident_list true t
      else ident_start c && ident_list true t
  end.

(** Collaborators to run the builder on concrete inputs: text
    transformations that leave the text as it is, a function
    constructor that checks the parameter names only, and numbers
    printed with all their digits, as the engine prints the integers
    below 10^21 that it has. *)
#[export] Instance collaborators : Expressions.Collaborators := {|
  Expressions.parseFormatters s := Ok s;
  Expressions.parseExpression s _ := Ok s;
  Expressions.function_syntax_error ps b :=
    if forallb (ident_list false) ps then None else Some "Unexpected token";
  Expressions.number_to_string n := NilZero.string_of_int (Z.to_int n)
|}.

(** Collaborators whose formatter step refuses a text that has a pipe
    in it, to run the builder on an input for which a collaborator
    throws. *)
Definition refusing : Expressions.Collaborators := {|
  Expressions.parseFormatters s :=
    if Strings.all_chars Expressions.no_pipe s then Ok s
    else Throw (Error "Unknown formatter");
  Expressions.parseExpression s _ := Ok s;
  Expressions.function_syntax_error ps b :=
    if forallb (ident_list false) ps then None else Some "Unexpected token";
  Expressions.number_to_string n := NilZero.string_of_int (Z.to_int n)
|}.

(** Collaborators whose [parseExpression] is the rewrite of section
    4.3 on a text that is one chain (any other text is left as it is),
    to run [parse] on chains. *)
Definition chains : Expressions.Collaborators := {|
  Expressions.parseFormatters s := Ok s;
  Expressions.parseExpression s variables :=
    match Chains.parseExpression_chain s variables with
    | Some text => Ok text
    | None => Ok s
    end;
  Expressions.function_syntax_error ps b :=
    if forallb (ident_list false) ps then None else Some "Unexpected token";
  Expressions.number_to_string n := NilZero.string_of_int (Z.to_int n)
|}.

(** A small engine to run the callables on concrete inputs: the own
    properties of plain objects, the method [toString] that every
    string inherits and that returns the string, and a host with no
    name but [undefined]. *)
Definition member (d : Chains.datum) (name : string) : Chains.datum :=
  match d with
  | Chains.Data (VObj props) => Chains.Data (Expressions.lookup_prop props name)
  | Chains.Data (VStr _) =>
      if String.eqb name "toString" then Chains.Callable "toString"
      else Chains.undefined
  | _ => Chains.undefined
  end.

Definition index (d key : Chains.datum) : result Chains.datum :=
  match key with
  | Chains.Data (VStr name) => Ok (member d name)
  | _ => Ok Chains.undefined
  end.

Definition host (f : string) (recv : Chains.datum) (args : list Chains.datum)
    : result Chains.datum :=
  match recv with
  | Chains.Data (VStr s) =>
      if String.eqb f "toString" then Ok recv
      else Throw (TypeError "not a method of a string")
  | _ => Throw (TypeError "not a method of this value")
  end.

Definition host_global (x : string) : result Chains.datum :=
  if String.eqb x "undefined" then Ok Chains.undefined
  else Throw (Error (x +:+ " is not defined")).

End StandIn.

(** * Properties *)

(** ** The matcher *)

Module RegexFacts.
Import Regex.

#[local] Arguments String.append !s1 s2 : simpl nomatch.

Lemma run_class fuel p s cap k :
  run fuel (Class p) s cap k =
  match s with
  | String c t => if p c then k t cap else None
  | EmptyString => None
  end.
Proof. destruct fuel; reflexivity. Qed.

Lemma run_char fuel a s cap k :
  run fuel (Char a) s cap k =
  match s with
  | String c t => if Ascii.eqb c a then k t cap else None
  | EmptyString => None
  end.
Proof. apply run_class. Qed.

Lemma run_backref fuel s cap k :
  run fuel Backref s cap k =
  match cap with
  | Some w =>
      match strip_prefix w s with
      | Some t => k t cap
      | None => None
      end
  | None => k s cap
  end.
Proof. destruct fuel; reflexivity. Qed.

Lemma run_group fuel r s cap k :
  run fuel (Group r) s cap k =
  run fuel r s cap (fun rest _ => k rest (Some (consumed s rest))).
Proof. destruct fuel; reflexivity. Qed.

Lemma run_seq fuel r1 r2 s cap k :
  run fuel (Seq r1 r2) s cap k =
  run fuel r1 s cap (fun rest cap' => run fuel r2 rest cap' k).
Proof. destruct fuel; reflexivity. Qed.

Lemma run_alt fuel r1 r2 s cap k :
  run fuel (Alt r1 r2) s cap k =
  match run fuel r1 s cap k with
  | Some res => Some res
  | None => run fuel r2 s cap k
  end.
Proof. destruct fuel; reflexivity. Qed.

Lemma run_star fuel greedy r s cap k :
  run (S fuel) (Star greedy r) s cap k =
  let again :=
    run (S fuel) r s cap (fun rest cap' =>
      if Nat.ltb (String.length rest) (String.length s)
      then run fuel (Star greedy r) rest cap' k
      else None) in
  if greedy then
    match again with
    | Some res => Some res
    | None => k s cap
    end
  else
    match k s cap with
    | Some res => Some res
    | None => again
    end.
Proof. reflexivity. Qed.

Lemma run_end fuel s cap k :
  run fuel End s cap k =
  match s with
  | EmptyString => k s cap
  | String _ _ => None
  end.
Proof. destruct fuel; reflexivity. Qed.

Lemma append_assoc (a b c : string) : (a +:+ b) +:+ c = a +:+ b +:+ c.
Proof. induction a as [|x a IH]; simpl; [reflexivity|]. rewrite IH. reflexivity. Qed.

Lemma append_nil_r (a : string) : a +:+ EmptyString = a.
Proof. induction a as [|x a IH]; simpl; [reflexivity|]. rewrite IH. reflexivity. Qed.

Lemma length_append (a b : string) :
  String.length (a +:+ b) = String.length a + String.length b.
Proof. induction a as [|x a IH]; simpl; [reflexivity|]. rewrite IH. reflexivity. Qed.

Lemma take_append (a b : string) : take (String.length a) (a +:+ b) = a.
Proof. induction a as [|x a IH]; simpl; [destruct b; reflexivity|]. rewrite IH. reflexivity. Qed.

(** What a match went over is the prefix it cut off. *)
Lemma consumed_append (m r : string) : consumed (m +:+ r) r = m.
Proof.
  unfold consumed. rewrite length_append.
  replace (String.length m + String.length r - String.length r)
    with (String.length m) by lia.
  apply take_append.
Qed.

Lemma consumed_one c t : consumed (String c t) t = str1 c.
Proof. apply (consumed_append (str1 c) t). Qed.

Lemma consumed_two c d t : consumed (String c (String d t)) t = String c (str1 d).
Proof. apply (consumed_append (String c (str1 d)) t). Qed.

Lemma consumed_none s : consumed s s = EmptyString.
Proof. apply (consumed_append EmptyString s). Qed.

End RegexFacts.

(** ** The literal isolator *)

Module StringsFacts.
Import Regex RegexFacts Strings.

#[local] Arguments String.append !s1 s2 : simpl nomatch.

Lemma string_len_ind (P : string -> Prop) :
  (forall s, (forall t, (String.length t < String.length s)%nat -> P t) -> P s) ->
  forall s, P s.
Proof.
  intros H s.
  assert (G : forall n t, (String.length t < n)%nat -> P t).
  { induction n as [|n IHn]; intros t Ht; [lia|].
    apply H. intros u Hu. apply IHn. lia. }
  apply (G (S (String.length s))). lia.
Qed.

(** A match of the body of [match_quote] is a proper prefix cut. *)
Lemma quote_body_spec q s :
  forall m r, quote_body q s = Some (m, r) ->
  s = m +:+ r /\ (String.length r < String.length s)%nat.
Proof.
  induction s as [s IH] using string_len_ind.
  intros m r H. destruct s as [|c t]; [discriminate|].
  simpl in H.
  destruct (Ascii.eqb c q) eqn:Ecq.
  { inversion H; subst. simpl. split; [reflexivity|lia]. }
  assert (Hany : forall m r,
    (if Ascii.eqb c soh then None
     else match quote_body q t with
          | Some (m, r) => Some (String c m, r)
          | None => None
          end) = Some (m, r) ->
    String c t = m +:+ r /\ (String.length r < String.length (String c t))%nat).
  { intros m0 r0 H0. destruct (Ascii.eqb c soh); [discriminate|].
    destruct (quote_body q t) as [[m1 r1]|] eqn:E1; [|discriminate].
    inversion H0; subst.
    destruct (IH t ltac:(simpl; lia) _ _ E1) as [-> Hl].
    simpl. split; [reflexivity|lia]. }
  destruct t as [|d t']; [apply Hany, H|].
  destruct (Ascii.eqb c backslash && Ascii.eqb d q); [|apply Hany, H].
  destruct (quote_body q t') as [[m1 r1]|] eqn:E1; [|apply Hany, H].
  inversion H; subst.
  destruct (IH t' ltac:(simpl; lia) _ _ E1) as [-> Hl].
  simpl. split; [reflexivity|lia].
Qed.

Lemma quote_body_head q t :
  quote_body q (String q t) = Some (str1 q, t).
Proof. simpl. rewrite Ascii.eqb_refl. reflexivity. Qed.

Lemma match_quote_spec s str q r :
  match_quote s = Some (str, q, r) ->
  is_quote q = true /\ s = str +:+ r /\
  (String.length r < String.length s)%nat /\ exists m, str = String q m.
Proof.
  unfold match_quote. destruct s as [|c t]; [discriminate|].
  destruct (is_quote c) eqn:Eq; [|discriminate].
  destruct (quote_body c t) as [[m r']|] eqn:Eb; [|discriminate].
  intros E. inversion E; subst. apply quote_body_spec in Eb as [-> Hl].
  simpl. repeat split; eauto; lia.
Qed.

(** The scan copies or doubles the first character: the output starts
    with the character the input starts with. *)
Lemma scan_quotes_head fuel c t :
  exists o, fst (scan_quotes (S fuel) (String c t)) = String c o.
Proof.
  cbn [scan_quotes]. destruct (match_quote (String c t)) as [[[str quote] r]|] eqn:E.
  - unfold match_quote in E. destruct (is_quote c); [|discriminate].
    destruct (quote_body c t) as [[m r']|]; [|discriminate].
    inversion E; subst.
    destruct (scan_quotes fuel r) as [out pushed]. simpl. eauto.
  - destruct (scan_quotes fuel t) as [out pushed]. simpl. eauto.
Qed.

(** Where no pair of equal quotes starts, the restore scan copies. *)
Lemma restore_copy c o l :
  (is_quote c = true -> forall o', o <> String c o') ->
  restore (String c o) l =
  (String c (fst (restore o l)), snd (restore o l)).
Proof.
  intros H. cbn [restore]. destruct o as [|d o']; [reflexivity|].
  destruct (is_quote c && Ascii.eqb d c) eqn:E.
  - apply andb_true_iff in E as [Eq Ed]. apply Ascii.eqb_eq in Ed. subst d.
    exfalso. eapply H; eauto.
  - destruct (restore (String d o') l). reflexivity.
Qed.

Lemma restore_pair q o x l :
  is_quote q = true ->
  restore (String q (String q o)) (x :: l) =
  (x +:+ fst (restore o l), snd (restore o l)).
Proof.
  intros H. cbn [restore shift]. rewrite H, Ascii.eqb_refl. simpl.
  destruct (restore o l). reflexivity.
Qed.

(** Restoring what the scan produced gives the text back and uses up
    exactly the strings the scan pushed. *)
Lemma roundtrip_fuel fuel : forall s rest,
  (String.length s <= fuel)%nat ->
  restore (fst (scan_quotes fuel s))
                       (snd (scan_quotes fuel s) ++ rest) = (s, rest).
Proof.
  induction fuel as [|fuel IH]; intros s rest Hlen.
  { destruct s; [reflexivity|simpl in Hlen; lia]. }
  destruct s as [|c t]; [reflexivity|].
  cbn [scan_quotes].
  destruct (match_quote (String c t)) as [[[str quote] r]|] eqn:E.
  - apply match_quote_spec in E as (Hq & Hs & Hl & m & ->).
    specialize (IH r rest ltac:(simpl in Hlen, Hl; lia)).
    destruct (scan_quotes fuel r) as [out pushed]. simpl fst in *. simpl snd in *.
    rewrite <- app_comm_cons.
    rewrite restore_pair by assumption.
    rewrite IH, Hs. reflexivity.
  - specialize (IH t rest ltac:(simpl in Hlen; lia)).
    assert (Hhead : is_quote c = true ->
                    forall o', fst (scan_quotes fuel t) <> String c o').
    { intros Hq o' Ho. unfold match_quote in E. rewrite Hq in E.
      destruct t as [|d t'].
      - destruct fuel; discriminate.
      - destruct fuel as [|fuel']; [simpl in Hlen; lia|].
        destruct (scan_quotes_head fuel' d t') as [o Hd].
        rewrite Hd in Ho. inversion Ho; subst d.
        rewrite quote_body_head in E. discriminate. }
    destruct (scan_quotes fuel t) as [out pushed]. simpl fst in *. simpl snd in *.
    rewrite restore_copy by assumption.
    rewrite IH. reflexivity.
Qed.

(** More fuel than the length of the text changes nothing. *)
Lemma scan_quotes_fuel n : forall m s,
  (String.length s <= n)%nat -> (String.length s <= m)%nat ->
  scan_quotes n s = scan_quotes m s.
Proof.
  induction n as [|n IH]; intros m s Hn Hm.
  { destruct s; [|simpl in Hn; lia]. destruct m; reflexivity. }
  destruct s as [|c t]; [destruct m; reflexivity|].
  destruct m as [|m]; [simpl in Hm; lia|].
  cbn [scan_quotes].
  destruct (match_quote (String c t)) as [[[str quote] r]|] eqn:E.
  - apply match_quote_spec in E as (_ & _ & Hl & _).
    rewrite (IH m r) by (simpl in *; lia). reflexivity.
  - rewrite (IH m t) by (simpl in *; lia). reflexivity.
Qed.

Lemma isolate_match c t str q r :
  match_quote (String c t) = Some (str, q, r) ->
  isolate (String c t) =
  (String q (String q (fst (isolate r))), str :: snd (isolate r)).
Proof.
  intros E. unfold isolate at 1. cbn [String.length scan_quotes].
  rewrite E. pose proof (match_quote_spec _ _ _ _ E) as (_ & _ & Hl & _).
  rewrite (scan_quotes_fuel _ (String.length r) r) by (simpl in Hl; lia).
  fold (isolate r). destruct (isolate r). reflexivity.
Qed.

Lemma isolate_copy c t :
  match_quote (String c t) = None ->
  isolate (String c t) =
  (String c (fst (isolate t)), snd (isolate t)).
Proof.
  intros E. unfold isolate at 1. cbn [String.length scan_quotes].
  rewrite E. fold (isolate t). destruct (isolate t). reflexivity.
Qed.

(** Text without delimiters is copied. *)
Lemma isolate_plain pre s :
  all_chars (fun c => negb (is_quote c)) pre = true ->
  isolate (pre +:+ s) =
  (pre +:+ fst (isolate s), snd (isolate s)).
Proof.
  induction pre as [|c pre IH]; intros Hp.
  - simpl. destruct (isolate s). reflexivity.
  - simpl in Hp. apply andb_true_iff in Hp as [Hc Hp].
    simpl String.append. rewrite isolate_copy.
    + rewrite (IH Hp). reflexivity.
    + unfold match_quote. apply negb_true_iff in Hc. rewrite Hc. reflexivity.
Qed.

(** The body of [match_quote] runs to the first bare closing quote. *)
Lemma quote_body_span q mid post :
  all_chars (fun c => negb (Ascii.eqb c q) && negb (Ascii.eqb c soh)) mid = true ->
  ends_with backslash mid = false ->
  quote_body q (mid +:+ String q post) = Some (mid +:+ str1 q, post).
Proof.
  induction mid as [|c mid IH]; intros Hall Hend.
  - simpl. rewrite Ascii.eqb_refl. reflexivity.
  - simpl in Hall. apply andb_true_iff in Hall as [Hc Hall].
    apply andb_true_iff in Hc as [Hcq Hcs].
    apply negb_true_iff in Hcq, Hcs.
    assert (Hend' : ends_with backslash mid = false).
    { destruct mid; [reflexivity|exact Hend]. }
    specialize (IH Hall Hend').
    simpl String.append. cbn [quote_body]. rewrite Hcq, Hcs, IH.
    destruct mid as [|d mid'].
    + simpl in Hend. simpl String.append. rewrite Hend. reflexivity.
    + simpl String.append. simpl in Hall. apply andb_true_iff in Hall as [Hd _].
      apply andb_true_iff in Hd as [Hdq _]. apply negb_true_iff in Hdq.
      rewrite Hdq, andb_false_r. reflexivity.
Qed.

(** The lazy star of [quoteRegex], followed by the closing quote, finds
    what [quote_body] finds. *)
Lemma run_quote_rounds q k :
  (forall rest,
      k rest (Some (str1 q)) =
      match rest with
      | String c t => if Ascii.eqb c q then Some (t, Some (str1 q)) else None
      | EmptyString => None
      end) ->
  forall fuel s,
    (String.length s < fuel)%nat ->
    run fuel (Star false quote_round) s (Some (str1 q)) k =
    match quote_body q s with
    | Some (m, r) => Some (r, Some (str1 q))
    | None => None
    end.
Proof.
  intros Hk. induction fuel as [|fuel IH]; intros s Hlen; [lia|].
  rewrite run_star. cbv zeta. cbv iota. rewrite Hk.
  unfold quote_round. rewrite run_alt, run_seq, run_char, run_class.
  destruct s as [|c t]; [reflexivity|].
  cbn [quote_body]. destruct (Ascii.eqb c q) eqn:Ecq; [reflexivity|].
  assert (Hany :
    (if negb (Ascii.eqb c soh)
     then if Nat.ltb (String.length t) (String.length (String c t))
          then run fuel (Star false (Alt (Seq (Char backslash) Backref)
                          (Class (fun c0 => negb (Ascii.eqb c0 soh)))))
                   t (Some (str1 q)) k
          else None
     else None) =
    match (if Ascii.eqb c soh then None
           else match quote_body q t with
                | Some (m, r) => Some (String c m, r)
                | None => None
                end) with
    | Some (m, r) => Some (r, Some (str1 q))
    | None => None
    end).
  { destruct (Ascii.eqb c soh); [reflexivity|]. cbn [negb].
    replace (Nat.ltb (String.length t) (String.length (String c t))) with true
      by (symmetry; apply Nat.ltb_lt; simpl; lia).
    fold quote_round. rewrite (IH t) by (simpl in Hlen; lia).
    destruct (quote_body q t) as [[m r]|]; reflexivity. }
  destruct (Ascii.eqb c backslash) eqn:Ecb.
  - rewrite run_backref. destruct t as [|d t'].
    + cbn [strip_prefix str1]. exact Hany.
    + cbn [strip_prefix str1]. rewrite andb_true_l.
      destruct (Ascii.eqb d q) eqn:Edq; [|exact Hany].
      replace (Nat.ltb (String.length t') (String.length (String c (String d t'))))
        with true by (symmetry; apply Nat.ltb_lt; simpl; lia).
      fold quote_round. rewrite (IH t') by (simpl in Hlen; lia).
      destruct (quote_body q t') as [[m r]|]; [reflexivity|exact Hany].
  - destruct t as [|d t']; exact Hany.
Qed.

(** [quoteRegex], run by the matcher, finds what [match_quote] finds. *)
Lemma exec_quoteRegex s :
  exec quoteRegex s =
  match match_quote s with
  | Some (str, q, r) => Some (r, Some (str1 q))
  | None => None
  end.
Proof.
  unfold exec, quoteRegex, match_quote.
  rewrite run_seq, run_group, run_class.
  destruct s as [|c t]; [reflexivity|].
  destruct (is_quote c); [|reflexivity].
  rewrite consumed_one, run_seq.
  rewrite (run_quote_rounds c).
  - destruct (quote_body c t) as [[m r]|]; reflexivity.
  - intros rest. rewrite run_backref. cbn [str1 strip_prefix].
    destruct rest as [|d t']; [reflexivity|]. destruct (Ascii.eqb d c); reflexivity.
  - simpl. lia.
Qed.

(** [emptyQuoteExpr] matches two equal quote characters. *)
Lemma exec_emptyQuoteExpr s :
  exec emptyQuoteExpr s =
  match s with
  | String c (String d t) =>
      if is_quote c && Ascii.eqb d c then Some (t, Some (str1 c)) else None
  | _ => None
  end.
Proof.
  unfold exec, emptyQuoteExpr. rewrite run_seq, run_group, run_class.
  destruct s as [|c t]; [reflexivity|].
  destruct (is_quote c); [|destruct t; reflexivity].
  rewrite consumed_one, run_backref. cbn [str1 strip_prefix].
  destruct t as [|d t']; [reflexivity|]. destruct (Ascii.eqb d c); reflexivity.
Qed.

Lemma isolate_nil : isolate EmptyString = (EmptyString, []).
Proof. reflexivity. Qed.

(** The replace of [pullOutStrings], run by the matcher, is the scan in
    closed form. *)
Lemma replace_from_quoteRegex fuel : forall s acc,
  (String.length s < fuel)%nat ->
  replace_from fuel quoteRegex push_string s acc =
  (fst (isolate s), acc ++ snd (isolate s)).
Proof.
  induction fuel as [|fuel IH]; intros s acc Hlen; [lia|].
  cbn [replace_from]. rewrite exec_quoteRegex.
  destruct s as [|c t].
  - cbn [match_quote]. rewrite isolate_nil, app_nil_r. reflexivity.
  - destruct (match_quote (String c t)) as [[[str q] r]|] eqn:E.
    + rewrite (isolate_match _ _ _ _ _ E).
      destruct (match_quote_spec _ _ _ _ E) as (_ & Hs & Hl & m & ->).
      rewrite Hs, consumed_append. cbn [captured push_string].
      rewrite IH by lia. cbn [fst snd str1 String.append].
      rewrite <- app_assoc. reflexivity.
    + rewrite (isolate_copy _ _ E). rewrite IH by (simpl in Hlen; lia).
      reflexivity.
Qed.

Lemma replace_quoteRegex_isolate s : replace_quoteRegex s = isolate s.
Proof.
  unfold replace_quoteRegex, replace.
  rewrite replace_from_quoteRegex by lia.
  destruct (isolate s). reflexivity.
Qed.

(** The replace of [putInStrings], run by the matcher, is the scan in
    closed form. *)
Lemma replace_from_emptyQuoteExpr fuel : forall s l,
  (String.length s < fuel)%nat ->
  replace_from fuel emptyQuoteExpr shift_string s l = restore s l.
Proof.
  induction fuel as [|fuel IH]; intros s l Hlen; [lia|].
  cbn [replace_from]. rewrite exec_emptyQuoteExpr.
  destruct s as [|c t]; [reflexivity|].
  destruct t as [|d t'].
  - rewrite IH by (simpl in Hlen |- *; lia). reflexivity.
  - cbn [restore]. destruct (is_quote c && Ascii.eqb d c).
    + rewrite consumed_two. unfold shift_string at 1.
      destruct (shift l) as [x l']. rewrite IH by (simpl in Hlen; lia).
      reflexivity.
    + rewrite IH by (simpl in Hlen |- *; lia). reflexivity.
Qed.

Lemma replace_emptyQuoteExpr_restore s l : replace_emptyQuoteExpr s l = restore s l.
Proof.
  unfold replace_emptyQuoteExpr, replace. apply replace_from_emptyQuoteExpr. lia.
Qed.

(** The table the restore step finds is the one the isolate step left. *)
Lemma pullOutStrings_init e :
  pullOutStrings (VStr e) init =
  (Ok (fst (isolate e)), Some (snd (isolate e))).
Proof.
  unfold pullOutStrings, init. cbn [as_string]. rewrite replace_quoteRegex_isolate.
  destruct (isolate e). reflexivity.
Qed.

(** C2: for every expression text [e], isolating the literals and then
    restoring them gives [e] back: [pullOutStrings] on the fresh module
    returns a stripped text and leaves a table pending, and
    [putInStrings] on that text and table returns [e] and clears the
    table. *)
Theorem putInStrings_pullOutStrings (e : string) :
  exists stripped pending,
    pullOutStrings (VStr e) init = (Ok stripped, Some pending) /\
    putInStrings stripped (Some pending) = (Ok e, init).
Proof.
  exists (fst (isolate e)), (snd (isolate e)).
  split; [apply pullOutStrings_init|].
  unfold putInStrings. rewrite replace_emptyQuoteExpr_restore.
  pose proof (roundtrip_fuel (String.length e) e [] (Nat.le_refl _)) as R.
  rewrite app_nil_r in R. unfold isolate. rewrite R. reflexivity.
Qed.

(** C6: [pullOutStrings] throws while a table is pending, whatever the
    table holds; [putInStrings] throws when none is pending; and after
    an isolate followed by a restore no table is pending, so that the
    next isolate succeeds. *)
Theorem isolate_restore_alternate :
  (forall expr pending, exists msg,
      pullOutStrings expr (Some pending) = (Throw (Error msg), Some pending)) /\
  (forall expr, exists msg,
      putInStrings expr None = (Throw (Error msg), None)) /\
  (forall e e' e2, exists stripped pending restored stripped2 pending2,
      pullOutStrings (VStr e) init = (Ok stripped, Some pending) /\
      putInStrings e' (Some pending) = (Ok restored, None) /\
      pullOutStrings (VStr e2) None = (Ok stripped2, Some pending2)).
Proof.
  split; [|split].
  - intros expr pending. eexists. reflexivity.
  - intros expr. eexists. reflexivity.
  - intros e e' e2.
    exists (fst (isolate e)), (snd (isolate e)).
    exists (fst (restore e' (snd (isolate e)))).
    exists (fst (isolate e2)), (snd (isolate e2)).
    split; [apply pullOutStrings_init|]. split; [|apply pullOutStrings_init].
    unfold putInStrings. rewrite replace_emptyQuoteExpr_restore.
    destruct (restore e' (snd (isolate e))). reflexivity.
Qed.

(** The two tests of the isolator in the test suite, on the text
    [foo[Q bar Q]] with double quotes for [Q]. *)
Example test_pullOutStrings :
  pullOutStrings (VStr ("foo[" +:+ str1 dquote +:+ "bar" +:+ str1 dquote +:+ "]")) init =
  (Ok ("foo[" +:+ str1 dquote +:+ str1 dquote +:+ "]"),
   Some [str1 dquote +:+ "bar" +:+ str1 dquote]).
Proof. reflexivity. Qed.

Example test_putInStrings :
  putInStrings ("return foo[" +:+ str1 dquote +:+ str1 dquote +:+ "]")
               (Some [str1 dquote +:+ "bar" +:+ str1 dquote]) =
  (Ok ("return foo[" +:+ str1 dquote +:+ "bar" +:+ str1 dquote +:+ "]"), None).
Proof. reflexivity. Qed.

(** Escaped delimiters, mixed delimiters, adjacent and empty literals. *)
Example roundtrip_mixed :
  let e := "'it\'s' + /a\/b/ + ''''" +:+ str1 dquote +:+ "x" +:+ str1 dquote in
  let literals :=
    ["'it\'s'"; "/a\/b/"; "''"; "''"; str1 dquote +:+ "x" +:+ str1 dquote] in
  pullOutStrings (VStr e) init =
    (Ok ("'' + // + ''''" +:+ str1 dquote +:+ str1 dquote), Some literals) /\
  putInStrings ("'' + // + ''''" +:+ str1 dquote +:+ str1 dquote) (Some literals) =
    (Ok e, None).
Proof. split; reflexivity. Qed.

(** A division: the span between the slashes is taken for a pattern
    literal. *)
Example division_is_isolated :
  pullOutStrings (VStr "a / b + c / d") init = (Ok "a // d", Some ["/ b + c /"]).
Proof. reflexivity. Qed.

(** Where the text before the first slash has no delimiter and the span
    between the two slashes is bare, the span is captured as one
    literal and replaced by two slashes. *)
Lemma slash_span_captured pre mid post :
  all_chars (fun c => negb (is_quote c)) pre = true ->
  bare_span mid = true ->
  pullOutStrings (VStr (pre +:+ "/" +:+ mid +:+ "/" +:+ post)) init =
  (Ok (pre +:+ "//" +:+ fst (replace_quoteRegex post)),
   Some (("/" +:+ mid +:+ "/") :: snd (replace_quoteRegex post))).
Proof.
  intros Hpre Hmid. unfold bare_span in Hmid.
  apply andb_true_iff in Hmid as [Hall Hend]. apply negb_true_iff in Hend.
  rewrite replace_quoteRegex_isolate.
  rewrite pullOutStrings_init, isolate_plain by assumption.
  assert (E : match_quote ("/" +:+ mid +:+ "/" +:+ post) =
              Some ("/" +:+ mid +:+ "/", slash, post)).
  { change ("/" +:+ mid +:+ "/" +:+ post) with (String slash (mid +:+ String slash post)).
    unfold match_quote. change (is_quote slash) with true. cbv iota.
    rewrite quote_body_span by assumption. reflexivity. }
  change ("/" +:+ mid +:+ "/" +:+ post) with (String slash (mid +:+ "/" +:+ post)) in E |- *.
  rewrite (isolate_match _ _ _ _ _ E). reflexivity.
Qed.

Lemma slash_span_captured_witness :
  pullOutStrings (VStr ("a " +:+ "/" +:+ " b + c " +:+ "/" +:+ " d")) init =
  (Ok ("a " +:+ "//" +:+ fst (replace_quoteRegex " d")),
   Some (("/" +:+ " b + c " +:+ "/") :: snd (replace_quoteRegex " d"))).
Proof. apply slash_span_captured; reflexivity. Defined.

(** C10: the text [a /?/ b], with the character U+0001 for [?], has
    two bare slashes outside quotes, yet nothing is captured and the
    text is returned as it is: the class [[^\1]] of [match_quote] stands
    for every character but U+0001, so no match can run over it. *)
Theorem slash_span_with_u0001_not_captured :
  pullOutStrings (VStr ("a /" +:+ str1 soh +:+ "/ b")) init =
  (Ok ("a /" +:+ str1 soh +:+ "/ b"), Some []).
Proof. reflexivity. Qed.

End StringsFacts.

(** ** The rewrite of [parseSetter] *)

Module SetterRewriteFacts.
Import Regex RegexFacts SetterRewrite.

#[local] Arguments String.append !s1 s2 : simpl nomatch.

Lemma pipe_not_space : is_space pipe = false.
Proof. reflexivity. Qed.

(** A match of [\s*\|] is white space followed by a pipe. *)
Lemma ws_pipe_some s : forall m r,
  ws_pipe s = Some (m, r) ->
  exists ws, Strings.all_chars is_space ws = true /\
             m = ws +:+ "|" /\ s = ws +:+ "|" +:+ r.
Proof.
  induction s as [|c t IH]; intros m r Hm; [discriminate|].
  simpl in Hm. destruct (Ascii.eqb c pipe) eqn:Ec.
  - apply Ascii.eqb_eq in Ec. subst c. inversion Hm; subst.
    exists EmptyString. repeat split.
  - destruct (is_space c) eqn:Es; [|discriminate].
    destruct (ws_pipe t) as [[m1 r1]|]; [|discriminate].
    inversion Hm; subst.
    destruct (IH _ _ eq_refl) as (ws & Hws & -> & ->).
    exists (String c ws). simpl. rewrite Es, Hws. repeat split.
Qed.

Lemma ws_pipe_spaces ws r :
  Strings.all_chars is_space ws = true ->
  ws_pipe (ws +:+ String pipe r) = Some (ws +:+ "|", r).
Proof.
  induction ws as [|c ws IH]; intros Hws; simpl.
  - reflexivity.
  - simpl in Hws. apply andb_true_iff in Hws as [Hc Hws].
    destruct (Ascii.eqb c pipe) eqn:Ec.
    + apply Ascii.eqb_eq in Ec. subst c. discriminate.
    + rewrite Hc, (IH Hws). reflexivity.
Qed.

Lemma before_first_pipe_spaces ws r :
  Strings.all_chars is_space ws = true ->
  before_first_pipe (ws +:+ String pipe r) = (ws, Some (String pipe r)).
Proof.
  induction ws as [|c ws IH]; intros Hws; simpl.
  - reflexivity.
  - simpl in Hws. apply andb_true_iff in Hws as [Hc Hws].
    destruct (Ascii.eqb c pipe) eqn:Ec.
    + apply Ascii.eqb_eq in Ec. subst c. discriminate.
    + rewrite (IH Hws). reflexivity.
Qed.

Lemma trailing_space_spaces ws :
  Strings.all_chars is_space ws = true -> trailing_space ws = (EmptyString, ws).
Proof.
  induction ws as [|c ws IH]; intros Hws; simpl; [reflexivity|].
  simpl in Hws. apply andb_true_iff in Hws as [Hc Hws].
  rewrite (IH Hws), Hc. reflexivity.
Qed.

Lemma trailing_space_no_core s ws :
  trailing_space s = (EmptyString, ws) ->
  s = ws /\ Strings.all_chars is_space s = true.
Proof.
  revert ws. induction s as [|c t IH]; intros ws Hs; simpl in Hs.
  - inversion Hs. split; reflexivity.
  - destruct (trailing_space t) as [core ws'] eqn:Et.
    destruct core as [|d core'].
    + destruct (is_space c) eqn:Ec; [|discriminate].
      inversion Hs; subst. destruct (IH _ eq_refl) as [-> Hall].
      simpl. rewrite Ec, Hall. split; reflexivity.
    + discriminate.
Qed.

Lemma before_first_pipe_some s pre rest :
  before_first_pipe s = (pre, Some rest) ->
  s = pre +:+ rest /\ exists r, rest = String pipe r.
Proof.
  revert pre. induction s as [|c t IH]; intros pre Hs; simpl in Hs; [discriminate|].
  destruct (Ascii.eqb c pipe) eqn:Ec.
  - apply Ascii.eqb_eq in Ec. subst c. inversion Hs; subst. split; eauto.
  - destruct (before_first_pipe t) as [pre' rest'] eqn:Et.
    inversion Hs; subst. destruct (IH _ eq_refl) as [-> Hr]. split; auto.
Qed.

(** The insertion at the leftmost match is the insertion the
    specification describes. *)
Lemma insert_at_match_spec ins s :
  insert_at_match ins s = insert_before_first_pipe ins s.
Proof.
  induction s as [|c t IH].
  - reflexivity.
  - cbn [insert_at_match].
    destruct (ws_pipe (String c t)) as [[m r]|] eqn:Em.
    + destruct (ws_pipe_some _ _ _ Em) as (ws & Hws & -> & Hs).
      unfold insert_before_first_pipe. rewrite Hs.
      change ("|" +:+ r) with (String pipe r).
      rewrite before_first_pipe_spaces, trailing_space_spaces by assumption.
      simpl. rewrite append_assoc. reflexivity.
    + rewrite IH. unfold insert_before_first_pipe.
      simpl in Em. cbn [before_first_pipe].
      destruct (Ascii.eqb c pipe) eqn:Ec; [discriminate|].
      destruct (before_first_pipe t) as [pre [rest|]] eqn:Eb; [|reflexivity].
      cbn [trailing_space].
      destruct (trailing_space pre) as [core ws] eqn:Et.
      destruct core as [|d core']; [|reflexivity].
      destruct (is_space c) eqn:Es; [|reflexivity].
      exfalso.
      apply trailing_space_no_core in Et as [-> Hall].
      apply before_first_pipe_some in Eb as [-> [r ->]].
      rewrite ws_pipe_spaces in Em by assumption. discriminate.
Qed.

(** The greedy star of white space, followed by the pipe, finds what
    [ws_pipe] finds. *)
Lemma run_spaces_pipe F K : forall fuel s cap,
  (String.length s < fuel)%nat ->
  run fuel (Star true (Class is_space)) s cap
      (fun rest cap' => run F (Char pipe) rest cap' K) =
  match ws_pipe s with
  | Some (m, r) => K r cap
  | None => None
  end.
Proof.
  induction fuel as [|fuel IH]; intros s cap Hlen; [lia|].
  rewrite run_star. cbv zeta. cbv iota. rewrite run_class, run_char.
  destruct s as [|c t]; [reflexivity|].
  cbn [ws_pipe].
  destruct (is_space c) eqn:Es.
  - assert (Ec : Ascii.eqb c pipe = false).
    { destruct (Ascii.eqb c pipe) eqn:E; [|reflexivity].
      apply Ascii.eqb_eq in E. subst c. discriminate. }
    rewrite Ec.
    replace (Nat.ltb (String.length t) (String.length (String c t))) with true
      by (symmetry; apply Nat.ltb_lt; simpl; lia).
    rewrite IH by (simpl in Hlen; lia).
    destruct (ws_pipe t) as [[m r]|]; [|reflexivity].
    destruct (K r cap); reflexivity.
  - destruct (Ascii.eqb c pipe); reflexivity.
Qed.

(** [pipe_or_end], run by the matcher: white space and a pipe, or the
    end of the text. *)
Lemma exec_pipe_or_end s :
  exec pipe_or_end s =
  match ws_pipe s with
  | Some (m, r) => Some (r, Some m)
  | None =>
      match s with
      | EmptyString => Some (EmptyString, Some EmptyString)
      | String _ _ => None
      end
  end.
Proof.
  unfold exec, pipe_or_end. rewrite run_group, run_alt, run_seq, run_end.
  rewrite run_spaces_pipe by lia.
  destruct (ws_pipe s) as [[m r]|] eqn:Em.
  - destruct (ws_pipe_some _ _ _ Em) as (ws & _ & -> & ->).
    rewrite <- append_assoc, consumed_append. reflexivity.
  - destruct s; [|reflexivity]. rewrite consumed_none. reflexivity.
Qed.

Lemma replace_pipe_or_end_closed ins s :
  replace_pipe_or_end ins s = insert_at_match ins s.
Proof.
  unfold replace_pipe_or_end. induction s as [|c t IH].
  - cbn [replace_first]. rewrite exec_pipe_or_end. cbn [ws_pipe captured insert_at_match].
    rewrite !append_nil_r. reflexivity.
  - cbn [replace_first insert_at_match]. rewrite exec_pipe_or_end.
    destruct (ws_pipe (String c t)) as [[m r]|].
    + cbn [captured]. apply append_assoc.
    + rewrite IH. reflexivity.
Qed.

(** The regular expression of the source does what the specification
    says: the two definitions agree on every text. *)
Lemma replace_pipe_or_end_spec ins s :
  replace_pipe_or_end ins s = insert_before_first_pipe ins s.
Proof. rewrite replace_pipe_or_end_closed. apply insert_at_match_spec. Qed.

Lemma setter_text_spec e :
  (if starts_with_bang e
   then replace_pipe_or_end " = !_value_" (slice1 e)
   else replace_pipe_or_end " = _value_" e) = setter_text e.
Proof.
  unfold setter_text. rewrite !replace_pipe_or_end_spec. reflexivity.
Qed.

Example setter_text_pipe :
  setter_text "user.name | upper" = "user.name = _value_ | upper".
Proof. reflexivity. Qed.

Example setter_text_bang : setter_text "!foo" = "foo = !_value_".
Proof. reflexivity. Qed.

End SetterRewriteFacts.

(** ** The function builder and its cache *)

Module ExpressionsFacts.
Import Expressions.

#[local] Arguments String.append !s1 s2 : simpl nomatch.

Section WithCollaborators.
Context `{Collaborators}.

Lemma Function_apply_snoc ps b :
  Function_apply (ps ++ [b]) =
  match function_syntax_error ps b with
  | None => Ok {| params := ps; body := b |}
  | Some msg => Throw (SyntaxError msg)
  end.
Proof. unfold Function_apply. rewrite removelast_last, last_last. reflexivity. Qed.

(** [compile] either returns a new function object, stored in the
    cache under the key, or throws and leaves everything but the
    literal table as it was. *)
Lemma compile_cases key original expr isSetter globals formatters extraArgs st :
  (exists text,
      compile key original expr isSetter globals formatters extraArgs st =
      (Ok (length (heap st)), compiled key globals formatters extraArgs text st)) \/
  (exists e t,
      compile key original expr isSetter globals formatters extraArgs st =
      (Throw e, set_strings t st)).
Proof.
  unfold compile, bind, strings_pullOutStrings.
  destruct (Strings.pullOutStrings expr (strings st)) as [[s1|e1] t1];
    [|right; eauto].
  unfold lift at 1. destruct (parseFormatters s1) as [s2|e2]; [|right; eauto].
  unfold get, lift. cbn [exports_globals set_strings].
  destruct (parseExpression s2 _) as [s3|e3]; [|right; eauto].
  unfold strings_putInStrings. cbn [strings set_strings].
  destruct (Strings.putInStrings _ t1) as [[s4|e4] t4] eqn:Eput.
  2:{ right. exists e4, t4. destruct st; reflexivity. }
  assert (t4 = None) as ->.
  { unfold Strings.putInStrings in Eput. destruct t1; [|discriminate].
    destruct (Strings.replace_emptyQuoteExpr _ _). inversion Eput. reflexivity. }
  unfold compileExpression.
  change (["_globals_"; "_formatters_"] ++ extraArgs)
    with ("_globals_" :: "_formatters_" :: extraArgs).
  rewrite Function_apply_snoc.
  destruct (function_syntax_error _ s4) as [msg|].
  { right. exists (Error (bad_expression original s4 (message (SyntaxError msg)))), None.
    destruct st; reflexivity. }
  left. exists s4.
  unfold bindArguments, set_expr, cache_store, modify, ret, compiled.
  cbn [heap set_heap set_strings cache set_cache strings valueProperty arrays
       exports_globals].
  f_equal. f_equal.
  replace (length (heap st)) with (length (heap st) + 0) at 2 by lia.
  rewrite alter_app_r. reflexivity.
Qed.

(** A table is pending: [compile] throws before anything is built. *)
Lemma compile_throw_frame key original expr isSetter globals formatters extraArgs st e st' :
  compile key original expr isSetter globals formatters extraArgs st = (Throw e, st') ->
  cache st' = cache st /\ heap st' = heap st /\
  valueProperty st' = valueProperty st /\ arrays st' = arrays st /\
  exports_globals st' = exports_globals st.
Proof.
  intros E.
  destruct (compile_cases key original expr isSetter globals formatters extraArgs st)
    as [[text E']|(e' & t & E')]; rewrite E' in E; [discriminate|].
  inversion E; subst. repeat split.
Qed.

Lemma cache_wf_init : cache_wf init.
Proof.
  split.
  - intros key func Hk. cbn [init cache] in Hk. rewrite lookup_empty in Hk. discriminate.
  - intros key1 key2 func Hk. cbn [init cache] in Hk. rewrite lookup_empty in Hk.
    discriminate.
Qed.

(** A new entry goes with a new function object, so [compile] keeps
    the cache well formed. *)
Lemma cache_wf_invariant : store_invariant cache_wf.
Proof.
  split.
  { intros st st' Hc Hh [Hb Hi]. unfold cache_wf. rewrite Hc, Hh. split; assumption. }
  intros key original expr isSetter globals formatters extraArgs st [Hb Hi].
  destruct (compile_cases key original expr isSetter globals formatters extraArgs st)
    as [[text E]|(e & t & E)]; rewrite E; cbn [snd]; [|split; assumption].
  split.
  - intros k func Hk. cbn [compiled cache heap] in Hk |- *.
    rewrite length_app. cbn [length].
    destruct (decide (key = k)) as [->|Hne].
    + rewrite lookup_insert_eq in Hk. inversion Hk. lia.
    + rewrite lookup_insert_ne in Hk by assumption. apply Hb in Hk. lia.
  - intros k1 k2 func H1 H2. cbn [compiled cache] in H1, H2.
    destruct (decide (key = k1)) as [E1|Hne1], (decide (key = k2)) as [E2|Hne2].
    + congruence.
    + subst k1. rewrite lookup_insert_eq in H1.
      rewrite lookup_insert_ne in H2 by assumption.
      inversion H1; subst. apply Hb in H2. lia.
    + subst k2. rewrite lookup_insert_eq in H2.
      rewrite lookup_insert_ne in H1 by assumption.
      inversion H2; subst. apply Hb in H1. lia.
    + rewrite lookup_insert_ne in H1, H2 by assumption. eapply Hi; eassumption.
Qed.

Lemma heap_wf_init : heap_wf init.
Proof. intros func fn Hf. cbn [init heap] in Hf. rewrite lookup_nil in Hf. discriminate. Qed.

(** [compile] adds closures of [bindArguments] only. *)
Lemma heap_wf_invariant : store_invariant heap_wf.
Proof.
  split.
  { intros st st' Hc Hh Hwf. unfold heap_wf. rewrite Hh. exact Hwf. }
  intros key original expr isSetter globals formatters extraArgs st Hwf.
  destruct (compile_cases key original expr isSetter globals formatters extraArgs st)
    as [[text E]|(e & t & E)]; rewrite E; cbn [snd]; [|exact Hwf].
  intros func fn Hf. cbn [compiled heap] in Hf.
  apply lookup_app_Some in Hf as [Hf|[_ Hf]]; [eapply Hwf, Hf|].
  destruct (func - length (heap st)) as [|n]; [|destruct n; discriminate].
  inversion Hf; subst. eexists _, _, _. split; reflexivity.
Qed.

(** *** Revision A *)

Lemma parseA_not_string expr globals formatters extraArgs st :
  typeof expr <> "string" ->
  RevA.parse expr globals formatters extraArgs st =
  (Throw (TypeError "Invalid expr, must be type String"), st).
Proof.
  intros Ht. unfold RevA.parse.
  destruct (String.eqb (typeof expr) "string") eqn:E.
  - apply String.eqb_eq in E. contradiction.
  - reflexivity.
Qed.

Lemma parseA_hit e globals formatters extraArgs st func :
  cache st !! cacheKey e extraArgs = Some func ->
  RevA.parse (VStr e) globals formatters extraArgs st = (Ok func, st).
Proof.
  intros Hc. unfold RevA.parse, bind, get. cbn [typeof to_string String.eqb negb].
  simpl. rewrite Hc. reflexivity.
Qed.

Lemma parseA_miss e globals formatters extraArgs st :
  cache st !! cacheKey e extraArgs = None ->
  RevA.parse (VStr e) globals formatters extraArgs st =
  compile (cacheKey e extraArgs) e (VStr e) (is_setter extraArgs (valueProperty st))
          globals formatters extraArgs st.
Proof.
  intros Hc. unfold RevA.parse, bind, get. cbn [typeof to_string].
  simpl. rewrite Hc. reflexivity.
Qed.

Lemma parseSetterA_unfold expr globals formatters extraArgs st :
  RevA.parseSetter expr globals formatters extraArgs st =
  RevA.parse (VStr (SetterRewrite.setter_text expr)) globals formatters
             (valueProperty st :: extraArgs) st.
Proof.
  unfold RevA.parseSetter, bind, get.
  rewrite SetterRewriteFacts.setter_text_spec. reflexivity.
Qed.

Lemma keeps_refl st : keeps st st.
Proof. split; [reflexivity|]. intros k func Hk. exact Hk. Qed.

Lemma keeps_trans st1 st2 st3 : keeps st1 st2 -> keeps st2 st3 -> keeps st1 st3.
Proof.
  intros [V1 C1] [V2 C2]. split; [congruence|].
  intros k func Hk. apply C2, C1, Hk.
Qed.

Lemma compile_keeps key original expr isSetter globals formatters extraArgs st :
  cache st !! key = None ->
  keeps st (snd (compile key original expr isSetter globals formatters extraArgs st)).
Proof.
  intros Hmiss.
  destruct (compile_cases key original expr isSetter globals formatters extraArgs st)
    as [[text E]|(e & t & E)]; rewrite E; cbn [snd].
  - split; [reflexivity|]. intros k func Hk. cbn [compiled cache].
    rewrite lookup_insert_ne; [assumption|]. intros ->. congruence.
  - split; [reflexivity|]. intros k func Hk. exact Hk.
Qed.

Lemma parseA_keeps expr globals formatters extraArgs st :
  keeps st (snd (RevA.parse expr globals formatters extraArgs st)).
Proof.
  destruct (String.eqb (typeof expr) "string") eqn:Et.
  - destruct expr; try discriminate Et.
    destruct (cache st !! cacheKey s extraArgs) as [func|] eqn:Hc.
    + rewrite (parseA_hit _ _ _ _ _ _ Hc). apply keeps_refl.
    + rewrite (parseA_miss _ _ _ _ _ Hc). apply compile_keeps, Hc.
  - rewrite parseA_not_string; [apply keeps_refl|].
    intros E. rewrite E in Et. discriminate.
Qed.

Lemma stepA_keeps st c : keeps st (RevA.step st c).
Proof.
  destruct c; cbn [RevA.step].
  - apply parseA_keeps.
  - rewrite parseSetterA_unfold. apply parseA_keeps.
  - split; [reflexivity|]. intros k func Hk. exact Hk.
Qed.

Lemma runA_keeps calls : forall st, keeps st (RevA.run calls st).
Proof.
  induction calls as [|c calls IH]; intros st; cbn [RevA.run fold_left].
  - apply keeps_refl.
  - eapply keeps_trans; [apply stepA_keeps|apply IH].
Qed.

Lemma parseA_invariant P expr globals formatters extraArgs st :
  store_invariant P -> P st ->
  P (snd (RevA.parse expr globals formatters extraArgs st)).
Proof.
  intros [_ Hcompile] HP. destruct (String.eqb (typeof expr) "string") eqn:Et.
  - destruct expr; try discriminate Et.
    destruct (cache st !! cacheKey s extraArgs) as [func|] eqn:Hc.
    + rewrite (parseA_hit _ _ _ _ _ _ Hc). exact HP.
    + rewrite (parseA_miss _ _ _ _ _ Hc). apply Hcompile, HP.
  - rewrite parseA_not_string; [exact HP|].
    intros E. rewrite E in Et. discriminate.
Qed.

Lemma stepA_invariant P st c : store_invariant P -> P st -> P (RevA.step st c).
Proof.
  intros HI HP. destruct c; cbn [RevA.step].
  - apply parseA_invariant; assumption.
  - rewrite parseSetterA_unfold. apply parseA_invariant; assumption.
  - eapply (proj1 HI); [| |exact HP]; reflexivity.
Qed.

Lemma runA_invariant P calls :
  store_invariant P -> forall st, P st -> P (RevA.run calls st).
Proof.
  intros HI. induction calls as [|c calls IH]; intros st HP; cbn [RevA.run fold_left].
  - exact HP.
  - apply IH, stepA_invariant; assumption.
Qed.

(** A callable [parse] returned is in the cache under its key. *)
Lemma parseA_cached e globals formatters extraArgs st func st' :
  RevA.parse (VStr e) globals formatters extraArgs st = (Ok func, st') ->
  cache st' !! cacheKey e extraArgs = Some func.
Proof.
  intros E. destruct (cache st !! cacheKey e extraArgs) as [func0|] eqn:Hc.
  - rewrite (parseA_hit _ _ _ _ _ _ Hc) in E. inversion E; subst. assumption.
  - rewrite (parseA_miss _ _ _ _ _ Hc) in E.
    destruct (compile_cases (cacheKey e extraArgs) e (VStr e)
                (is_setter extraArgs (valueProperty st)) globals formatters extraArgs st)
      as [[text E']|(e' & t & E')]; rewrite E' in E; [|discriminate].
    inversion E; subst. cbn [compiled cache]. apply lookup_insert_eq.
Qed.

Lemma parseA_same_callable e globals formatters extraArgs st func st' calls
    globals' formatters' :
  RevA.parse (VStr e) globals formatters extraArgs st = (Ok func, st') ->
  RevA.parse (VStr e) globals' formatters' extraArgs (RevA.run calls st') =
  (Ok func, RevA.run calls st').
Proof.
  intros E. apply parseA_hit.
  apply (runA_keeps calls st'). eapply parseA_cached, E.
Qed.

(** *** Revision B *)

(** The conversion of [expr] for the key returns the string of [expr]
    or throws. *)
Lemma plus_string_cases v :
  plus_string v = Ok (to_string v) \/ exists e, plus_string v = Throw e.
Proof.
  destruct v; try (left; reflexivity).
  cbn [plus_string]. destruct (has_prop props "toString"); [right; eauto|left; reflexivity].
Qed.

Lemma parseB_throws expr globals formatters extraArgs st e :
  plus_string expr = Throw e ->
  RevB.parse expr globals formatters extraArgs st = (Throw e, st).
Proof. intros Hp. unfold RevB.parse, bind, lift. rewrite Hp. reflexivity. Qed.

Lemma parseB_returns expr globals formatters extraArgs st func st' :
  RevB.parse expr globals formatters extraArgs st = (Ok func, st') ->
  plus_string expr = Ok (to_string expr).
Proof.
  intros E. destruct (plus_string_cases expr) as [Hp|[e Hp]]; [exact Hp|].
  rewrite (parseB_throws _ _ _ _ _ _ Hp) in E. discriminate.
Qed.

Lemma parseB_hit expr globals formatters extraArgs st func :
  plus_string expr = Ok (to_string expr) ->
  cache st !! cacheKey (to_string expr) (RevB.array_or_empty extraArgs) = Some func ->
  RevB.parse expr globals formatters extraArgs st = (Ok func, st).
Proof.
  intros Hp Hc. unfold RevB.parse, bind, get, lift. rewrite Hp.
  cbn beta iota zeta. rewrite Hc. reflexivity.
Qed.

(** On a miss revision B first looks at the leading [!], then
    compiles. *)
Lemma parseB_miss_eq expr globals formatters extraArgs st :
  plus_string expr = Ok (to_string expr) ->
  cache st !! cacheKey (to_string expr) (RevB.array_or_empty extraArgs) = None ->
  RevB.parse expr globals formatters extraArgs st =
  bind (if is_setter (RevB.array_or_empty extraArgs) (valueProperty st) then
          bind (lift (RevB.charAt0_is_bang expr)) (fun bang : bool =>
            if bang then
              bind (modify (set_valueProperty ("!" +:+ valueProperty st)))
                   (fun _ => ret (RevB.slice1 expr))
            else ret expr)
        else ret expr)
       (fun expr' =>
          compile (cacheKey (to_string expr) (RevB.array_or_empty extraArgs))
                  (to_string expr) expr'
                  (is_setter (RevB.array_or_empty extraArgs) (valueProperty st))
                  globals formatters (RevB.array_or_empty extraArgs)) st.
Proof.
  intros Hp Hc. unfold RevB.parse.
  unfold bind at 1. unfold lift at 1. rewrite Hp.
  unfold bind at 1. unfold get at 1. cbn beta iota. rewrite Hc.
  unfold bind at 1. unfold get at 1. reflexivity.
Qed.

(** The look at the leading [!] may change the placeholder name or
    throw, and touches nothing else. *)
Lemma parseB_miss expr globals formatters extraArgs st :
  plus_string expr = Ok (to_string expr) ->
  cache st !! cacheKey (to_string expr) (RevB.array_or_empty extraArgs) = None ->
  exists name,
    (exists expr',
        RevB.parse expr globals formatters extraArgs st =
        compile (cacheKey (to_string expr) (RevB.array_or_empty extraArgs)) (to_string expr) expr'
                (is_setter (RevB.array_or_empty extraArgs) (valueProperty st))
                globals formatters (RevB.array_or_empty extraArgs)
                (set_valueProperty name st)) \/
    (exists e, RevB.parse expr globals formatters extraArgs st =
               (Throw e, set_valueProperty name st)).
Proof.
  intros Hp Hc. rewrite (parseB_miss_eq _ _ _ _ _ Hp Hc).
  set (extra := RevB.array_or_empty extraArgs) in *.
  destruct (is_setter extra (valueProperty st)) eqn:Es.
  - unfold bind at 1. unfold bind at 1. unfold lift.
    destruct (RevB.charAt0_is_bang expr) as [[|]|e].
    + exists ("!" +:+ valueProperty st). left. exists (RevB.slice1 expr).
      reflexivity.
    + exists (valueProperty st). left. exists expr.
      unfold ret. destruct st; reflexivity.
    + exists (valueProperty st). right. exists e. destruct st; reflexivity.
  - exists (valueProperty st). left. exists expr.
    unfold bind, ret. destruct st; reflexivity.
Qed.

Lemma parseB_grows expr globals formatters extraArgs st :
  cache_grows st (snd (RevB.parse expr globals formatters extraArgs st)).
Proof.
  destruct (plus_string_cases expr) as [Hp|[e Hp]].
  2:{ rewrite (parseB_throws _ _ _ _ _ _ Hp). intros k f Hk. exact Hk. }
  destruct (cache st !! cacheKey (to_string expr) (RevB.array_or_empty extraArgs))
    as [func|] eqn:Hc.
  - rewrite (parseB_hit _ _ _ _ _ _ Hp Hc). intros k f Hk. exact Hk.
  - destruct (parseB_miss expr globals formatters extraArgs st Hp Hc)
      as [name [[expr' E]|[e E]]]; rewrite E.
    + intros k f Hk. eapply compile_keeps; [exact Hc|exact Hk].
    + intros k f Hk. exact Hk.
Qed.

Lemma parseSetterB_grows expr globals formatters extraArgs st :
  cache_grows st (snd (RevB.parseSetter expr globals formatters extraArgs st)).
Proof.
  unfold RevB.parseSetter, bind, get, modify, ret.
  destruct extraArgs as [a|]; cbn beta iota;
    match goal with
    | |- cache_grows _ (snd (RevB.parse ?e ?g ?f ?x ?s)) =>
        intros k fn Hk; apply (parseB_grows e g f x s); exact Hk
    end.
Qed.

Lemma stepB_grows st c : cache_grows st (RevB.step st c).
Proof.
  destruct c; cbn [RevB.step].
  - apply parseB_grows.
  - apply parseSetterB_grows.
  - intros k f Hk. exact Hk.
Qed.

Lemma runB_grows calls : forall st, cache_grows st (RevB.run calls st).
Proof.
  induction calls as [|c calls IH]; intros st; cbn [RevB.run fold_left].
  - intros k f Hk. exact Hk.
  - intros k f Hk. apply IH, stepB_grows, Hk.
Qed.

Lemma parseB_invariant P expr globals formatters extraArgs st :
  store_invariant P -> P st ->
  P (snd (RevB.parse expr globals formatters extraArgs st)).
Proof.
  intros [Hframe Hcompile] HP.
  destruct (plus_string_cases expr) as [Hp|[e Hp]].
  2:{ rewrite (parseB_throws _ _ _ _ _ _ Hp). exact HP. }
  destruct (cache st !! cacheKey (to_string expr) (RevB.array_or_empty extraArgs))
    as [func|] eqn:Hc.
  - rewrite (parseB_hit _ _ _ _ _ _ Hp Hc). exact HP.
  - destruct (parseB_miss expr globals formatters extraArgs st Hp Hc)
      as [name [[expr' E]|[e E]]]; rewrite E.
    + apply Hcompile. eapply Hframe; [| |exact HP]; reflexivity.
    + eapply Hframe; [| |exact HP]; reflexivity.
Qed.

Lemma parseSetterB_invariant P expr globals formatters extraArgs st :
  store_invariant P -> P st ->
  P (snd (RevB.parseSetter expr globals formatters extraArgs st)).
Proof.
  intros HI HP. unfold RevB.parseSetter, bind, get, modify, ret.
  destruct extraArgs as [a|]; cbn beta iota;
    match goal with
    | |- P (snd (RevB.parse ?e ?g ?f ?x ?s)) =>
        apply (parseB_invariant P e g f x s HI);
        eapply (proj1 HI); [| |exact HP]; reflexivity
    end.
Qed.

Lemma stepB_invariant P st c : store_invariant P -> P st -> P (RevB.step st c).
Proof.
  intros HI HP. destruct c; cbn [RevB.step].
  - apply parseB_invariant; assumption.
  - apply parseSetterB_invariant; assumption.
  - eapply (proj1 HI); [| |exact HP]; reflexivity.
Qed.

Lemma runB_invariant P calls :
  store_invariant P -> forall st, P st -> P (RevB.run calls st).
Proof.
  intros HI. induction calls as [|c calls IH]; intros st HP; cbn [RevB.run fold_left].
  - exact HP.
  - apply IH, stepB_invariant; assumption.
Qed.

Lemma parseB_cached expr globals formatters extraArgs st func st' :
  RevB.parse expr globals formatters extraArgs st = (Ok func, st') ->
  cache st' !! cacheKey (to_string expr) (RevB.array_or_empty extraArgs) = Some func.
Proof.
  intros E. pose proof (parseB_returns _ _ _ _ _ _ _ E) as Hp.
  destruct (cache st !! cacheKey (to_string expr) (RevB.array_or_empty extraArgs))
    as [func0|] eqn:Hc.
  - rewrite (parseB_hit _ _ _ _ _ _ Hp Hc) in E. inversion E; subst. assumption.
  - destruct (parseB_miss expr globals formatters extraArgs st Hp Hc)
      as [name [[expr' E']|[e E']]]; rewrite E' in E; [|discriminate].
    match type of E with
    | compile ?k ?o ?x ?i ?g ?f ?a ?s = _ =>
        destruct (compile_cases k o x i g f a s) as [[text E2]|(e2 & t & E2)]
    end; rewrite E2 in E; [|discriminate].
    inversion E; subst. cbn [compiled cache]. apply lookup_insert_eq.
Qed.

Lemma parseB_same_callable expr globals formatters extraArgs st func st' calls
    globals' formatters' :
  RevB.parse expr globals formatters extraArgs st = (Ok func, st') ->
  RevB.parse expr globals' formatters' extraArgs (RevB.run calls st') =
  (Ok func, RevB.run calls st').
Proof.
  intros E. apply parseB_hit; [eapply parseB_returns, E|].
  apply (runB_grows calls st'). eapply parseB_cached, E.
Qed.

End WithCollaborators.
End ExpressionsFacts.

(** ** The cache key *)

Module CacheKeyFacts.
Import Expressions.

#[local] Arguments String.append !s1 s2 : simpl nomatch.

Lemma all_chars_app p a b :
  Strings.all_chars p (a +:+ b) = Strings.all_chars p a && Strings.all_chars p b.
Proof.
  induction a as [|c a IH]; simpl; [reflexivity|].
  rewrite IH, andb_assoc. reflexivity.
Qed.

Lemma name_ok_spec a :
  name_ok a = true ->
  a <> EmptyString /\ Strings.all_chars no_pipe a = true /\
  Strings.all_chars no_comma a = true.
Proof.
  unfold name_ok. intros Hn. apply andb_true_iff in Hn as [Hne Hall].
  split; [intros ->; discriminate|].
  clear Hne. induction a as [|c a IH]; [split; reflexivity|].
  simpl in Hall. apply andb_true_iff in Hall as [Hc Hall].
  apply andb_true_iff in Hc as [Hcc Hcp].
  destruct (IH Hall) as [IH1 IH2].
  simpl. rewrite Hcc, Hcp, IH1, IH2. split; reflexivity.
Qed.

(** The joined names have no pipe. *)
Lemma join_no_pipe names :
  forallb name_ok names = true ->
  Strings.all_chars no_pipe (join "," names) = true.
Proof.
  induction names as [|a rest IH]; intros Hn; [reflexivity|].
  simpl in Hn. apply andb_true_iff in Hn as [Ha Hrest].
  destruct (name_ok_spec a Ha) as (_ & Hp & _).
  destruct rest as [|b rest']; [exact Hp|].
  change (join "," (a :: b :: rest')) with (a +:+ "," +:+ join "," (b :: rest')).
  rewrite !all_chars_app, Hp, (IH Hrest). reflexivity.
Qed.

(** The last pipe of a key is the one [parse] put there. *)
Lemma split_at_last_pipe e1 : forall e2 j1 j2,
  Strings.all_chars no_pipe j1 = true ->
  Strings.all_chars no_pipe j2 = true ->
  e1 +:+ "|" +:+ j1 = e2 +:+ "|" +:+ j2 ->
  e1 = e2 /\ j1 = j2.
Proof.
  induction e1 as [|c e1 IH]; intros e2 j1 j2 H1 H2 E.
  - destruct e2 as [|d e2]; simpl in E.
    + inversion E. split; reflexivity.
    + inversion E; subst. rewrite all_chars_app in H1.
      apply andb_true_iff in H1 as [_ H1]. discriminate.
  - destruct e2 as [|d e2]; simpl in E.
    + inversion E; subst. rewrite all_chars_app in H2.
      apply andb_true_iff in H2 as [_ H2]. discriminate.
    + inversion E; subst. destruct (IH _ _ _ H1 H2 H3) as [-> ->].
      split; reflexivity.
Qed.

(** A name is cut off the joined text at the first comma. *)
Lemma split_at_first_comma a : forall b t1 t2,
  Strings.all_chars no_comma a = true ->
  Strings.all_chars no_comma b = true ->
  (t1 = EmptyString \/ exists u, t1 = String ","%char u) ->
  (t2 = EmptyString \/ exists u, t2 = String ","%char u) ->
  a +:+ t1 = b +:+ t2 ->
  a = b /\ t1 = t2.
Proof.
  induction a as [|c a IH]; intros b t1 t2 Ha Hb Ht1 Ht2 E.
  - destruct b as [|d b]; simpl in E; [split; [reflexivity|exact E]|].
    exfalso. destruct Ht1 as [->|[u ->]]; [discriminate|].
    inversion E; subst. simpl in Hb. discriminate.
  - destruct b as [|d b]; simpl in E.
    + exfalso. destruct Ht2 as [->|[u ->]]; [discriminate|].
      inversion E; subst. simpl in Ha. discriminate.
    + inversion E; subst. simpl in Ha, Hb.
      apply andb_true_iff in Ha as [_ Ha]. apply andb_true_iff in Hb as [_ Hb].
      destruct (IH _ _ _ Ha Hb Ht1 Ht2 H1) as [-> ->]. split; reflexivity.
Qed.

Lemma join_cons a rest :
  join "," (a :: rest) =
  a +:+ match rest with [] => EmptyString | _ => "," +:+ join "," rest end.
Proof.
  destruct rest; simpl; [|reflexivity].
  induction a as [|c a IH]; simpl; [reflexivity|]. rewrite <- IH. reflexivity.
Qed.

Lemma join_tail_shape (rest : list string) :
  let t := match rest with [] => EmptyString | _ => "," +:+ join "," rest end in
  t = EmptyString \/ exists u, t = String ","%char u.
Proof. destruct rest; [left; reflexivity|right; eexists; reflexivity]. Qed.

(** Names that are not empty and have no comma can be read back from
    the joined text. *)
Lemma join_inj names1 : forall names2,
  forallb name_ok names1 = true ->
  forallb name_ok names2 = true ->
  join "," names1 = join "," names2 ->
  names1 = names2.
Proof.
  induction names1 as [|a rest1 IH]; intros names2 H1 H2 E.
  - destruct names2 as [|b rest2]; [reflexivity|].
    exfalso. simpl in H2. apply andb_true_iff in H2 as [Hb _].
    destruct (name_ok_spec b Hb) as (Hne & _).
    rewrite join_cons in E. destruct b; [contradiction|discriminate].
  - simpl in H1. apply andb_true_iff in H1 as [Ha Hr1].
    destruct (name_ok_spec a Ha) as (Hane & _ & Hac).
    destruct names2 as [|b rest2].
    + exfalso. rewrite join_cons in E. destruct a; [contradiction|discriminate].
    + simpl in H2. apply andb_true_iff in H2 as [Hb Hr2].
      destruct (name_ok_spec b Hb) as (_ & _ & Hbc).
      rewrite !join_cons in E.
      destruct (split_at_first_comma _ _ _ _ Hac Hbc
                  (join_tail_shape rest1) (join_tail_shape rest2) E) as [-> Et].
      f_equal. destruct rest1 as [|x r1], rest2 as [|y r2];
        try reflexivity; try discriminate.
      apply IH; [assumption|assumption|].
      apply (String.app_inj ","). exact Et.
Qed.

(** For names that are well formed, the key determines the expression
    text and the names. *)
Lemma cacheKey_inj e1 names1 e2 names2 :
  forallb name_ok names1 = true ->
  forallb name_ok names2 = true ->
  cacheKey e1 names1 = cacheKey e2 names2 ->
  e1 = e2 /\ names1 = names2.
Proof.
  intros H1 H2 E. unfold cacheKey in E.
  destruct (split_at_last_pipe _ _ _ _ (join_no_pipe _ H1) (join_no_pipe _ H2) E)
    as [-> Ej].
  split; [reflexivity|]. apply join_inj; assumption.
Qed.

End CacheKeyFacts.

(** ** [parse] and [parseSetter] *)

Module ParseFacts.
Import Expressions ExpressionsFacts.

#[local] Arguments String.append !s1 s2 : simpl nomatch.

(** The getter branch puts [return] in front of the last line. *)
Example add_return_last_line :
  add_return ("var _ref1;" +:+ str1 newline +:+ "(_ref1 = this.foo)") =
  "var _ref1;" +:+ str1 newline +:+ "return (_ref1 = this.foo)".
Proof. reflexivity. Qed.

(** X26: every state the freshly loaded module can reach is well
    formed. *)
Lemma reachable_wf (H : Collaborators) :
  (forall calls, cache_wf (RevA.run calls init) /\ heap_wf (RevA.run calls init)) /\
  (forall calls, cache_wf (RevB.run calls init) /\ heap_wf (RevB.run calls init)).
Proof.
  split; intros calls; split.
  - apply runA_invariant; [apply cache_wf_invariant|apply cache_wf_init].
  - apply runA_invariant; [apply heap_wf_invariant|apply heap_wf_init].
  - apply runB_invariant; [apply cache_wf_invariant|apply cache_wf_init].
  - apply runB_invariant; [apply heap_wf_invariant|apply heap_wf_init].
Qed.

(** C3, as stated, fails: the key is not injective.  One name with a
    comma in it and two names give the same key, so the second call
    below is answered from the entry of the first, although the
    extra-argument lists differ. *)
Lemma cache_key_collision :
  let H := StandIn.collaborators in
  ("e", ["x,y"]) <> ("e", ["x"; "y"]) /\
  cacheKey "e" ["x,y"] = cacheKey "e" ["x"; "y"] /\
  let first := RevA.parse (VStr "e") VUndefined VUndefined ["x,y"] init in
  let second := RevA.parse (VStr "e") VUndefined VUndefined ["x"; "y"] (snd first) in
  fst first = Ok 0 /\ fst second = Ok 0 /\
  params <$> (fo_func <$> heap (snd second) !! 0) =
    Some ["_globals_"; "_formatters_"; "x,y"].
Proof.
  intros H. split; [discriminate|]. split; [reflexivity|].
  vm_compute. repeat split.
Qed.

(** Two calls of revision A under different keys return different
    function objects. *)
Lemma parseA_distinct_callables (H : Collaborators) e1 names1 e2 names2
    globals1 formatters1 globals2 formatters2 st func1 st1 calls func2 st2 :
  cache_wf st ->
  cacheKey e1 names1 <> cacheKey e2 names2 ->
  RevA.parse (VStr e1) globals1 formatters1 names1 st = (Ok func1, st1) ->
  RevA.parse (VStr e2) globals2 formatters2 names2 (RevA.run calls st1) = (Ok func2, st2) ->
  func1 <> func2.
Proof.
  intros Hwf Hkeys E1 E2 Heq. subst func2. apply Hkeys.
  assert (Hwf2 : cache_wf st2).
  { replace st2 with (snd (RevA.parse (VStr e2) globals2 formatters2 names2
                             (RevA.run calls st1))) by (rewrite E2; reflexivity).
    apply parseA_invariant, runA_invariant; try apply cache_wf_invariant.
    replace st1 with (snd (RevA.parse (VStr e1) globals1 formatters1 names1 st))
      by (rewrite E1; reflexivity).
    apply parseA_invariant; [apply cache_wf_invariant|exact Hwf]. }
  apply (proj2 Hwf2 _ _ func1).
  - pose proof (parseA_keeps (VStr e2) globals2 formatters2 names2 (RevA.run calls st1))
      as [_ Hgrow].
    rewrite E2 in Hgrow. apply Hgrow.
    apply (runA_keeps calls st1). eapply parseA_cached, E1.
  - eapply parseA_cached, E2.
Qed.

(** The same for revision B. *)
Lemma parseB_distinct_callables (H : Collaborators) expr1 extra1 expr2 extra2
    globals1 formatters1 globals2 formatters2 st func1 st1 calls func2 st2 :
  cache_wf st ->
  cacheKey (to_string expr1) (RevB.array_or_empty extra1) <>
  cacheKey (to_string expr2) (RevB.array_or_empty extra2) ->
  RevB.parse expr1 globals1 formatters1 extra1 st = (Ok func1, st1) ->
  RevB.parse expr2 globals2 formatters2 extra2 (RevB.run calls st1) = (Ok func2, st2) ->
  func1 <> func2.
Proof.
  intros Hwf Hkeys E1 E2 Heq. subst func2. apply Hkeys.
  assert (Hwf2 : cache_wf st2).
  { replace st2 with (snd (RevB.parse expr2 globals2 formatters2 extra2
                             (RevB.run calls st1))) by (rewrite E2; reflexivity).
    apply parseB_invariant, runB_invariant; try apply cache_wf_invariant.
    replace st1 with (snd (RevB.parse expr1 globals1 formatters1 extra1 st))
      by (rewrite E1; reflexivity).
    apply parseB_invariant; [apply cache_wf_invariant|exact Hwf]. }
  apply (proj2 Hwf2 _ _ func1).
  - pose proof (parseB_grows expr2 globals2 formatters2 extra2 (RevB.run calls st1))
      as Hgrow.
    rewrite E2 in Hgrow. apply Hgrow.
    apply (runB_grows calls st1). eapply parseB_cached, E1.
  - eapply parseB_cached, E2.
Qed.

(** C3, amended: a call of [parse] that returned a callable is
    answered with the same callable whenever it is repeated with the
    same expression text and the same extra arguments, whatever calls
    come in between and whatever globals and formatters are passed, in
    both revisions; and for extra-argument names that are not empty and
    have neither a comma nor a pipe in them, two calls whose expression
    text or names differ use different keys, and so, on a well-formed
    cache, never return the same callable. *)
Theorem parse_cache_identity (H : Collaborators) :
  (forall e globals formatters extraArgs st func st' calls globals' formatters',
      RevA.parse (VStr e) globals formatters extraArgs st = (Ok func, st') ->
      RevA.parse (VStr e) globals' formatters' extraArgs (RevA.run calls st') =
      (Ok func, RevA.run calls st')) /\
  (forall expr globals formatters extraArgs st func st' calls globals' formatters',
      RevB.parse expr globals formatters extraArgs st = (Ok func, st') ->
      RevB.parse expr globals' formatters' extraArgs (RevB.run calls st') =
      (Ok func, RevB.run calls st')) /\
  (forall e1 names1 e2 names2,
      forallb name_ok names1 = true ->
      forallb name_ok names2 = true ->
      (e1, names1) <> (e2, names2) ->
      cacheKey e1 names1 <> cacheKey e2 names2) /\
  (forall e1 names1 e2 names2 globals1 formatters1 globals2 formatters2
          st func1 st1 calls func2 st2,
      cache_wf st ->
      forallb name_ok names1 = true ->
      forallb name_ok names2 = true ->
      (e1, names1) <> (e2, names2) ->
      RevA.parse (VStr e1) globals1 formatters1 names1 st = (Ok func1, st1) ->
      RevA.parse (VStr e2) globals2 formatters2 names2 (RevA.run calls st1) =
        (Ok func2, st2) ->
      func1 <> func2) /\
  (forall e1 names1 e2 names2 globals1 formatters1 globals2 formatters2
          st func1 st1 calls func2 st2,
      cache_wf st ->
      forallb name_ok names1 = true ->
      forallb name_ok names2 = true ->
      (e1, names1) <> (e2, names2) ->
      RevB.parse (VStr e1) globals1 formatters1 (Some names1) st = (Ok func1, st1) ->
      RevB.parse (VStr e2) globals2 formatters2 (Some names2) (RevB.run calls st1) =
        (Ok func2, st2) ->
      func1 <> func2).
Proof.
  assert (Hkeys : forall e1 names1 e2 names2,
      forallb name_ok names1 = true ->
      forallb name_ok names2 = true ->
      (e1, names1) <> (e2, names2) ->
      cacheKey e1 names1 <> cacheKey e2 names2).
  { intros e1 names1 e2 names2 H1 H2 Hne E.
    destruct (CacheKeyFacts.cacheKey_inj _ _ _ _ H1 H2 E) as [-> ->].
    contradiction. }
  split; [|split; [|split; [|split]]].
  - intros. eapply parseA_same_callable; eassumption.
  - intros. eapply parseB_same_callable; eassumption.
  - exact Hkeys.
  - intros e1 names1 e2 names2 g1 f1 g2 f2 st func1 st1 calls func2 st2
           Hwf H1 H2 Hne E1 E2.
    eapply (parseA_distinct_callables H e1 names1 e2 names2); eauto.
  - intros e1 names1 e2 names2 g1 f1 g2 f2 st func1 st1 calls func2 st2
           Hwf H1 H2 Hne E1 E2.
    eapply (parseB_distinct_callables H (VStr e1) (Some names1) (VStr e2) (Some names2));
      eauto.
Qed.

Lemma parse_cache_identity_witness :
  let H := StandIn.collaborators in
  let st1 := snd (RevA.parse (VStr "zxcf") VUndefined VUndefined [] init) in
  let calls := [RevA.ParseSetter "qwer" VUndefined VUndefined [];
                RevA.Parse (VStr "foo") VNull VNull ["a"]] in
  RevA.parse (VStr "zxcf") VNull VNull [] (RevA.run calls st1) =
    (Ok 0, RevA.run calls st1) /\
  (let st1 := snd (RevB.parse (VStr "zxcf") VUndefined VUndefined None init) in
   let calls := [RevB.ParseSetter "qwer" VUndefined VUndefined None] in
   RevB.parse (VStr "zxcf") VNull VNull None (RevB.run calls st1) =
     (Ok 0, RevB.run calls st1)) /\
  cacheKey "foo" ["a"; "b"] <> cacheKey "foo" ["a"] /\
  0 <> 1.
Proof.
  intros H. pose proof (parse_cache_identity StandIn.collaborators)
    as (HA & HB & HK & HDA & HDB).
  split; [|split; [|split]].
  - apply (HA "zxcf" VUndefined VUndefined [] init). reflexivity.
  - apply (HB (VStr "zxcf") VUndefined VUndefined None init). reflexivity.
  - apply HK; [reflexivity|reflexivity|discriminate].
  - apply (HDA "foo" ["a"; "b"] "foo" ["a"] VUndefined VUndefined VUndefined VUndefined
               init 0
               (snd (RevA.parse (VStr "foo") VUndefined VUndefined ["a"; "b"] init))
               []
               1
               (snd (RevA.parse (VStr "foo") VUndefined VUndefined ["a"]
                       (snd (RevA.parse (VStr "foo") VUndefined VUndefined ["a"; "b"]
                               init)))));
      [apply cache_wf_init|reflexivity|reflexivity|discriminate|reflexivity|reflexivity].
Defined.

(** The function object a successful [compile] allocates. *)
Lemma compile_callable (H : Collaborators) key original expr isSetter globals formatters
    extraArgs st func st' :
  compile key original expr isSetter globals formatters extraArgs st = (Ok func, st') ->
  exists fn,
    heap st' !! func = Some fn /\
    params (fo_func fn) = "_globals_" :: "_formatters_" :: extraArgs /\
    fo_expr fn = Some (body (fo_func fn)) /\
    fo_args fn = [globals; formatters].
Proof.
  intros E.
  destruct (compile_cases key original expr isSetter globals formatters extraArgs st)
    as [[text E']|(e & t & E')]; rewrite E' in E; [|discriminate].
  inversion E; subst. eexists. split.
  - cbn [compiled heap]. apply list_lookup_middle. reflexivity.
  - repeat split.
Qed.

(** A callable that comes from the cache of a well-formed module is a
    closure of [bindArguments]. *)
Lemma cached_callable st key func :
  cache_wf st -> heap_wf st ->
  cache st !! key = Some func ->
  exists fn globals0 formatters0 extraArgs0,
    heap st !! func = Some fn /\
    params (fo_func fn) = "_globals_" :: "_formatters_" :: extraArgs0 /\
    fo_args fn = [globals0; formatters0].
Proof.
  intros [Hb _] Hh Hk. apply Hb in Hk.
  destruct (lookup_lt_is_Some_2 (heap st) func Hk) as [fn Hfn].
  destruct (Hh func fn Hfn) as (g0 & f0 & extra0 & Ha & Hp).
  exists fn, g0, f0, extra0. repeat split; assumption.
Qed.

(** C5: in both revisions, on a well-formed module, the callable
    [parse] returns is a closure over the compiled function, whose
    parameters are [_globals_], [_formatters_] and extra-argument names,
    and over the globals and formatters captured when it was compiled:
    calling it with a binding context [this] and arguments [xs] runs
    the compiled function against that same [this], with the captured
    globals and formatters in front of [xs].  When the call compiles
    the expression, the captured values and the names are those of the
    call. *)
Theorem callable_passes_context_and_bound_arguments (H : Collaborators) :
  (forall e globals formatters extraArgs st func st',
      cache_wf st -> heap_wf st ->
      RevA.parse (VStr e) globals formatters extraArgs st = (Ok func, st') ->
      exists fn globals0 formatters0 extraArgs0,
        heap st' !! func = Some fn /\
        params (fo_func fn) = "_globals_" :: "_formatters_" :: extraArgs0 /\
        (forall (R : Type) (apply : rawfunc -> value -> list value -> R) this xs,
            binder apply fn this xs =
            apply (fo_func fn) this (globals0 :: formatters0 :: xs)) /\
        (cache st !! cacheKey e extraArgs = None ->
         globals0 = globals /\ formatters0 = formatters /\ extraArgs0 = extraArgs /\
         fo_expr fn = Some (body (fo_func fn)))) /\
  (forall expr globals formatters extraArgs st func st',
      cache_wf st -> heap_wf st ->
      RevB.parse expr globals formatters extraArgs st = (Ok func, st') ->
      exists fn globals0 formatters0 extraArgs0,
        heap st' !! func = Some fn /\
        params (fo_func fn) = "_globals_" :: "_formatters_" :: extraArgs0 /\
        (forall (R : Type) (apply : rawfunc -> value -> list value -> R) this xs,
            binder apply fn this xs =
            apply (fo_func fn) this (globals0 :: formatters0 :: xs)) /\
        (cache st !! cacheKey (to_string expr) (RevB.array_or_empty extraArgs) = None ->
         globals0 = globals /\ formatters0 = formatters /\
         extraArgs0 = RevB.array_or_empty extraArgs /\
         fo_expr fn = Some (body (fo_func fn)))).
Proof.
  split.
  - intros e globals formatters extraArgs st func st' Hcw Hhw E.
    destruct (cache st !! cacheKey e extraArgs) as [func0|] eqn:Hc.
    + rewrite (parseA_hit _ _ _ _ _ _ Hc) in E. inversion E; subst.
      destruct (cached_callable _ _ _ Hcw Hhw Hc) as (fn & g0 & f0 & x0 & Hfn & Hp & Ha).
      exists fn, g0, f0, x0. repeat split; try assumption; try discriminate.
      intros R apply this xs. unfold binder. rewrite Ha. reflexivity.
    + rewrite (parseA_miss _ _ _ _ _ Hc) in E.
      destruct (compile_callable _ _ _ _ _ _ _ _ _ _ _ E) as (fn & Hfn & Hp & He & Ha).
      exists fn, globals, formatters, extraArgs. repeat split; try assumption.
      intros R apply this xs. unfold binder. rewrite Ha. reflexivity.
  - intros expr globals formatters extraArgs st func st' Hcw Hhw E.
    pose proof (parseB_returns _ _ _ _ _ _ _ E) as Hplus.
    destruct (cache st !! cacheKey (to_string expr) (RevB.array_or_empty extraArgs))
      as [func0|] eqn:Hc.
    + rewrite (parseB_hit _ _ _ _ _ _ Hplus Hc) in E. inversion E; subst.
      destruct (cached_callable _ _ _ Hcw Hhw Hc) as (fn & g0 & f0 & x0 & Hfn & Hp & Ha).
      exists fn, g0, f0, x0. repeat split; try assumption; try discriminate.
      intros R apply this xs. unfold binder. rewrite Ha. reflexivity.
    + destruct (parseB_miss expr globals formatters extraArgs st Hplus Hc)
        as [name [[expr' E']|[e E']]]; rewrite E' in E; [|discriminate].
      destruct (compile_callable _ _ _ _ _ _ _ _ _ _ _ E) as (fn & Hfn & Hp & He & Ha).
      exists fn, globals, formatters, (RevB.array_or_empty extraArgs).
      repeat split; try assumption.
      intros R apply this xs. unfold binder. rewrite Ha. reflexivity.
Qed.

Lemma callable_passes_context_and_bound_arguments_witness :
  let H := StandIn.collaborators in
  let globals := VObj [("moment", VNum 1)] in
  let formatters := VObj [("upper", VNum 2)] in
  exists fn globals0 formatters0 extraArgs0,
    heap (snd (RevA.parse (VStr "add(number1, number2)") globals formatters
                          ["number1"; "number2"] init)) !! 0 = Some fn /\
    params (fo_func fn) = "_globals_" :: "_formatters_" :: extraArgs0 /\
    (forall (R : Type) (apply : rawfunc -> value -> list value -> R) this xs,
        binder apply fn this xs =
        apply (fo_func fn) this (globals0 :: formatters0 :: xs)) /\
    (cache init !! cacheKey "add(number1, number2)" ["number1"; "number2"] = None ->
     globals0 = globals /\ formatters0 = formatters /\
     extraArgs0 = ["number1"; "number2"] /\
     fo_expr fn = Some (body (fo_func fn))).
Proof.
  intros H globals formatters.
  apply (proj1 (callable_passes_context_and_bound_arguments StandIn.collaborators)
           "add(number1, number2)" globals formatters ["number1"; "number2"] init 0);
    [apply cache_wf_init|apply heap_wf_init|reflexivity].
Defined.

(** With no table pending, [compile] on a string goes as far as the
    function constructor with the text [generated] gives. *)
Lemma compile_generated (H : Collaborators) key original e isSetter globals formatters
    extraArgs st text :
  strings st = None ->
  generated (exports_globals st) e isSetter globals extraArgs = Ok text ->
  compile key original (VStr e) isSetter globals formatters extraArgs st =
  match function_syntax_error ("_globals_" :: "_formatters_" :: extraArgs) text with
  | None => (Ok (length (heap st)), compiled key globals formatters extraArgs text st)
  | Some msg => (Throw (Error (bad_expression original text msg)), st)
  end.
Proof.
  intros Hs Hg. unfold generated in Hg.
  unfold compile, bind, strings_pullOutStrings, Strings.pullOutStrings.
  rewrite Hs. cbn [Strings.as_string].
  destruct (Strings.replace_quoteRegex e) as [stripped pushed].
  unfold lift at 1. destruct (parseFormatters stripped) as [s2|]; [|discriminate].
  unfold get, lift. cbn [exports_globals set_strings].
  destruct (parseExpression s2 _) as [s3|]; [|discriminate].
  inversion Hg as [Ht]. clear Hg.
  unfold strings_putInStrings, Strings.putInStrings. cbn [strings set_strings].
  destruct (Strings.replace_emptyQuoteExpr _ pushed) as [out rest]. cbn [fst].
  unfold compileExpression.
  change (["_globals_"; "_formatters_"] ++ extraArgs)
    with ("_globals_" :: "_formatters_" :: extraArgs).
  rewrite Function_apply_snoc.
  destruct (function_syntax_error _ out) as [msg|].
  - cbn [message]. unfold throw. destruct st; cbn in Hs; subst; reflexivity.
  - unfold bindArguments, set_expr, cache_store, modify, ret, compiled.
    cbn [heap set_heap set_strings cache set_cache strings valueProperty arrays
         exports_globals].
    f_equal. f_equal.
    replace (length (heap st)) with (length (heap st) + 0) at 2 by lia.
    rewrite alter_app_r. reflexivity.
Qed.

(** C9: when the function constructor rejects the text [parse]
    generated, [parse] throws the error that carries the original text,
    the generated text and the message of the syntax error, and the
    module is left as it was: the cache has no entry under the key, and
    the same call made again runs into the constructor again. *)
Theorem failed_build_is_not_cached (H : Collaborators) e globals formatters extraArgs
    st text msg :
  strings st = None ->
  cache st !! cacheKey e extraArgs = None ->
  generated (exports_globals st) e (is_setter extraArgs (valueProperty st))
            globals extraArgs = Ok text ->
  function_syntax_error ("_globals_" :: "_formatters_" :: extraArgs) text = Some msg ->
  exists st',
    RevA.parse (VStr e) globals formatters extraArgs st =
      (Throw (Error (bad_expression e text msg)), st') /\
    cache st' = cache st /\
    cache st' !! cacheKey e extraArgs = None /\
    RevA.parse (VStr e) globals formatters extraArgs st' =
      (Throw (Error (bad_expression e text msg)), st').
Proof.
  intros Hs Hmiss Hg Hsyn.
  assert (E : RevA.parse (VStr e) globals formatters extraArgs st =
              (Throw (Error (bad_expression e text msg)), st)).
  { rewrite (parseA_miss _ _ _ _ _ Hmiss).
    rewrite (compile_generated _ _ _ _ _ _ _ _ _ _ Hs Hg), Hsyn. reflexivity. }
  exists st. repeat split; assumption.
Qed.

Lemma failed_build_is_not_cached_witness :
  let H := StandIn.collaborators in
  exists st',
    RevA.parse (VStr "foo") VUndefined VUndefined ["1x"] init =
      (Throw (Error (bad_expression "foo" "return foo" "Unexpected token")), st') /\
    cache st' = cache init /\
    cache st' !! cacheKey "foo" ["1x"] = None /\
    RevA.parse (VStr "foo") VUndefined VUndefined ["1x"] st' =
      (Throw (Error (bad_expression "foo" "return foo" "Unexpected token")), st').
Proof.
  intros H.
  apply (failed_build_is_not_cached StandIn.collaborators "foo" VUndefined VUndefined
           ["1x"] init "return foo" "Unexpected token"); reflexivity.
Defined.

(** X23: revision A tests the type of [expr] before anything else: a
    value that is not a string is refused with a [TypeError] and the
    module is left as it was. *)
Lemma parseA_refuses_non_strings (H : Collaborators) expr globals formatters extraArgs st :
  typeof expr <> "string" ->
  RevA.parse expr globals formatters extraArgs st =
  (Throw (TypeError "Invalid expr, must be type String"), st).
Proof. apply parseA_not_string. Qed.

Lemma parseA_refuses_non_strings_witness :
  let H := StandIn.collaborators in
  RevA.parse (VStrObj "foo") VUndefined VUndefined [] init =
  (Throw (TypeError "Invalid expr, must be type String"), init).
Proof.
  intros H. apply (parseA_refuses_non_strings StandIn.collaborators). discriminate.
Defined.

(** [compile] reads its text through [expr.replace], which a [String]
    object has as well. *)
Lemma compile_string_object (H : Collaborators) key original s isSetter globals
    formatters extraArgs st :
  compile key original (VStrObj s) isSetter globals formatters extraArgs st =
  compile key original (VStr s) isSetter globals formatters extraArgs st.
Proof. reflexivity. Qed.

Lemma parseB_string_object (H : Collaborators) s globals formatters extraArgs st :
  RevB.parse (VStrObj s) globals formatters extraArgs st =
  RevB.parse (VStr s) globals formatters extraArgs st.
Proof.
  destruct (cache st !! cacheKey s (RevB.array_or_empty extraArgs)) as [func|] eqn:Hc.
  - rewrite (parseB_hit (VStrObj s) _ _ _ _ _ eq_refl Hc),
      (parseB_hit (VStr s) _ _ _ _ _ eq_refl Hc).
    reflexivity.
  - rewrite (parseB_miss_eq (VStrObj s) _ _ _ _ eq_refl Hc),
      (parseB_miss_eq (VStr s) _ _ _ _ eq_refl Hc).
    cbn [to_string].
    destruct (is_setter _ _); [|reflexivity].
    unfold bind, lift, RevB.charAt0_is_bang, RevB.slice1. cbn [Strings.as_string].
    destruct (SetterRewrite.starts_with_bang s); reflexivity.
Qed.

(** C7 fails in revision B, which has no test of the type of [expr].
    A [String] object is compiled and cached like the string it wraps,
    and nothing is thrown; for [null] the [TypeError] comes from inside
    [pullOutStrings], after the literal table was made pending. *)
Theorem parseB_has_no_type_test (H : Collaborators) :
  typeof (VStrObj "foo") <> "string" /\
  (forall s globals formatters extraArgs st,
      RevB.parse (VStrObj s) globals formatters extraArgs st =
      RevB.parse (VStr s) globals formatters extraArgs st) /\
  fst (@RevB.parse StandIn.collaborators (VStrObj "foo") VUndefined VUndefined None init)
    = Ok 0 /\
  cache (snd (@RevB.parse StandIn.collaborators (VStrObj "foo") VUndefined VUndefined
                None init)) !! "foo|" = Some 0 /\
  (forall globals formatters,
      RevB.parse VNull globals formatters None init =
      (Throw (TypeError "Cannot read property 'replace' of null"),
       set_strings (Some []) init)).
Proof.
  split; [discriminate|]. split; [apply parseB_string_object|].
  split; [reflexivity|]. split; [reflexivity|]. reflexivity.
Qed.

(** X24: revision A never writes the placeholder name. *)
Lemma valueProperty_invariant_A (H : Collaborators) calls st :
  valueProperty (RevA.run calls st) = valueProperty st.
Proof. apply runA_keeps. Qed.

(** Revision B on a setter that starts with [!]: the [!] is cut off
    the text and put in front of the placeholder name of the module. *)
Lemma parseB_bang (H : Collaborators) expr globals formatters extraArgs st :
  cache st !! cacheKey (to_string expr) (RevB.array_or_empty extraArgs) = None ->
  is_setter (RevB.array_or_empty extraArgs) (valueProperty st) = true ->
  RevB.charAt0_is_bang expr = Ok true ->
  RevB.parse expr globals formatters extraArgs st =
  compile (cacheKey (to_string expr) (RevB.array_or_empty extraArgs)) (to_string expr)
          (RevB.slice1 expr) true globals formatters (RevB.array_or_empty extraArgs)
          (set_valueProperty ("!" +:+ valueProperty st) st).
Proof.
  intros Hc Hs Hb.
  assert (Hp : plus_string expr = Ok (to_string expr)).
  { unfold RevB.charAt0_is_bang in Hb. destruct expr; try discriminate Hb; reflexivity. }
  rewrite (parseB_miss_eq _ _ _ _ _ Hp Hc), Hs.
  unfold bind at 1. unfold bind at 1. unfold lift. rewrite Hb.
  reflexivity.
Qed.

Lemma compile_valueProperty (H : Collaborators) key original expr isSetter globals
    formatters extraArgs st :
  valueProperty (snd (compile key original expr isSetter globals formatters extraArgs st))
  = valueProperty st.
Proof.
  destruct (compile_cases key original expr isSetter globals formatters extraArgs st)
    as [[text E]|(e & t & E)]; rewrite E; reflexivity.
Qed.

(** What revision B does with the setter [!foo] on the fresh module. *)
Lemma parseSetterB_bang (H : Collaborators) globals formatters :
  RevB.parseSetter "!foo" globals formatters None init =
  compile "!foo = _value_|_value_" "!foo = _value_" (VStr "foo = _value_") true
          globals formatters ["_value_"]
          (set_valueProperty "!_value_" (set_arrays [["_value_"]] init)).
Proof.
  unfold RevB.parseSetter.
  unfold bind at 1. cbn beta iota.
  unfold bind at 1. unfold get at 1. cbn beta iota.
  unfold bind at 1. unfold modify at 1. cbn beta iota.
  unfold bind at 1. unfold get at 1. cbn beta iota.
  change (arrays (set_arrays _ _) !! 0) with (Some ["_value_"]).
  rewrite parseB_bang; reflexivity.
Qed.

(** C8 fails in revision B: the setter [!foo] leaves the placeholder
    name of the module at [!_value_], whatever the collaborators do, so
    the next setter, here [bar], registers [!_value_] as its first
    extra argument, which no function constructor takes for a parameter
    name: it does not compile. *)
Theorem parseSetterB_changes_valueProperty (H : Collaborators) :
  (forall globals formatters,
      valueProperty (snd (RevB.parseSetter "!foo" globals formatters None init))
      = "!_value_") /\
  let S := StandIn.collaborators in
  let st1 := snd (RevB.parseSetter "!foo" VUndefined VUndefined None init) in
  let second := RevB.parseSetter "bar" VUndefined VUndefined None st1 in
  fst second =
    Throw (Error (bad_expression "bar = _value_" "bar = _value_" "Unexpected token")) /\
  arrays (snd second) !! 1 = Some ["!_value_"].
Proof.
  split.
  - intros globals formatters. rewrite parseSetterB_bang, compile_valueProperty.
    reflexivity.
  - vm_compute. split; reflexivity.
Qed.

(** X25: revision A: a setter is the getter pipeline run on the
    rewritten text, with [_value_] in front of the extra arguments. *)
Lemma parseSetterA_is_parse_of_setter_text (H : Collaborators) e globals formatters
    extraArgs st :
  valueProperty st = "_value_" ->
  RevA.parseSetter e globals formatters extraArgs st =
  RevA.parse (VStr (SetterRewrite.setter_text e)) globals formatters
             ("_value_" :: extraArgs) st.
Proof. intros Hv. rewrite parseSetterA_unfold, Hv. reflexivity. Qed.

Lemma parseSetterA_is_parse_of_setter_text_witness :
  let H := StandIn.collaborators in
  RevA.parseSetter "!user.name | upper" VUndefined VUndefined ["x"] init =
  RevA.parse (VStr "user.name = !_value_ | upper") VUndefined VUndefined
             ["_value_"; "x"] init.
Proof.
  intros H.
  apply (parseSetterA_is_parse_of_setter_text StandIn.collaborators
           "!user.name | upper" VUndefined VUndefined ["x"] init).
  reflexivity.
Defined.

(** C4 fails in revision B on the shorthand [!e]: the text that goes
    through the pipeline is [foo = _value_], without the negation, the
    placeholder name of the module is changed and an array is left
    behind; revision A compiles [foo = !_value_]. *)
Theorem parseSetterB_drops_negation (H : Collaborators) :
  (forall globals formatters,
      RevB.parseSetter "!foo" globals formatters None init =
      compile "!foo = _value_|_value_" "!foo = _value_" (VStr "foo = _value_") true
              globals formatters ["_value_"]
              (set_valueProperty "!_value_" (set_arrays [["_value_"]] init))) /\
  let S := StandIn.collaborators in
  fo_expr <$> heap (snd (RevB.parseSetter "!foo" VUndefined VUndefined None init)) !! 0
    = Some (Some "foo = _value_") /\
  fo_expr <$> heap (snd (RevA.parseSetter "!foo" VUndefined VUndefined [] init)) !! 0
    = Some (Some "foo = !_value_").
Proof.
  split; [intros; apply parseSetterB_bang|].
  vm_compute. split; reflexivity.
Qed.

End ParseFacts.


(** ** More on the literal isolator *)

Module LiteralFacts.
Import Regex RegexFacts Strings StringsFacts.

#[local] Arguments String.append !s1 s2 : simpl nomatch.

Lemma is_quote_not_backslash q : is_quote q = true -> Ascii.eqb q backslash = false.
Proof.
  intros Hq. destruct (Ascii.eqb_spec q backslash) as [->|]; [discriminate|reflexivity].
Qed.

Lemma match_quote_span q body post :
  is_quote q = true ->
  bare_body q body = true ->
  match_quote (String q (body +:+ String q post)) =
  Some (String q (body +:+ str1 q), q, post).
Proof.
  unfold bare_body. intros Hq Hb.
  apply andb_true_iff in Hb as [Hall Hend]. apply negb_true_iff in Hend.
  unfold match_quote. rewrite Hq, quote_body_span by assumption. reflexivity.
Qed.

(** A backslash in front of the delimiter keeps the match going, as long
    as the literal is closed further on. *)
Lemma quote_body_escape q b1 rest m r :
  Ascii.eqb q backslash = false ->
  all_chars (fun c => negb (Ascii.eqb c q) && negb (Ascii.eqb c soh)) b1 = true ->
  quote_body q rest = Some (m, r) ->
  quote_body q (b1 +:+ String backslash (String q rest)) =
  Some (b1 +:+ String backslash (String q m), r).
Proof.
  intros Hqb Hall Hrest.
  assert (Hbq : Ascii.eqb backslash q = false) by (rewrite Ascii.eqb_sym; exact Hqb).
  induction b1 as [|c b1 IH].
  - change (EmptyString +:+ String backslash (String q rest))
      with (String backslash (String q rest)).
    cbn [quote_body]. rewrite Hbq, !Ascii.eqb_refl, Hrest. reflexivity.
  - simpl in Hall. apply andb_true_iff in Hall as [Hc Hall].
    apply andb_true_iff in Hc as [Hcq Hcs]. apply negb_true_iff in Hcq, Hcs.
    specialize (IH Hall).
    simpl String.append. cbn [quote_body]. rewrite Hcq, Hcs, IH.
    destruct b1 as [|d b1'].
    + change (EmptyString +:+ String backslash (String q rest))
        with (String backslash (String q rest)).
      cbv iota. rewrite Hbq, andb_false_r. reflexivity.
    + simpl String.append. simpl in Hall. apply andb_true_iff in Hall as [Hd _].
      apply andb_true_iff in Hd as [Hdq _]. apply negb_true_iff in Hdq.
      rewrite Hdq, andb_false_r. reflexivity.
Qed.

Lemma ends_with_cons c d m : ends_with c m = true -> ends_with c (String d m) = true.
Proof. destruct m; [discriminate|intros E; exact E]. Qed.

(** What the body of [quoteRegex] matches ends with the delimiter. *)
Lemma quote_body_ends q s :
  forall m r, quote_body q s = Some (m, r) -> ends_with q m = true.
Proof.
  induction s as [s IH] using string_len_ind.
  intros m r H. destruct s as [|c t]; [discriminate|].
  simpl in H.
  destruct (Ascii.eqb c q) eqn:Ecq.
  { inversion H; subst. simpl. exact Ecq. }
  assert (Hany : forall m r,
    (if Ascii.eqb c soh then None
     else match quote_body q t with
          | Some (m, r) => Some (String c m, r)
          | None => None
          end) = Some (m, r) -> ends_with q m = true).
  { intros m0 r0 H0. destruct (Ascii.eqb c soh); [discriminate|].
    destruct (quote_body q t) as [[m1 r1]|] eqn:E1; [|discriminate].
    inversion H0; subst. apply ends_with_cons.
    apply (IH t ltac:(simpl; lia) _ _ E1). }
  destruct t as [|d t']; [eapply Hany, H|].
  destruct (Ascii.eqb c backslash && Ascii.eqb d q); [|eapply Hany, H].
  destruct (quote_body q t') as [[m1 r1]|] eqn:E1; [|eapply Hany, H].
  inversion H; subst. apply ends_with_cons, ends_with_cons.
  apply (IH t' ltac:(simpl; lia) _ _ E1).
Qed.

Lemma match_quote_quoted s str q r :
  match_quote s = Some (str, q, r) -> quoted str = true.
Proof.
  unfold match_quote. destruct s as [|c t]; [discriminate|].
  destruct (is_quote c) eqn:Eq; [|discriminate].
  destruct (quote_body c t) as [[m r']|] eqn:Eb; [|discriminate].
  intros E. inversion E; subst. apply quote_body_ends in Eb.
  unfold quoted. destruct m as [|d m']; [discriminate|].
  rewrite Eq, Eb. reflexivity.
Qed.

Lemma isolate_quoted s : forallb quoted (snd (isolate s)) = true.
Proof.
  induction s as [s IH] using string_len_ind.
  destruct s as [|c t]; [reflexivity|].
  destruct (match_quote (String c t)) as [[[str q] r]|] eqn:E.
  - rewrite (isolate_match _ _ _ _ _ E). cbn [snd forallb].
    rewrite (match_quote_quoted _ _ _ _ E).
    apply match_quote_spec in E as (_ & _ & Hl & _).
    apply IH, Hl.
  - rewrite (isolate_copy _ _ E). cbn [snd]. apply IH. simpl. lia.
Qed.

Lemma quoted_length str : quoted str = true -> (2 <= String.length str)%nat.
Proof.
  unfold quoted. destruct str as [|q [|d t]]; try discriminate.
  intros _. simpl. lia.
Qed.

Lemma total_length_quoted l :
  forallb quoted l = true -> (2 * length l <= total_length l)%nat.
Proof.
  induction l as [|x l IH]; intros Hq; [simpl; lia|].
  cbn [forallb] in Hq. apply andb_true_iff in Hq as [Hx Hl].
  apply quoted_length in Hx. specialize (IH Hl).
  cbn [length total_length fold_right] in *. unfold total_length in IH. lia.
Qed.

(** Every character of the text is either copied or pushed. *)
Lemma isolate_lengths s :
  (String.length (fst (isolate s)) + total_length (snd (isolate s)) =
   String.length s + 2 * length (snd (isolate s)))%nat.
Proof.
  induction s as [s IH] using string_len_ind.
  destruct s as [|c t]; [reflexivity|].
  destruct (match_quote (String c t)) as [[[str q] r]|] eqn:E.
  - rewrite (isolate_match _ _ _ _ _ E).
    apply match_quote_spec in E as (_ & Hs & Hl & _).
    specialize (IH r Hl). rewrite Hs, length_append.
    cbn [fst snd length total_length fold_right String.length] in *.
    unfold total_length in IH. lia.
  - rewrite (isolate_copy _ _ E).
    specialize (IH t ltac:(simpl; lia)).
    cbn [fst snd String.length] in *. lia.
Qed.

Lemma restore_plain e l :
  all_chars (fun c => negb (is_quote c)) e = true -> restore e l = (e, l).
Proof.
  induction e as [|c e IH]; intros Hp; [reflexivity|].
  simpl in Hp. apply andb_true_iff in Hp as [Hc Hp]. apply negb_true_iff in Hc.
  rewrite restore_copy; [rewrite (IH Hp); reflexivity|].
  intros Hq. rewrite Hq in Hc. discriminate.
Qed.

Lemma restore_plain_prefix a s l :
  all_chars (fun c => negb (is_quote c)) a = true ->
  restore (a +:+ s) l = (a +:+ fst (restore s l), snd (restore s l)).
Proof.
  induction a as [|c a IH]; intros Hp.
  - simpl String.append. destruct (restore s l). reflexivity.
  - simpl in Hp. apply andb_true_iff in Hp as [Hc Hp]. apply negb_true_iff in Hc.
    simpl String.append. rewrite restore_copy; [rewrite (IH Hp); reflexivity|].
    intros Hq. rewrite Hq in Hc. discriminate.
Qed.

Lemma restore_first_pair a q rest l :
  all_chars (fun c => negb (is_quote c)) a = true ->
  is_quote q = true ->
  restore (a +:+ String q (String q rest)) l =
  (a +:+ fst (shift l) +:+ fst (restore rest (snd (shift l))),
   snd (restore rest (snd (shift l)))).
Proof.
  intros Ha Hq. induction a as [|c a IH].
  - simpl String.append. cbn [restore]. rewrite Hq, Ascii.eqb_refl. cbn [andb].
    destruct (shift l) as [x l']. cbn [fst snd]. destruct (restore rest l').
    reflexivity.
  - simpl in Ha. apply andb_true_iff in Ha as [Hc Ha]. apply negb_true_iff in Hc.
    simpl String.append. rewrite restore_copy.
    + rewrite (IH Ha). reflexivity.
    + intros Hcq. rewrite Hcq in Hc. discriminate.
Qed.

(** X1: a literal of any of the three delimiters, in front of which
    the text has no delimiter and whose body is bare (it may hold the
    other two delimiters), is captured whole and replaced by the
    delimiter twice; the scan goes on behind it. *)
Theorem literal_is_captured pre q body post :
  all_chars (fun c => negb (is_quote c)) pre = true ->
  is_quote q = true ->
  bare_body q body = true ->
  pullOutStrings (VStr (pre +:+ String q (body +:+ String q post))) init =
  (Ok (pre +:+ String q (String q (fst (replace_quoteRegex post)))),
   Some (String q (body +:+ str1 q) :: snd (replace_quoteRegex post))).
Proof.
  intros Hpre Hq Hb.
  rewrite replace_quoteRegex_isolate, pullOutStrings_init, isolate_plain by assumption.
  rewrite (isolate_match _ _ _ _ _ (match_quote_span q body post Hq Hb)).
  reflexivity.
Qed.

Lemma literal_is_captured_witness :
  pullOutStrings
    (VStr ("foo[" +:+ String dquote ("it's a/b" +:+ String dquote "] + 'x'"))) init =
  (Ok ("foo[" +:+ String dquote (String dquote (fst (replace_quoteRegex "] + 'x'")))),
   Some (String dquote ("it's a/b" +:+ str1 dquote) :: snd (replace_quoteRegex "] + 'x'"))).
Proof. apply literal_is_captured; reflexivity. Defined.

(** X2: a delimiter with a backslash in front of it does not close the
    literal when a bare closing delimiter follows: the escaped
    delimiter stays inside the captured string. *)
Theorem escaped_delimiter_stays_inside pre q b1 b2 post :
  all_chars (fun c => negb (is_quote c)) pre = true ->
  is_quote q = true ->
  all_chars (fun c => negb (Ascii.eqb c q) && negb (Ascii.eqb c soh)) b1 = true ->
  bare_body q b2 = true ->
  pullOutStrings
    (VStr (pre +:+ String q (b1 +:+ String backslash (String q (b2 +:+ String q post)))))
    init =
  (Ok (pre +:+ String q (String q (fst (replace_quoteRegex post)))),
   Some (String q (b1 +:+ String backslash (String q (b2 +:+ str1 q))) ::
         snd (replace_quoteRegex post))).
Proof.
  intros Hpre Hq Hb1 Hb2. unfold bare_body in Hb2.
  apply andb_true_iff in Hb2 as [Hall Hend]. apply negb_true_iff in Hend.
  rewrite replace_quoteRegex_isolate, pullOutStrings_init, isolate_plain by assumption.
  assert (E : match_quote (String q (b1 +:+ String backslash
                             (String q (b2 +:+ String q post)))) =
              Some (String q (b1 +:+ String backslash (String q (b2 +:+ str1 q))),
                    q, post)).
  { unfold match_quote. rewrite Hq.
    rewrite (quote_body_escape q b1 _ (b2 +:+ str1 q) post);
      [reflexivity|apply is_quote_not_backslash, Hq|assumption|].
    apply quote_body_span; assumption. }
  rewrite (isolate_match _ _ _ _ _ E). reflexivity.
Qed.

Lemma escaped_delimiter_stays_inside_witness :
  pullOutStrings
    (VStr ("a + " +:+ String squote ("it" +:+ String backslash
             (String squote ("s" +:+ String squote " + b"))))) init =
  (Ok ("a + " +:+ String squote (String squote (fst (replace_quoteRegex " + b")))),
   Some (String squote ("it" +:+ String backslash (String squote ("s" +:+ str1 squote))) ::
         snd (replace_quoteRegex " + b"))).
Proof. apply escaped_delimiter_stays_inside; reflexivity. Defined.

(** X3: every string [pullOutStrings] puts into the table has the
    shape of a literal: it starts with one of the three delimiters,
    ends with the same delimiter and has at least two characters. *)
Theorem pushed_strings_are_literals (e : string) :
  exists stripped pushed,
    pullOutStrings (VStr e) init = (Ok stripped, Some pushed) /\
    forallb quoted pushed = true.
Proof.
  exists (fst (isolate e)), (snd (isolate e)).
  split; [apply pullOutStrings_init|apply isolate_quoted].
Qed.

(** X4: [pullOutStrings] neither loses nor invents characters: the
    stripped text and the table together hold the characters of the
    text plus the two delimiters left in place of each literal; so the
    stripped text is never longer than the text. *)
Theorem pullOutStrings_conserves_length (e : string) :
  exists stripped pushed,
    pullOutStrings (VStr e) init = (Ok stripped, Some pushed) /\
    (String.length stripped + total_length pushed =
     String.length e + 2 * length pushed)%nat /\
    (String.length stripped <= String.length e)%nat.
Proof.
  exists (fst (isolate e)), (snd (isolate e)).
  split; [apply pullOutStrings_init|].
  pose proof (isolate_lengths e) as Hl.
  pose proof (total_length_quoted _ (isolate_quoted e)) as Hq.
  split; [exact Hl|lia].
Qed.

(** X5: a text with none of the three delimiters passes through both
    functions as it is: [pullOutStrings] returns it and leaves an empty
    table pending, and [putInStrings] returns it and clears the table,
    whatever strings the table still holds. *)
Theorem text_without_delimiters_passes e :
  all_chars (fun c => negb (is_quote c)) e = true ->
  pullOutStrings (VStr e) init = (Ok e, Some []) /\
  (forall pending, putInStrings e (Some pending) = (Ok e, None)).
Proof.
  intros Hp. split.
  - rewrite pullOutStrings_init.
    pose proof (isolate_plain e EmptyString Hp) as E.
    rewrite append_nil_r, isolate_nil in E. rewrite E. cbn [fst snd].
    rewrite append_nil_r. reflexivity.
  - intros pending. unfold putInStrings.
    rewrite replace_emptyQuoteExpr_restore, restore_plain by assumption.
    reflexivity.
Qed.

Lemma text_without_delimiters_passes_witness :
  pullOutStrings (VStr "user.name | upper") init = (Ok "user.name | upper", Some []) /\
  (forall pending,
      putInStrings "user.name | upper" (Some pending) = (Ok "user.name | upper", None)).
Proof. apply text_without_delimiters_passes. reflexivity. Defined.

(** X6: [putInStrings] fills the pairs of equal delimiters from the
    left with the strings of the table in their order: the first pair
    gets the first string, [undefined] when the table is empty, and the
    text behind the pair is filled from the rest of the table. *)
Theorem putInStrings_fills_pairs_in_order a q rest pending :
  all_chars (fun c => negb (is_quote c)) a = true ->
  is_quote q = true ->
  putInStrings (a +:+ String q (String q rest)) (Some pending) =
  (Ok (a +:+ fst (shift pending) +:+
       fst (replace_emptyQuoteExpr rest (snd (shift pending)))), None).
Proof.
  intros Ha Hq. unfold putInStrings.
  rewrite !replace_emptyQuoteExpr_restore, restore_first_pair by assumption.
  reflexivity.
Qed.

Lemma putInStrings_fills_pairs_in_order_witness :
  putInStrings ("f(" +:+ String squote (String squote ", //, x)")) (Some ["'a'"]) =
  (Ok ("f(" +:+ fst (shift ["'a'"]) +:+
       fst (replace_emptyQuoteExpr ", //, x)" (snd (shift ["'a'"])))), None).
Proof. apply putInStrings_fills_pairs_in_order; reflexivity. Defined.

(** X7: [pullOutStrings] sets the table before it calls [replace] on
    its argument: for a value without that method the [TypeError] of
    the call leaves an empty table pending, and the next
    [pullOutStrings] is refused, whatever it is given. *)
Theorem pullOutStrings_type_error_leaves_table v :
  as_string v = None ->
  pullOutStrings v init = (Throw (no_method v "replace"), Some []) /\
  (forall expr,
      pullOutStrings expr (snd (pullOutStrings v init)) =
      (Throw (Error "putInStrings must be called after pullOutStrings."), Some [])).
Proof.
  intros Hv.
  assert (E : pullOutStrings v init = (Throw (no_method v "replace"), Some [])).
  { unfold pullOutStrings, init. rewrite Hv. reflexivity. }
  rewrite E. split; reflexivity.
Qed.

Lemma pullOutStrings_type_error_leaves_table_witness :
  pullOutStrings VNull init = (Throw (no_method VNull "replace"), Some []) /\
  (forall expr,
      pullOutStrings expr (snd (pullOutStrings VNull init)) =
      (Throw (Error "putInStrings must be called after pullOutStrings."), Some [])).
Proof. apply pullOutStrings_type_error_leaves_table. reflexivity. Defined.

End LiteralFacts.

(** ** More on the setter rewrite *)

Module RewriteFacts.
Import Regex RegexFacts SetterRewrite SetterRewriteFacts.

#[local] Arguments String.append !s1 s2 : simpl nomatch.

Lemma ws_pipe_no_pipe s :
  Strings.all_chars Expressions.no_pipe s = true -> ws_pipe s = None.
Proof.
  induction s as [|c t IH]; intros Hs; [reflexivity|].
  simpl in Hs. apply andb_true_iff in Hs as [Hc Ht].
  unfold Expressions.no_pipe in Hc. apply negb_true_iff in Hc.
  cbn [ws_pipe]. rewrite Hc, (IH Ht). destruct (is_space c); reflexivity.
Qed.

(** No match starts inside a text that has no pipe and does not end in
    white space. *)
Lemma ws_pipe_core c core x :
  Strings.all_chars Expressions.no_pipe (String c core) = true ->
  ends_in_space (String c core) = false ->
  ws_pipe (String c core +:+ x) = None.
Proof.
  revert c. induction core as [|d core IH]; intros c Hp He.
  - simpl in Hp, He. rewrite andb_true_r in Hp.
    unfold Expressions.no_pipe in Hp. apply negb_true_iff in Hp.
    simpl String.append. cbn [ws_pipe]. rewrite Hp, He. reflexivity.
  - simpl in Hp. apply andb_true_iff in Hp as [Hc Hp].
    unfold Expressions.no_pipe in Hc. apply negb_true_iff in Hc.
    change (String c (String d core) +:+ x) with (String c (String d core +:+ x)).
    cbn [ws_pipe]. rewrite Hc, (IH d Hp He). destruct (is_space c); reflexivity.
Qed.

Lemma insert_at_match_some ins s m r :
  ws_pipe s = Some (m, r) -> insert_at_match ins s = ins +:+ m +:+ r.
Proof. intros E. destruct s; cbn [insert_at_match]; rewrite E; reflexivity. Qed.

Lemma insert_at_match_no_pipe ins e :
  Strings.all_chars Expressions.no_pipe e = true ->
  insert_at_match ins e = e +:+ ins.
Proof.
  induction e as [|c e IH]; intros Hp; [reflexivity|].
  cbn [insert_at_match]. rewrite (ws_pipe_no_pipe _ Hp).
  simpl in Hp. apply andb_true_iff in Hp as [_ Hp].
  rewrite (IH Hp). reflexivity.
Qed.

Lemma insert_at_match_segment ins core ws rest :
  Strings.all_chars Expressions.no_pipe core = true ->
  ends_in_space core = false ->
  Strings.all_chars is_space ws = true ->
  insert_at_match ins (core +:+ ws +:+ String pipe rest) =
  core +:+ ins +:+ ws +:+ String pipe rest.
Proof.
  intros Hp He Hws. induction core as [|c core IH].
  - change (EmptyString +:+ ws +:+ String pipe rest) with (ws +:+ String pipe rest).
    rewrite (insert_at_match_some ins _ _ _ (ws_pipe_spaces ws rest Hws)).
    rewrite (append_assoc ws "|" rest). reflexivity.
  - change (String c core +:+ ws +:+ String pipe rest)
      with (String c (core +:+ ws +:+ String pipe rest)).
    cbn [insert_at_match].
    change (String c (core +:+ ws +:+ String pipe rest))
      with (String c core +:+ ws +:+ String pipe rest).
    rewrite (ws_pipe_core c core _ Hp He).
    assert (He' : ends_in_space core = false).
    { destruct core; [reflexivity|exact He]. }
    simpl in Hp. apply andb_true_iff in Hp as [_ Hp].
    change (String c core +:+ ws +:+ String pipe rest)
      with (String c (core +:+ ws +:+ String pipe rest)).
    cbv iota. rewrite (IH Hp He'). reflexivity.
Qed.

(** X8: what the replace of [parseSetter] does to a text.  Without a
    pipe the assignment is put at the very end, behind any trailing
    white space; with a pipe it is put in front of the white space that
    precedes the first pipe, and nothing behind that pipe is touched. *)
Theorem assignment_goes_before_first_formatter ins :
  (forall e,
      Strings.all_chars Expressions.no_pipe e = true ->
      replace_pipe_or_end ins e = e +:+ ins) /\
  (forall core ws rest,
      Strings.all_chars Expressions.no_pipe core = true ->
      ends_in_space core = false ->
      Strings.all_chars is_space ws = true ->
      replace_pipe_or_end ins (core +:+ ws +:+ String pipe rest) =
      core +:+ ins +:+ ws +:+ String pipe rest).
Proof.
  split.
  - intros e Hp. rewrite replace_pipe_or_end_closed. apply insert_at_match_no_pipe, Hp.
  - intros core ws rest Hp He Hws. rewrite replace_pipe_or_end_closed.
    apply insert_at_match_segment; assumption.
Qed.

Lemma assignment_goes_before_first_formatter_witness :
  replace_pipe_or_end " = _value_" "user.name " = "user.name " +:+ " = _value_" /\
  replace_pipe_or_end " = _value_" ("user.name" +:+ "  " +:+ String pipe " upper | x") =
  "user.name" +:+ " = _value_" +:+ "  " +:+ String pipe " upper | x".
Proof.
  split.
  - apply (proj1 (assignment_goes_before_first_formatter " = _value_")). reflexivity.
  - apply (proj2 (assignment_goes_before_first_formatter " = _value_")); reflexivity.
Defined.

End RewriteFacts.

(** ** More on the builder *)

Module BuilderFacts.
Import Expressions ExpressionsFacts.

#[local] Arguments String.append !s1 s2 : simpl nomatch.

(** *** The line that gets the [return] *)

Lemma split_lines_nonempty s : exists x rest, split_lines s = x :: rest.
Proof.
  induction s as [|c t [x [rest IH]]]; [eexists _, _; reflexivity|].
  cbn [split_lines]. destruct (Ascii.eqb c newline); [eexists _, _; reflexivity|].
  rewrite IH. eexists _, _; reflexivity.
Qed.

Lemma split_lines_plain b :
  Strings.all_chars no_newline b = true -> split_lines b = [b].
Proof.
  induction b as [|c b IH]; intros Hb; [reflexivity|].
  simpl in Hb. apply andb_true_iff in Hb as [Hc Hb].
  unfold no_newline in Hc. apply negb_true_iff in Hc.
  cbn [split_lines]. rewrite Hc, (IH Hb). reflexivity.
Qed.

Lemma split_lines_app a b :
  Strings.all_chars no_newline b = true ->
  split_lines (a +:+ String newline b) = split_lines a ++ [b].
Proof.
  intros Hb. induction a as [|c a IH].
  - change (EmptyString +:+ String newline b) with (String newline b).
    cbn [split_lines]. rewrite Ascii.eqb_refl, (split_lines_plain b Hb). reflexivity.
  - change (String c a +:+ String newline b) with (String c (a +:+ String newline b)).
    cbn [split_lines]. rewrite IH.
    destruct (Ascii.eqb c newline); [reflexivity|].
    destruct (split_lines_nonempty a) as [x [rest ->]]. reflexivity.
Qed.

Lemma return_last_snoc lines b :
  return_last (lines ++ [b]) = lines ++ ["return " +:+ b].
Proof.
  induction lines as [|x lines IH]; [reflexivity|].
  change ((x :: lines) ++ [b]) with (x :: (lines ++ [b])).
  cbn [return_last]. rewrite IH. destruct lines; reflexivity.
Qed.

Lemma join_snoc sep x rest y :
  join sep ((x :: rest) ++ [y]) = join sep (x :: rest) +:+ sep +:+ y.
Proof.
  revert x. induction rest as [|z rest IH]; intros x; [reflexivity|].
  change ((x :: z :: rest) ++ [y]) with (x :: ((z :: rest) ++ [y])).
  change (join sep (x :: ((z :: rest) ++ [y])))
    with (x +:+ sep +:+ join sep ((z :: rest) ++ [y])).
  rewrite IH.
  change (join sep (x :: z :: rest)) with (x +:+ sep +:+ join sep (z :: rest)).
  rewrite !RegexFacts.append_assoc. reflexivity.
Qed.

(** Joining the lines of a text gives the text back. *)
Lemma join_split_lines s : join (str1 newline) (split_lines s) = s.
Proof.
  induction s as [|c t IH]; [reflexivity|].
  cbn [split_lines]. destruct (Ascii.eqb c newline) eqn:Ec.
  - apply Ascii.eqb_eq in Ec. subst c.
    destruct (split_lines_nonempty t) as [x [rest E]]. rewrite E in IH |- *.
    change (join (str1 newline) (EmptyString :: x :: rest))
      with (String newline (join (str1 newline) (x :: rest))).
    rewrite IH. reflexivity.
  - destruct (split_lines_nonempty t) as [x [rest E]]. rewrite E in IH |- *.
    destruct rest as [|y rest].
    + cbn [join] in IH |- *. rewrite IH. reflexivity.
    + change (join (str1 newline) (String c x :: y :: rest))
        with (String c (join (str1 newline) (x :: y :: rest))).
      rewrite IH. reflexivity.
Qed.

Lemma add_return_plain b :
  Strings.all_chars no_newline b = true -> add_return b = "return " +:+ b.
Proof. intros Hb. unfold add_return. rewrite (split_lines_plain b Hb). reflexivity. Qed.

(** X9: the getter branch of [parse] puts [return] in front of the
    last line and leaves the lines before it as they are; a text of one
    line gets it at its start. *)
Theorem return_goes_before_last_line b :
  Strings.all_chars no_newline b = true ->
  add_return b = "return " +:+ b /\
  (forall a, add_return (a +:+ String newline b) =
             a +:+ String newline ("return " +:+ b)).
Proof.
  intros Hb. split; [apply add_return_plain, Hb|].
  intros a. unfold add_return. rewrite (split_lines_app a b Hb), return_last_snoc.
  destruct (split_lines_nonempty a) as [x [rest E]].
  rewrite E, join_snoc, <- E, join_split_lines. reflexivity.
Qed.

Lemma return_goes_before_last_line_witness :
  add_return "(_ref1 = this.foo)" = "return " +:+ "(_ref1 = this.foo)" /\
  (forall a, add_return (a +:+ String newline "(_ref1 = this.foo)") =
             a +:+ String newline ("return " +:+ "(_ref1 = this.foo)")).
Proof. apply return_goes_before_last_line. reflexivity. Defined.

(** *** The variables handed to [parseExpression] *)

Lemma fold_entries_lookup props key : forall props' (m : gmap string value),
  fold_left (fun vars kv => <[fst kv := snd kv]> vars)
            (map (fun kv : string * value => (fst kv, lookup_prop props (fst kv))) props')
            m !! key =
  if has_prop props' key then Some (lookup_prop props key) else m !! key.
Proof.
  induction props' as [|[k v] props' IH]; intros m; [reflexivity|].
  cbn [map fold_left fst snd has_prop existsb]. rewrite IH. fold (has_prop props' key).
  destruct (String.eqb_spec k key) as [->|Hne].
  - rewrite lookup_insert_eq. destruct (has_prop props' key); reflexivity.
  - rewrite lookup_insert_ne by assumption. reflexivity.
Qed.

Lemma fold_names_lookup key : forall names (m : gmap string value),
  fold_left (fun vars name => <[name := VNull]> vars) names m !! key =
  if existsb (String.eqb key) names then Some VNull else m !! key.
Proof.
  induction names as [|a names IH]; intros m; [reflexivity|].
  cbn [fold_left existsb]. rewrite IH.
  destruct (String.eqb_spec key a) as [->|Hne].
  - rewrite lookup_insert_eq. destruct (existsb _ names); reflexivity.
  - rewrite lookup_insert_ne by congruence. reflexivity.
Qed.



(** *** While a literal table is pending *)

Lemma set_strings_same st : set_strings (strings st) st = st.
Proof. destruct st; reflexivity. Qed.

Lemma compile_pending (H : Collaborators) key original e isSetter globals formatters
    extraArgs st t :
  strings st = Some t ->
  compile key original (VStr e) isSetter globals formatters extraArgs st =
  (Throw (Error "putInStrings must be called after pullOutStrings."), st).
Proof.
  intros Hs. unfold compile, bind, strings_pullOutStrings, Strings.pullOutStrings.
  rewrite Hs, <- Hs, set_strings_same. reflexivity.
Qed.

Lemma charAt0_string e : RevB.charAt0_is_bang (VStr e) = Ok (SetterRewrite.starts_with_bang e).
Proof. reflexivity. Qed.

(** X11: while a literal table is pending, a call of [parse] on an
    expression that is not in the cache is refused with the error of
    [pullOutStrings], in both revisions, and nothing is built or cached;
    revision A leaves the whole module as it was. *)
Theorem parse_is_refused_while_table_pending (H : Collaborators) :
  (forall e globals formatters extraArgs st t,
      strings st = Some t ->
      cache st !! cacheKey e extraArgs = None ->
      RevA.parse (VStr e) globals formatters extraArgs st =
      (Throw (Error "putInStrings must be called after pullOutStrings."), st)) /\
  (forall e globals formatters extraArgs st t,
      strings st = Some t ->
      cache st !! cacheKey e (RevB.array_or_empty extraArgs) = None ->
      exists st',
        RevB.parse (VStr e) globals formatters extraArgs st =
        (Throw (Error "putInStrings must be called after pullOutStrings."), st') /\
        strings st' = Some t /\ cache st' = cache st /\ heap st' = heap st).
Proof.
  split.
  - intros e globals formatters extraArgs st t Hs Hc.
    rewrite (parseA_miss _ _ _ _ _ Hc). eapply compile_pending, Hs.
  - intros e globals formatters extraArgs st t Hs Hc.
    rewrite (parseB_miss_eq (VStr e) _ _ _ _ eq_refl Hc).
    destruct (is_setter (RevB.array_or_empty extraArgs) (valueProperty st)).
    + unfold bind at 1. unfold bind at 1. unfold lift. rewrite charAt0_string.
      destruct (SetterRewrite.starts_with_bang e).
      * unfold bind at 1. unfold modify, ret. cbn [to_string RevB.slice1 Strings.as_string].
        rewrite (compile_pending _ _ _ _ _ _ _ _ _ t) by exact Hs.
        eexists. split; [reflexivity|]. repeat split. exact Hs.
      * unfold ret. cbn [to_string].
        rewrite (compile_pending _ _ _ _ _ _ _ _ _ t) by exact Hs.
        eexists. split; [reflexivity|]. repeat split. exact Hs.
    + unfold bind at 1. unfold ret. cbn [to_string].
      rewrite (compile_pending _ _ _ _ _ _ _ _ _ t) by exact Hs.
      eexists. split; [reflexivity|]. repeat split. exact Hs.
Qed.

Lemma parse_is_refused_while_table_pending_witness :
  let H := StandIn.collaborators in
  RevA.parse (VStr "foo") VUndefined VUndefined [] (set_strings (Some ["'a'"]) init) =
  (Throw (Error "putInStrings must be called after pullOutStrings."),
   set_strings (Some ["'a'"]) init).
Proof.
  intros H.
  apply (proj1 (parse_is_refused_while_table_pending StandIn.collaborators)
           "foo" VUndefined VUndefined [] (set_strings (Some ["'a'"]) init) ["'a'"]);
    reflexivity.
Defined.

(** When a collaborator throws, [compile] rethrows and the table of
    the literals pulled out stays pending. *)
Lemma compile_collaborator_throws (H : Collaborators) key original e isSetter globals
    formatters extraArgs st err :
  strings st = None ->
  generated (exports_globals st) e isSetter globals extraArgs = Throw err ->
  compile key original (VStr e) isSetter globals formatters extraArgs st =
  (Throw err, set_strings (Some (snd (Strings.replace_quoteRegex e))) st).
Proof.
  intros Hs Hg. unfold generated in Hg.
  unfold compile, bind, strings_pullOutStrings, Strings.pullOutStrings.
  rewrite Hs. cbn [Strings.as_string].
  destruct (Strings.replace_quoteRegex e) as [stripped pushed]. cbn [snd].
  unfold lift at 1. destruct (parseFormatters stripped) as [s2|e2].
  - unfold get, lift. cbn [exports_globals set_strings].
    destruct (parseExpression s2 _) as [s3|e3]; [discriminate|].
    inversion Hg; subst. reflexivity.
  - inversion Hg; subst. reflexivity.
Qed.

(** X12: when [parseFormatters] or [parseExpression] throws, [parse]
    throws the same error and leaves the table of the literals it
    pulled out pending, nothing being cached; the same call made again
    no longer reaches the collaborators: it is refused with the error of
    [pullOutStrings]. *)
Theorem collaborator_error_leaves_table_pending (H : Collaborators) e globals formatters
    extraArgs st err :
  strings st = None ->
  cache st !! cacheKey e extraArgs = None ->
  generated (exports_globals st) e (is_setter extraArgs (valueProperty st))
            globals extraArgs = Throw err ->
  let st' := set_strings (Some (snd (Strings.replace_quoteRegex e))) st in
  RevA.parse (VStr e) globals formatters extraArgs st = (Throw err, st') /\
  RevA.parse (VStr e) globals formatters extraArgs st' =
  (Throw (Error "putInStrings must be called after pullOutStrings."), st').
Proof.
  intros Hs Hc Hg st'. split.
  - rewrite (parseA_miss _ _ _ _ _ Hc). apply compile_collaborator_throws; assumption.
  - rewrite (parseA_miss e globals formatters extraArgs st' Hc).
    eapply compile_pending. reflexivity.
Qed.

Lemma collaborator_error_leaves_table_pending_witness :
  let H := StandIn.refusing in
  let st' := set_strings (Some (snd (Strings.replace_quoteRegex "name | 'x'"))) init in
  RevA.parse (VStr "name | 'x'") VUndefined VUndefined [] init =
    (Throw (Error "Unknown formatter"), st') /\
  RevA.parse (VStr "name | 'x'") VUndefined VUndefined [] st' =
    (Throw (Error "putInStrings must be called after pullOutStrings."), st').
Proof.
  intros H.
  apply (collaborator_error_leaves_table_pending StandIn.refusing "name | 'x'"
           VUndefined VUndefined [] init (Error "Unknown formatter")); reflexivity.
Defined.

(** *** Function objects *)

Lemma heap_lookup_invariant (H : Collaborators) func fn :
  store_invariant (fun st => heap st !! func = Some fn).
Proof.
  split.
  - intros st st' _ Hh Hf. rewrite Hh. exact Hf.
  - intros key original expr isSetter globals formatters extraArgs st Hf.
    destruct (compile_cases key original expr isSetter globals formatters extraArgs st)
      as [[text E]|(e & t & E)]; rewrite E; cbn [snd]; [|exact Hf].
    cbn [compiled heap]. apply lookup_app_l_Some, Hf.
Qed.

(** X13: a function object is never changed after the call that made
    it: whatever calls follow, in either revision, the callable behind
    a reference keeps its function, its bound arguments and its [expr]
    property. *)
Theorem function_objects_are_never_altered (H : Collaborators) :
  (forall calls st func fn,
      heap st !! func = Some fn -> heap (RevA.run calls st) !! func = Some fn) /\
  (forall calls st func fn,
      heap st !! func = Some fn -> heap (RevB.run calls st) !! func = Some fn).
Proof.
  split; intros calls st func fn Hf.
  - apply (runA_invariant _ calls (heap_lookup_invariant H func fn) st Hf).
  - apply (runB_invariant _ calls (heap_lookup_invariant H func fn) st Hf).
Qed.

Lemma function_objects_are_never_altered_witness :
  let H := StandIn.collaborators in
  let st := snd (RevA.parse (VStr "foo") VUndefined VUndefined [] init) in
  let fn := {| fo_func := {| params := ["_globals_"; "_formatters_"];
                             body := "return foo" |};
               fo_args := [VUndefined; VUndefined];
               fo_expr := Some "return foo" |} in
  heap (RevA.run [RevA.ParseSetter "foo" VUndefined VUndefined [];
                  RevA.Parse (VStr "bar") VNull VNull ["x"]] st) !! 0 = Some fn.
Proof.
  intros H st fn.
  apply (proj1 (function_objects_are_never_altered StandIn.collaborators)).
  reflexivity.
Defined.

(** *** A successful build *)

(** X14: the other side of a failed build.  In revision A, with no
    table pending and the expression not in the cache, when the
    collaborators give a text and the function constructor takes it,
    [parse] returns a new function object: its function has the
    parameters [_globals_], [_formatters_] and the extra-argument names
    and the text for its body, it is bound to the globals and the
    formatters of the call, its [expr] property is the text, and it is
    in the cache under the key; no table is left pending and the
    placeholder name is the same. *)
Theorem parse_builds_and_caches (H : Collaborators) e globals formatters extraArgs
    st text :
  strings st = None ->
  cache st !! cacheKey e extraArgs = None ->
  generated (exports_globals st) e (is_setter extraArgs (valueProperty st))
            globals extraArgs = Ok text ->
  function_syntax_error ("_globals_" :: "_formatters_" :: extraArgs) text = None ->
  exists st',
    RevA.parse (VStr e) globals formatters extraArgs st = (Ok (length (heap st)), st') /\
    heap st' = heap st ++
      [{| fo_func := {| params := "_globals_" :: "_formatters_" :: extraArgs;
                        body := text |};
          fo_args := [globals; formatters];
          fo_expr := Some text |}] /\
    cache st' = <[cacheKey e extraArgs := length (heap st)]> (cache st) /\
    strings st' = None /\
    valueProperty st' = valueProperty st.
Proof.
  intros Hs Hc Hg Hsyn.
  rewrite (parseA_miss _ _ _ _ _ Hc).
  rewrite (ParseFacts.compile_generated _ _ _ _ _ _ _ _ _ _ Hs Hg), Hsyn.
  eexists. split; [reflexivity|]. repeat split.
Qed.

Lemma parse_builds_and_caches_witness :
  let H := StandIn.collaborators in
  exists st',
    RevA.parse (VStr "foo['bar']") (VObj [("x", VNum 1)]) VNull ["a"] init =
      (Ok (length (heap init)), st') /\
    heap st' = heap init ++
      [{| fo_func := {| params := "_globals_" :: "_formatters_" :: ["a"];
                        body := "return foo['bar']" |};
          fo_args := [VObj [("x", VNum 1)]; VNull];
          fo_expr := Some "return foo['bar']" |}] /\
    cache st' = <[cacheKey "foo['bar']" ["a"] := length (heap init)]> (cache init) /\
    strings st' = None /\
    valueProperty st' = valueProperty init.
Proof.
  intros H.
  apply (parse_builds_and_caches StandIn.collaborators "foo['bar']"
           (VObj [("x", VNum 1)]) VNull ["a"] init "return foo['bar']"); reflexivity.
Defined.

(** *** A failed call *)

Lemma parseB_throw_frame (H : Collaborators) expr globals formatters extraArgs st e st' :
  RevB.parse expr globals formatters extraArgs st = (Throw e, st') ->
  cache st' = cache st /\ heap st' = heap st /\ arrays st' = arrays st.
Proof.
  intros E.
  destruct (plus_string_cases expr) as [Hp|[e0 Hp]].
  2:{ rewrite (parseB_throws _ _ _ _ _ _ Hp) in E. inversion E; subst. repeat split. }
  destruct (cache st !! cacheKey (to_string expr) (RevB.array_or_empty extraArgs))
    as [func|] eqn:Hc.
  - rewrite (parseB_hit _ _ _ _ _ _ Hp Hc) in E. discriminate.
  - destruct (parseB_miss expr globals formatters extraArgs st Hp Hc)
      as [name [[expr' E']|[e' E']]]; rewrite E' in E.
    + apply compile_throw_frame in E as (Ec & Eh & _ & Ea & _).
      rewrite Ec, Eh, Ea. repeat split.
    + inversion E; subst. repeat split.
Qed.

(** X15: a call of [parse] that throws, for whatever reason (the type
    test, a pending table, a collaborator, the function constructor),
    builds and caches nothing: the cache and the function objects are
    those of before, in both revisions, and revision A leaves the
    placeholder name alone as well. *)
Theorem failed_parse_builds_nothing (H : Collaborators) :
  (forall expr globals formatters extraArgs st e st',
      RevA.parse expr globals formatters extraArgs st = (Throw e, st') ->
      cache st' = cache st /\ heap st' = heap st /\
      valueProperty st' = valueProperty st) /\
  (forall expr globals formatters extraArgs st e st',
      RevB.parse expr globals formatters extraArgs st = (Throw e, st') ->
      cache st' = cache st /\ heap st' = heap st).
Proof.
  split.
  - intros expr globals formatters extraArgs st e st' E.
    destruct (String.eqb (typeof expr) "string") eqn:Et.
    + destruct expr; try discriminate Et.
      destruct (cache st !! cacheKey s extraArgs) as [func|] eqn:Hc.
      * rewrite (parseA_hit _ _ _ _ _ _ Hc) in E. discriminate.
      * rewrite (parseA_miss _ _ _ _ _ Hc) in E.
        apply compile_throw_frame in E as (Ec & Eh & Ev & _). repeat split; assumption.
    + rewrite parseA_not_string in E by (intros E'; rewrite E' in Et; discriminate).
      inversion E; subst. repeat split.
  - intros expr globals formatters extraArgs st e st' E.
    apply parseB_throw_frame in E as (Ec & Eh & _). split; assumption.
Qed.

Lemma failed_parse_builds_nothing_witness :
  let H := StandIn.refusing in
  let st' := set_strings (Some ["'x'"]) init in
  cache st' = cache init /\ heap st' = heap init /\
  valueProperty st' = valueProperty init.
Proof.
  intros H st'.
  apply (proj1 (failed_parse_builds_nothing StandIn.refusing)
           (VStr "name | 'x'") VUndefined VUndefined [] init
           (Error "Unknown formatter") st').
  reflexivity.
Defined.

(** *** Getters and setters *)

Lemma setter_key_differs e e' names :
  forallb name_ok names = true ->
  cacheKey e names <> cacheKey e' ("_value_" :: names).
Proof.
  intros Hn E.
  assert (Hn' : forallb name_ok ("_value_" :: names) = true)
    by (cbn [forallb]; rewrite Hn; reflexivity).
  destruct (CacheKeyFacts.cacheKey_inj _ _ _ _ Hn Hn' E) as [_ El].
  apply (f_equal (@length string)) in El. cbn [length] in El. lia.
Qed.

(** X16: a getter and a setter never share a cache entry (the test
    [should not mix the getter cache with the setter cache]).  In
    revision A, for extra-argument names that are not empty and have
    neither a comma nor a pipe in them, [parse] and [parseSetter] called
    with the same names use different keys whatever the two expression
    texts are, and, on a well-formed cache with the placeholder name as
    loaded, return different callables. *)
Theorem getter_and_setter_never_share (H : Collaborators) :
  (forall e e' names,
      forallb name_ok names = true ->
      cacheKey e names <> cacheKey (SetterRewrite.setter_text e') ("_value_" :: names)) /\
  (forall e e' names globals formatters globals' formatters' st func st1 calls
          func' st2,
      cache_wf st ->
      valueProperty st = "_value_" ->
      forallb name_ok names = true ->
      RevA.parse (VStr e) globals formatters names st = (Ok func, st1) ->
      RevA.parseSetter e' globals' formatters' names (RevA.run calls st1) =
        (Ok func', st2) ->
      func <> func').
Proof.
  split.
  - intros e e' names Hn. apply setter_key_differs, Hn.
  - intros e e' names globals formatters globals' formatters' st func st1 calls
           func' st2 Hwf Hv Hn E1 E2.
    rewrite parseSetterA_unfold in E2.
    assert (Hv2 : valueProperty (RevA.run calls st1) = "_value_").
    { rewrite (proj1 (runA_keeps calls st1)).
      pose proof (parseA_keeps (VStr e) globals formatters names st) as [Hk _].
      rewrite E1 in Hk. cbn [snd] in Hk. rewrite Hk. exact Hv. }
    rewrite Hv2 in E2.
    eapply (ParseFacts.parseA_distinct_callables H e names
              (SetterRewrite.setter_text e') ("_value_" :: names));
      [exact Hwf|apply setter_key_differs, Hn|exact E1|exact E2].
Qed.

Lemma getter_and_setter_never_share_witness :
  let H := StandIn.collaborators in
  cacheKey "foo" [] <> cacheKey (SetterRewrite.setter_text "foo") ["_value_"] /\
  0 <> 1.
Proof.
  intros H.
  pose proof (getter_and_setter_never_share StandIn.collaborators) as [HK HD].
  split.
  - apply (HK "foo" "foo" []). reflexivity.
  - apply (HD "foo" "foo" [] VUndefined VUndefined VUndefined VUndefined init 0
              (snd (RevA.parse (VStr "foo") VUndefined VUndefined [] init)) [] 1
              (snd (RevA.parseSetter "foo" VUndefined VUndefined []
                      (snd (RevA.parse (VStr "foo") VUndefined VUndefined [] init)))));
      [apply cache_wf_init|reflexivity|reflexivity|reflexivity|reflexivity].
Defined.

(** X22: a setter is cached like a getter (the second test [should
    cache functions for the same expression]).  In revision A a call of
    [parseSetter] that returned a callable is answered with the same
    callable whenever it is repeated with the same expression and the
    same extra arguments, whatever calls come in between and whatever
    globals and formatters are passed, and the repeated call changes
    nothing. *)
Theorem parseSetterA_returns_cached_setter (H : Collaborators) e globals formatters names
    st func st' calls globals' formatters' :
  RevA.parseSetter e globals formatters names st = (Ok func, st') ->
  RevA.parseSetter e globals' formatters' names (RevA.run calls st') =
  (Ok func, RevA.run calls st').
Proof.
  intros E. rewrite parseSetterA_unfold in E |- *.
  assert (Hv : valueProperty (RevA.run calls st') = valueProperty st).
  { rewrite (proj1 (runA_keeps calls st')).
    pose proof (parseA_keeps (VStr (SetterRewrite.setter_text e)) globals formatters
                  (valueProperty st :: names) st) as [Hk _].
    rewrite E in Hk. exact Hk. }
  rewrite Hv. eapply parseA_same_callable, E.
Qed.

Lemma parseSetterA_returns_cached_setter_witness :
  let H := StandIn.collaborators in
  let st' := snd (RevA.parseSetter "qwer" VUndefined VUndefined [] init) in
  let calls := [RevA.Parse (VStr "qwer") VUndefined VUndefined [];
                RevA.ParseSetter "!foo | upper" VNull VNull ["x"]] in
  RevA.parseSetter "qwer" VNull VNull [] (RevA.run calls st') =
  (Ok 0, RevA.run calls st').
Proof.
  intros H st' calls.
  apply (parseSetterA_returns_cached_setter StandIn.collaborators "qwer" VUndefined
           VUndefined [] init 0 st' calls VNull VNull).
  reflexivity.
Defined.

(** *** The two revisions *)

(** X17: on a string the two revisions of [parse] do the same, result
    and module state, for the same extra-argument names, except where
    revision B cuts a leading [!] off a setter (the first name is the
    placeholder and the text starts with [!]). *)
Theorem revisions_agree_on_strings (H : Collaborators) e globals formatters extraArgs st :
  is_setter (RevB.array_or_empty extraArgs) (valueProperty st) &&
    SetterRewrite.starts_with_bang e = false ->
  RevB.parse (VStr e) globals formatters extraArgs st =
  RevA.parse (VStr e) globals formatters (RevB.array_or_empty extraArgs) st.
Proof.
  intros Hb.
  destruct (cache st !! cacheKey e (RevB.array_or_empty extraArgs)) as [func|] eqn:Hc.
  - rewrite (parseB_hit (VStr e) _ _ _ _ _ eq_refl Hc), (parseA_hit _ _ _ _ _ _ Hc).
    reflexivity.
  - rewrite (parseB_miss_eq (VStr e) _ _ _ _ eq_refl Hc), (parseA_miss _ _ _ _ _ Hc).
    destruct (is_setter (RevB.array_or_empty extraArgs) (valueProperty st)).
    + cbn [andb] in Hb. unfold bind at 1. unfold bind at 1. unfold lift.
      rewrite charAt0_string, Hb. reflexivity.
    + reflexivity.
Qed.

Lemma revisions_agree_on_strings_witness :
  let H := StandIn.collaborators in
  RevB.parse (VStr "foo = _value_") VUndefined VUndefined (Some ["_value_"]) init =
  RevA.parse (VStr "foo = _value_") VUndefined VUndefined
             (RevB.array_or_empty (Some ["_value_"])) init.
Proof.
  intros H.
  apply (revisions_agree_on_strings StandIn.collaborators "foo = _value_"
           VUndefined VUndefined (Some ["_value_"]) init).
  reflexivity.
Defined.

(** *** Revision B: the array of the caller and the placeholder name *)

Lemma parseB_arrays (H : Collaborators) expr globals formatters extraArgs st :
  arrays (snd (RevB.parse expr globals formatters extraArgs st)) = arrays st.
Proof.
  destruct (plus_string_cases expr) as [Hp|[e0 Hp]].
  2:{ rewrite (parseB_throws _ _ _ _ _ _ Hp). reflexivity. }
  destruct (cache st !! cacheKey (to_string expr) (RevB.array_or_empty extraArgs))
    as [func|] eqn:Hc.
  - rewrite (parseB_hit _ _ _ _ _ _ Hp Hc). reflexivity.
  - destruct (parseB_miss expr globals formatters extraArgs st Hp Hc)
      as [name [[expr' E]|[e E]]]; rewrite E; [|reflexivity].
    match goal with
    | |- arrays (snd (compile ?k ?o ?x ?i ?g ?f ?a ?s)) = _ =>
        destruct (compile_cases k o x i g f a s) as [[text E2]|(e2 & t & E2)]
    end; rewrite E2; reflexivity.
Qed.

Lemma parseSetterB_unfold (H : Collaborators) e globals formatters a st :
  RevB.parseSetter e globals formatters (Some a) st =
  let st1 := set_arrays (alter (fun names => valueProperty st :: names) a (arrays st)) st in
  RevB.parse (VStr (SetterRewrite.replace_pipe_or_end " = _value_" e)) globals formatters
             (arrays st1 !! a) st1.
Proof. reflexivity. Qed.

(** X18: revision B's [parseSetter] writes into the array the caller
    hands in: after the call, whether it returns or throws, the array
    has the placeholder name of the module in front of what it held,
    and [parse] was run with that longer list of names.  An array that
    is handed in again has the name in it twice. *)
Theorem parseSetterB_writes_callers_array (H : Collaborators) e globals formatters a
    names st :
  arrays st !! a = Some names ->
  let st1 := set_arrays (alter (fun names => valueProperty st :: names) a (arrays st)) st in
  RevB.parseSetter e globals formatters (Some a) st =
    RevB.parse (VStr (SetterRewrite.replace_pipe_or_end " = _value_" e)) globals formatters
               (Some (valueProperty st :: names)) st1 /\
  arrays (snd (RevB.parseSetter e globals formatters (Some a) st)) !! a =
    Some (valueProperty st :: names).
Proof.
  intros Ha st1.
  assert (E : arrays st1 !! a = Some (valueProperty st :: names)).
  { unfold st1. cbn [arrays set_arrays]. rewrite list_lookup_alter_eq, Ha. reflexivity. }
  rewrite parseSetterB_unfold. cbv zeta. fold st1. rewrite E.
  split; [reflexivity|]. rewrite parseB_arrays. exact E.
Qed.

Lemma parseSetterB_writes_callers_array_witness :
  let H := StandIn.collaborators in
  let st := set_arrays [["x"]] init in
  let st1 := set_arrays (alter (fun names => valueProperty st :: names) 0 (arrays st)) st in
  RevB.parseSetter "foo" VUndefined VUndefined (Some 0) st =
    RevB.parse (VStr (SetterRewrite.replace_pipe_or_end " = _value_" "foo"))
               VUndefined VUndefined (Some (valueProperty st :: ["x"])) st1 /\
  arrays (snd (RevB.parseSetter "foo" VUndefined VUndefined (Some 0) st)) !! 0 =
    Some (valueProperty st :: ["x"]).
Proof.
  intros H st.
  apply (parseSetterB_writes_callers_array StandIn.collaborators "foo" VUndefined
           VUndefined 0 ["x"] st).
  reflexivity.
Defined.

Lemma bangs_app n m v : bangs n +:+ bangs m +:+ v = bangs (n + m) +:+ v.
Proof. induction n as [|n IH]; [reflexivity|]. cbn [bangs Nat.add]. simpl. rewrite IH. reflexivity. Qed.

Lemma parseB_valueProperty (H : Collaborators) expr globals formatters extraArgs st :
  exists n,
    valueProperty (snd (RevB.parse expr globals formatters extraArgs st)) =
    bangs n +:+ valueProperty st.
Proof.
  destruct (plus_string_cases expr) as [Hp|[e0 Hp]].
  2:{ rewrite (parseB_throws _ _ _ _ _ _ Hp). exists 0. reflexivity. }
  destruct (cache st !! cacheKey (to_string expr) (RevB.array_or_empty extraArgs))
    as [func|] eqn:Hc.
  { rewrite (parseB_hit _ _ _ _ _ _ Hp Hc). exists 0. reflexivity. }
  rewrite (parseB_miss_eq _ _ _ _ _ Hp Hc).
  destruct (is_setter (RevB.array_or_empty extraArgs) (valueProperty st)).
  - unfold bind at 1. unfold bind at 1. unfold lift.
    destruct (RevB.charAt0_is_bang expr) as [[|]|e].
    + unfold bind at 1. unfold modify, ret.
      rewrite ParseFacts.compile_valueProperty. exists 1. reflexivity.
    + unfold ret. rewrite ParseFacts.compile_valueProperty. exists 0. reflexivity.
    + exists 0. reflexivity.
  - unfold bind at 1. unfold ret.
    rewrite ParseFacts.compile_valueProperty. exists 0. reflexivity.
Qed.

Lemma stepB_valueProperty (H : Collaborators) st c :
  exists n, valueProperty (RevB.step st c) = bangs n +:+ valueProperty st.
Proof.
  destruct c as [expr globals formatters extraArgs|e globals formatters extraArgs|key v];
    cbn [RevB.step].
  - apply parseB_valueProperty.
  - unfold RevB.parseSetter, bind, get, modify, ret.
    destruct extraArgs as [a|]; cbn beta iota;
      match goal with
      | |- exists n, valueProperty (snd (RevB.parse ?x ?g ?f ?l ?s)) = _ =>
          destruct (parseB_valueProperty H x g f l s) as [n En]; exists n; exact En
      end.
  - exists 0. reflexivity.
Qed.

(** X19: in revision B the placeholder name of the module only ever
    gains exclamation marks: after any sequence of calls it is the name
    of before with some number of [!] in front, and nothing in the
    module ever takes them off again. *)
Theorem valueProperty_only_gains_bangs (H : Collaborators) calls :
  forall st, exists n, valueProperty (RevB.run calls st) = bangs n +:+ valueProperty st.
Proof.
  induction calls as [|c calls IH]; intros st; cbn [RevB.run fold_left].
  - exists 0. reflexivity.
  - destruct (IH (RevB.step st c)) as [n En].
    destruct (stepB_valueProperty H st c) as [m Em].
    exists (n + m). unfold RevB.run in En. rewrite En, Em. apply bangs_app.
Qed.

(** A setter of revision B that starts with [!] keeps its first
    character through the rewrite. *)
Lemma rewrite_keeps_bang ins e :
  SetterRewrite.starts_with_bang e = true ->
  SetterRewrite.starts_with_bang (SetterRewrite.replace_pipe_or_end ins e) = true.
Proof.
  intros Hb. rewrite SetterRewriteFacts.replace_pipe_or_end_closed.
  destruct e as [|c t]; [discriminate|].
  cbn [SetterRewrite.starts_with_bang] in Hb. apply Ascii.eqb_eq in Hb. subst c.
  reflexivity.
Qed.

(** X20: in revision B every setter that starts with [!] and is not
    yet in the cache puts one more [!] in front of the placeholder name
    of the module, whether the build then succeeds or not; what goes on
    to the collaborators is the rewritten text without its first
    character, so without the negation. *)
Theorem parseSetterB_bang_adds_bang (H : Collaborators) e globals formatters st :
  SetterRewrite.starts_with_bang e = true ->
  cache st !! cacheKey (SetterRewrite.replace_pipe_or_end " = _value_" e)
                       [valueProperty st] = None ->
  let text := SetterRewrite.replace_pipe_or_end " = _value_" e in
  RevB.parseSetter e globals formatters None st =
    compile (cacheKey text [valueProperty st]) text (VStr (SetterRewrite.slice1 text)) true
            globals formatters [valueProperty st]
            (set_valueProperty ("!" +:+ valueProperty st)
               (set_arrays (arrays st ++ [[valueProperty st]]) st)) /\
  valueProperty (snd (RevB.parseSetter e globals formatters None st)) =
    "!" +:+ valueProperty st.
Proof.
  intros Hb Hc text.
  assert (E : RevB.parseSetter e globals formatters None st =
              RevB.parse (VStr text) globals formatters (Some [valueProperty st])
                         (set_arrays (arrays st ++ [[valueProperty st]]) st)).
  { unfold RevB.parseSetter.
    unfold bind at 1. cbn beta iota.
    unfold bind at 1. unfold get at 1. cbn beta iota.
    unfold bind at 1. unfold modify at 1. cbn beta iota.
    unfold bind at 1. unfold get at 1. cbn beta iota.
    cbn [arrays set_arrays valueProperty].
    replace (length (arrays st)) with (length (arrays st) + 0) by lia.
    rewrite alter_app_r. cbn [alter list_alter].
    rewrite lookup_app_r by lia.
    replace (length (arrays st) + 0 - length (arrays st)) with 0 by lia.
    reflexivity. }
  rewrite E.
  rewrite ParseFacts.parseB_bang;
    [|exact Hc| |].
  - split; [reflexivity|]. rewrite ParseFacts.compile_valueProperty. reflexivity.
  - cbn [RevB.array_or_empty is_setter valueProperty set_arrays].
    apply String.eqb_refl.
  - rewrite charAt0_string. unfold text. rewrite rewrite_keeps_bang by exact Hb.
    reflexivity.
Qed.

Lemma parseSetterB_bang_adds_bang_witness :
  let H := StandIn.collaborators in
  let st := snd (RevB.parse (VStr "foo") VUndefined VUndefined None init) in
  let text := SetterRewrite.replace_pipe_or_end " = _value_" "!user.name | upper" in
  RevB.parseSetter "!user.name | upper" VUndefined VUndefined None st =
    compile (cacheKey text [valueProperty st]) text (VStr (SetterRewrite.slice1 text)) true
            VUndefined VUndefined [valueProperty st]
            (set_valueProperty ("!" +:+ valueProperty st)
               (set_arrays (arrays st ++ [[valueProperty st]]) st)) /\
  valueProperty (snd (RevB.parseSetter "!user.name | upper" VUndefined VUndefined None st)) =
    "!" +:+ valueProperty st.
Proof.
  intros H st.
  apply (parseSetterB_bang_adds_bang StandIn.collaborators "!user.name | upper"
           VUndefined VUndefined st); reflexivity.
Defined.

(** X27: revision B on a value that has neither [replace] nor
    [charAt] (it has no type test).  The key is built first, from the
    string the value is converted to: when that conversion throws (an
    object with an own [toString]) [parse] throws the same and the
    module is as it was; when the key is in the cache the function
    cached under it is returned; otherwise, with no table pending, a
    getter call throws the [TypeError] of [expr.replace] from inside
    [pullOutStrings] and leaves an empty table pending, and a setter
    call (first name the placeholder) throws the [TypeError] of
    [expr.charAt] and leaves the module as it was. *)
Theorem parseB_on_a_value_without_methods (H : Collaborators) v globals formatters
    extraArgs st :
  Strings.as_string v = None ->
  strings st = None ->
  RevB.parse v globals formatters extraArgs st =
  match plus_string v with
  | Throw e => (Throw e, st)
  | Ok text =>
      match cache st !! cacheKey text (RevB.array_or_empty extraArgs) with
      | Some func => (Ok func, st)
      | None =>
          if is_setter (RevB.array_or_empty extraArgs) (valueProperty st)
          then (Throw (Strings.no_method v "charAt"), st)
          else (Throw (Strings.no_method v "replace"), set_strings (Some []) st)
      end
  end.
Proof.
  intros Hv Hs.
  destruct (plus_string_cases v) as [Hp|[e Hp]].
  2:{ rewrite Hp. apply parseB_throws, Hp. }
  rewrite Hp.
  destruct (cache st !! cacheKey (to_string v) (RevB.array_or_empty extraArgs))
    as [func|] eqn:Hc.
  { apply parseB_hit; assumption. }
  rewrite (parseB_miss_eq _ _ _ _ _ Hp Hc).
  destruct (is_setter (RevB.array_or_empty extraArgs) (valueProperty st)).
  - unfold bind at 1. unfold bind at 1. unfold lift, RevB.charAt0_is_bang.
    rewrite Hv. reflexivity.
  - unfold bind at 1. unfold ret.
    unfold compile, bind, strings_pullOutStrings, Strings.pullOutStrings.
    rewrite Hs, Hv. reflexivity.
Qed.

Lemma parseB_on_a_value_without_methods_witness :
  let H := StandIn.collaborators in
  let st := snd (RevB.parse (VStr "5") VUndefined VUndefined None init) in
  RevB.parse (VNum 5) VUndefined VUndefined None st = (Ok 0, st) /\
  RevB.parse (VNum 5) VUndefined VUndefined (Some ["x"]) st =
    (Throw (Strings.no_method (VNum 5) "replace"), set_strings (Some []) st) /\
  RevB.parse (VObj [("toString", VNum 1)]) VUndefined VUndefined None st =
    (Throw (TypeError "Cannot convert object to primitive value"), st).
Proof.
  intros H st.
  pose proof (fun v x (Hv : Strings.as_string v = None) =>
                parseB_on_a_value_without_methods StandIn.collaborators v VUndefined
                  VUndefined x st Hv eq_refl) as P.
  split; [|split].
  - apply (P (VNum 5) None eq_refl).
  - apply (P (VNum 5) (Some ["x"]) eq_refl).
  - apply (P (VObj [("toString", VNum 1)]) None eq_refl).
Defined.

(** *** The text of the function *)

(** X21: the literals come back in the text handed to the function
    constructor.  When the two collaborators leave the stripped text of
    an expression as it is and that text is one line, the text
    generated for a getter is [return] followed by the expression as it
    was written, literals included, and the text generated for a setter
    is the expression as it was written. *)
Theorem generated_text_has_the_literals (H : Collaborators) registry e globals extraArgs :
  parseFormatters (fst (Strings.replace_quoteRegex e)) =
    Ok (fst (Strings.replace_quoteRegex e)) ->
  parseExpression (fst (Strings.replace_quoteRegex e))
                  (getVariables registry globals extraArgs) =
    Ok (fst (Strings.replace_quoteRegex e)) ->
  Strings.all_chars no_newline (fst (Strings.replace_quoteRegex e)) = true ->
  generated registry e false globals extraArgs = Ok ("return " +:+ e) /\
  generated registry e true globals extraArgs = Ok e.
Proof.
  intros Hf He Hn. unfold generated.
  pose proof (StringsFacts.roundtrip_fuel (String.length e) e [] (Nat.le_refl _)) as R.
  rewrite app_nil_r in R. fold (Strings.isolate e) in R.
  rewrite StringsFacts.replace_quoteRegex_isolate in *.
  destruct (Strings.isolate e) as [stripped pushed]. cbn [fst snd] in *.
  rewrite Hf, He, (add_return_plain _ Hn).
  rewrite !StringsFacts.replace_emptyQuoteExpr_restore.
  rewrite (LiteralFacts.restore_plain_prefix "return " stripped pushed eq_refl), R.
  split; reflexivity.
Qed.

Lemma generated_text_has_the_literals_witness :
  let H := StandIn.collaborators in
  let e := "name + 'a" +:+ String newline "b'" in
  generated [] e false VUndefined [] = Ok ("return " +:+ e) /\
  generated [] e true VUndefined [] = Ok e.
Proof.
  intros H e.
  apply (generated_text_has_the_literals StandIn.collaborators [] e VUndefined []);
    reflexivity.
Defined.

End BuilderFacts.

(** ** Null-safe property chains *)

Module ChainsFacts.
Import Chains Expressions ExpressionsFacts.

#[local] Arguments String.append !s1 s2 : simpl nomatch.

(** The texts the tests of [parseExpression] expect for a chain. *)
Example parseExpression_foo : parseExpression_chain "foo" ∅ = Some "this.foo".
Proof. reflexivity. Qed.

Example parseExpression_foo_bar :
  parseExpression_chain "foo.bar" ∅ =
  Some ("var _ref1;" +:+ str1 newline +:+
        "((_ref1 = this.foo) == null ? void 0 : _ref1.bar)").
Proof. reflexivity. Qed.

Example parseExpression_call :
  parseExpression_chain "foo(bar)" ∅ =
  Some "(typeof this.foo !== 'function' ? void 0 : this.foo(this.bar))".
Proof. reflexivity. Qed.

Example parseExpression_call_continued :
  parseExpression_chain "foo(bar).test" ∅ =
  Some ("var _ref1;" +:+ str1 newline +:+
        "(typeof this.foo !== 'function' ? void 0 : " +:+
        "(_ref1 = this.foo(this.bar)) == null ? void 0 : _ref1.test)").
Proof. reflexivity. Qed.

Example parseExpression_two_calls :
  parseExpression_chain "foo(bar).bar()" ∅ =
  Some ("var _ref1;" +:+ str1 newline +:+
        "(typeof this.foo !== 'function' ? void 0 : " +:+
        "(_ref1 = this.foo(this.bar)) == null ? void 0 : " +:+
        "typeof _ref1.bar !== 'function' ? void 0 : _ref1.bar())").
Proof. reflexivity. Qed.

Example parseExpression_nested_call :
  parseExpression_chain "foo(bar())" ∅ =
  Some ("(typeof this.foo !== 'function' ? void 0 : " +:+
        "this.foo((typeof this.bar !== 'function' ? void 0 : this.bar())))").
Proof. reflexivity. Qed.

Example parseExpression_brackets :
  parseExpression_chain "foo[bar]" ∅ =
  Some ("var _ref1;" +:+ str1 newline +:+
        "((_ref1 = this.foo) == null ? void 0 : _ref1[this.bar])").
Proof. reflexivity. Qed.

(** The numbering of the temporaries, as in the test [should work with
    setters after functions], here for the getter. *)
Example parseExpression_nested_chain :
  parseExpression_chain "foo(bar.abc).test" ∅ =
  Some ("var _ref1, _ref2;" +:+ str1 newline +:+
        "(typeof this.foo !== 'function' ? void 0 : " +:+
        "(_ref1 = this.foo(((_ref2 = this.bar) == null ? void 0 : _ref2.abc))) " +:+
        "== null ? void 0 : _ref1.test)").
Proof. reflexivity. Qed.

(** Declared names stand as they are, a global is read from the globals
    argument and an extra argument stands as it is. *)
Example parseExpression_scopes :
  let variables := getVariables [("moment", VObj [])] VUndefined ["x"] in
  parseExpression_chain "Math" variables = Some "Math" /\
  parseExpression_chain "moment.utc" variables =
    Some ("var _ref1;" +:+ str1 newline +:+
          "((_ref1 = _globals_.moment) == null ? void 0 : _ref1.utc)") /\
  parseExpression_chain "x.y" variables =
    Some ("var _ref1;" +:+ str1 newline +:+ "((_ref1 = x) == null ? void 0 : _ref1.y)").
Proof. repeat split. Qed.

(** *** The guards *)

Lemma agree_refl k refs : agree k refs refs.
Proof. intros m _. reflexivity. Qed.

Lemma agree_trans k a b c : agree k a b -> agree k b c -> agree k a c.
Proof. intros H1 H2 m Hm. rewrite (H1 m Hm). apply H2, Hm. Qed.

Lemma agree_le k k' a b : k <= k' -> agree k' a b -> agree k a b.
Proof. intros Hk H m Hm. apply H. lia. Qed.

Lemma agree_assign k g v refs : k <= g -> agree k refs (assign g v refs).
Proof.
  intros Hk m Hm. unfold assign.
  destruct (Nat.eqb_spec m g); [lia|reflexivity].
Qed.

Lemma assign_same g v refs : assign g v refs g = v.
Proof. unfold assign. rewrite Nat.eqb_refl. reflexivity. Qed.

Lemma reserve_spec n ls g n0 :
  reserve n ls = (g, n0) ->
  n <= n0 /\ (needs_guard ls = true -> g = n /\ n0 = S n).
Proof.
  unfold reserve. destruct (needs_guard ls); intros E; inversion E; subst.
  - split; [lia|]. intros _. split; reflexivity.
  - split; [lia|]. discriminate.
Qed.

Section Semantics.
Variable member : datum -> string -> datum.
Variable index : datum -> datum -> result datum.
Variable host : string -> datum -> list datum -> result datum.
Variable env : string -> result datum.
Variable this : value.
Variable variables : gmap string value.

#[local] Abbreviation eval' := (eval member index host env this).
#[local] Abbreviation eval_args' := (eval_args member index host env this).
#[local] Abbreviation safe' := (safe member index host env this variables).
#[local] Abbreviation safe_links' := (safe_links member index host env this variables).
#[local] Abbreviation safe_args' := (safe_args member index host env this variables).
#[local] Abbreviation plain' := (plain member index host env this variables).
#[local] Abbreviation plain_links' := (plain_links member index host env this variables).
#[local] Abbreviation plain_args' := (plain_args member index host env this variables).
#[local] Abbreviation continue' := (continue member index host env this variables).
#[local] Abbreviation stable' := (stable member index host env this).
#[local] Abbreviation root_value' := (root_value member env this variables).

(** The numbers of the temporaries only grow. *)
Lemma rewrite_grows :
  (forall c n, n <= snd (rewrite variables n c)) /\
  (forall ls g n cur, n <= snd (rewrite_links variables g n cur ls)) /\
  (forall cs n, n <= snd (rewrite_args variables n cs)).
Proof.
  apply chain_links_chains_ind.
  - intros root ls IH n.
    assert (G : forall g n0, n <= n0 ->
              n <= snd (rewrite_links variables g n0 (root_access variables root) ls)).
    { intros g n0 Hn. specialize (IH g n0 (root_access variables root)). lia. }
    destruct ls; cbn [rewrite snd]; [lia| | |].
    all: match goal with
         | |- context [reserve ?k ?l] =>
             destruct (reserve k l) as [g n0] eqn:Er;
             apply reserve_spec in Er as [Hn _];
             specialize (G g n0 Hn);
             destruct (rewrite_links variables g n0 (root_access variables root) l)
           end; cbn [snd] in *; lia.
  - intros g n cur. cbn. lia.
  - intros name rest IH g n cur. cbn [rewrite_links].
    destruct (reserve n rest) as [g' n0] eqn:Er. apply reserve_spec in Er as [Hn _].
    specialize (IH g' n0 (Member (Ref g) name)).
    destruct (rewrite_links variables g' n0 (Member (Ref g) name) rest).
    cbn [snd] in *. lia.
  - intros key IHk rest IH g n cur. cbn [rewrite_links].
    destruct (reserve n rest) as [g' n0] eqn:Er. apply reserve_spec in Er as [Hn _].
    specialize (IHk n0). destruct (rewrite variables n0 key) as [key' n1].
    specialize (IH g' n1 (At (Ref g) key')).
    destruct (rewrite_links variables g' n1 (At (Ref g) key') rest).
    cbn [snd] in *. lia.
  - intros args IHa rest IH g n cur. cbn [rewrite_links].
    destruct (reserve n rest) as [g' n0] eqn:Er. apply reserve_spec in Er as [Hn _].
    specialize (IHa n0). destruct (rewrite_args variables n0 args) as [args' n1].
    specialize (IH g' n1 (Invoke cur args')).
    destruct (rewrite_links variables g' n1 (Invoke cur args') rest).
    cbn [snd] in *. lia.
  - intros n. cbn. lia.
  - intros c IHc cs IH n. cbn [rewrite_args].
    specialize (IHc n). destruct (rewrite variables n c) as [e n0].
    specialize (IH n0). destruct (rewrite_args variables n0 cs) as [es n1].
    cbn [snd] in *. lia.
Qed.

(** The access a name is rewritten to reads what its scope says. *)
Lemma eval_root root refs :
  eval' (root_access variables root) refs = (root_value' root, refs).
Proof.
  unfold root_access, root_value. destruct (classify variables root); cbn [eval].
  - cbn [is_null]. destruct (nullish this); reflexivity.
  - destruct (name_value env this "_globals_") as [g|]; [|reflexivity].
    destruct (is_null g); reflexivity.
  - destruct (name_value env this root); reflexivity.
Qed.

Lemma stable_agree lo cur refs refs1 r :
  agree lo refs refs1 -> stable' lo cur refs r -> stable' lo cur refs1 r.
Proof.
  intros A H refs' A'. apply H. eapply agree_trans; eassumption.
Qed.

Lemma safe_links_index recv v key rest :
  safe_links' recv v (LIndex key rest) =
  if is_null v then Ok (undefined, undefined)
  else match safe' key with
       | Ok (_, vk) =>
           match index v vk with
           | Ok x => safe_links' v x rest
           | Throw err => Throw err
           end
       | Throw err => Throw err
       end.
Proof. reflexivity. Qed.

Lemma safe_links_call recv v args rest :
  safe_links' recv v (LCall args rest) =
  if String.eqb (type_of v) "function" then
    match safe_args' args with
    | Ok vals =>
        match call host v recv vals with
        | Ok x => safe_links' undefined x rest
        | Throw err => Throw err
        end
    | Throw err => Throw err
    end
  else Ok (undefined, undefined).
Proof. reflexivity. Qed.

Lemma eval_invoke f args refs :
  eval' (Invoke f args) refs =
  match eval' f refs with
  | (Ok (recv, vf), refs1) =>
      match eval_args' args refs1 with
      | (Ok vals, refs2) =>
          match call host vf recv vals with
          | Ok v => (Ok (undefined, v), refs2)
          | Throw err => (Throw err, refs2)
          end
      | (Throw err, refs2) => (Throw err, refs2)
      end
  | (Throw err, refs1) => (Throw err, refs1)
  end.
Proof. reflexivity. Qed.

Lemma eval_args_cons e es refs :
  eval_args' (KCons e es) refs =
  match eval' e refs with
  | (Ok (_, v), refs1) =>
      match eval_args' es refs1 with
      | (Ok vs, refs2) => (Ok (v :: vs), refs2)
      | (Throw err, refs2) => (Throw err, refs2)
      end
  | (Throw err, refs1) => (Throw err, refs1)
  end.
Proof. reflexivity. Qed.

Lemma safe_args_cons c cs :
  safe_args' (CCons c cs) =
  match safe' c with
  | Ok (_, v) =>
      match safe_args' cs with
      | Ok vs => Ok (v :: vs)
      | Throw err => Throw err
      end
  | Throw err => Throw err
  end.
Proof. reflexivity. Qed.

(** The rewritten chain computes the chain with a question mark at
    every link, and leaves the temporaries below its own alone. *)
Lemma rewrite_is_safe :
  (forall c n refs,
      exists R refs',
        eval' (fst (rewrite variables n c)) refs = (R, refs') /\
        agree n refs refs' /\
        value_of R = value_of (safe' c)) /\
  (forall ls g n cur lo r refs,
      lo <= n ->
      (needs_guard ls = true -> lo <= g /\ g < n) ->
      stable' lo cur refs r ->
      exists R refs',
        eval' (fst (rewrite_links variables g n cur ls)) refs = (R, refs') /\
        agree lo refs refs' /\
        value_of R = value_of (continue' r ls)) /\
  (forall cs n refs,
      exists refs',
        eval_args' (fst (rewrite_args variables n cs)) refs = (safe_args' cs, refs') /\
        agree n refs refs').
Proof.
  apply chain_links_chains_ind.
  - (* a chain *)
    intros root ls IH n refs.
    assert (Hroot : forall lo, stable' lo (root_access variables root) refs (root_value' root)).
    { intros lo refs' _. exists refs'. split; [apply eval_root|apply agree_refl]. }
    assert (G : forall g n0 body n1,
               reserve n ls = (g, n0) ->
               rewrite_links variables g n0 (root_access variables root) ls = (body, n1) ->
               exists R refs',
                 eval' (Paren body) refs = (R, refs') /\ agree n refs refs' /\
                 value_of R = value_of (safe' (Chain root ls))).
    { intros g n0 body n1 Er Eb. apply reserve_spec in Er as [Hn Hg].
      destruct (IH g n0 (root_access variables root) n (root_value' root) refs Hn)
        as (R & refs' & E & A & V).
      - intros Hneed. destruct (Hg Hneed) as [-> ->]. lia.
      - apply Hroot.
      - rewrite Eb in E. exists R, refs'. split; [exact E|]. split; [exact A|].
        rewrite V. cbn [safe]. unfold continue. destruct (root_value' root) as [[recv v]|];
          reflexivity. }
    destruct ls as [|name rest|key rest|args rest].
    + cbn [rewrite fst]. exists (root_value' root), refs.
      split; [apply eval_root|]. split; [apply agree_refl|].
      cbn [safe]. destruct (root_value' root) as [[recv v]|]; reflexivity.
    + cbn [rewrite]. destruct (reserve n (LProp name rest)) as [g n0] eqn:Er.
      destruct (rewrite_links variables g n0 (root_access variables root) (LProp name rest))
        as [body n1] eqn:Eb.
      refine (G g n0 body n1 _ Eb); first [exact Er | reflexivity].
    + cbn [rewrite]. destruct (reserve n (LIndex key rest)) as [g n0] eqn:Er.
      destruct (rewrite_links variables g n0 (root_access variables root) (LIndex key rest))
        as [body n1] eqn:Eb.
      refine (G g n0 body n1 _ Eb); first [exact Er | reflexivity].
    + cbn [rewrite]. destruct (reserve n (LCall args rest)) as [g n0] eqn:Er.
      destruct (rewrite_links variables g n0 (root_access variables root) (LCall args rest))
        as [body n1] eqn:Eb.
      refine (G g n0 body n1 _ Eb); first [exact Er | reflexivity].
  - (* no link *)
    intros g n cur lo r refs Hlo Hg Hcur. cbn [rewrite_links fst].
    destruct (Hcur refs (agree_refl _ _)) as (refs1 & E1 & A1).
    exists r, refs1. split; [exact E1|]. split; [exact A1|].
    unfold continue. destruct r as [[recv v]|]; reflexivity.
  - (* a property *)
    intros name rest IH g n cur lo r refs Hlo Hg Hcur. cbn [rewrite_links].
    destruct (reserve n rest) as [g' n0] eqn:Er.
    destruct (rewrite_links variables g' n0 (Member (Ref g) name) rest) as [body n1] eqn:Eb.
    cbn [fst]. apply reserve_spec in Er as [Hn Hg'].
    destruct (Hg eq_refl) as [Hlg Hgn].
    destruct (Hcur refs (agree_refl _ _)) as (refs1 & E1 & A1).
    cbn [eval]. rewrite E1. destruct r as [[recv v]|err].
    2:{ exists (Throw err), refs1. repeat split; assumption. }
    cbn [continue safe_links]. destruct (is_null v) eqn:Hv.
    { exists (Ok (undefined, undefined)), (assign g v refs1).
      split; [reflexivity|]. split; [|reflexivity].
      eapply agree_trans; [exact A1|apply agree_assign, Hlg]. }
    destruct (IH g' n0 (Member (Ref g) name) (S g) (Ok (v, member v name))
                 (assign g v refs1)) as (R & refs2 & E2 & A2 & V2).
    + lia.
    + intros Hneed. destruct (Hg' Hneed) as [-> ->]. lia.
    + intros refs' A'. exists refs'. split; [|apply agree_refl].
      cbn [eval]. rewrite <- (A' g) by lia. rewrite assign_same, Hv. reflexivity.
    + rewrite Eb in E2. cbn [fst] in E2. rewrite E2.
      exists (match R with Ok (_, u) => Ok (undefined, u) | Throw e => Throw e end), refs2.
      split; [destruct R as [[? ?]|]; reflexivity|]. split.
      * eapply agree_trans; [exact A1|].
        eapply agree_trans; [apply agree_assign, Hlg|].
        eapply agree_le; [|exact A2]. lia.
      * cbn [continue] in V2. rewrite <- V2. destruct R as [[? ?]|]; reflexivity.
  - (* an index *)
    intros key IHk rest IH g n cur lo r refs Hlo Hg Hcur. cbn [rewrite_links].
    destruct (reserve n rest) as [g' n0] eqn:Er.
    destruct (rewrite variables n0 key) as [key' n1] eqn:Ek.
    destruct (rewrite_links variables g' n1 (At (Ref g) key') rest) as [body n2] eqn:Eb.
    cbn [fst]. apply reserve_spec in Er as [Hn Hg'].
    pose proof (proj1 rewrite_grows key n0) as Hn1. rewrite Ek in Hn1. cbn [snd] in Hn1.
    destruct (Hg eq_refl) as [Hlg Hgn].
    destruct (Hcur refs (agree_refl _ _)) as (refs1 & E1 & A1).
    cbn [eval]. rewrite E1. destruct r as [[recv v]|err].
    2:{ exists (Throw err), refs1. repeat split; assumption. }
    cbn [continue]. rewrite safe_links_index. destruct (is_null v) eqn:Hv.
    { exists (Ok (undefined, undefined)), (assign g v refs1).
      split; [reflexivity|]. split; [|reflexivity].
      eapply agree_trans; [exact A1|apply agree_assign, Hlg]. }
    set (r' := match safe' key with
               | Ok (_, vk) =>
                   match index v vk with
                   | Ok x => Ok (v, x)
                   | Throw e => Throw e
                   end
               | Throw e => Throw e
               end).
    destruct (IH g' n1 (At (Ref g) key') (S g) r' (assign g v refs1))
      as (R & refs2 & E2 & A2 & V2).
    + lia.
    + intros Hneed. destruct (Hg' Hneed) as [-> ->]. lia.
    + intros refs' A'.
      destruct (IHk n0 refs') as (Rk & refsk & Ek' & Ak & Vk).
      rewrite Ek in Ek'. cbn [fst] in Ek'.
      exists refsk. split; [|eapply agree_le; [|exact Ak]; lia].
      cbn [eval]. rewrite Ek'. rewrite <- (A' g) by lia. rewrite assign_same.
      unfold r'. destruct Rk as [[rk vk]|ek], (safe' key) as [[rs vs]|es];
        cbn [value_of] in Vk; inversion Vk; subst; [|reflexivity].
      rewrite Hv. destruct (index v vs); reflexivity.
    + rewrite Eb in E2. cbn [fst] in E2. rewrite E2.
      exists (match R with Ok (_, u) => Ok (undefined, u) | Throw e => Throw e end), refs2.
      split; [destruct R as [[? ?]|]; reflexivity|]. split.
      * eapply agree_trans; [exact A1|].
        eapply agree_trans; [apply agree_assign, Hlg|].
        eapply agree_le; [|exact A2]. lia.
      * transitivity (value_of R); [destruct R as [[? ?]|]; reflexivity|].
        rewrite V2. unfold r', continue.
        destruct (safe' key) as [[rs vs]|]; [|reflexivity].
        destruct (index v vs); reflexivity.
  - (* a call *)
    intros args IHa rest IH g n cur lo r refs Hlo Hg Hcur. cbn [rewrite_links].
    destruct (reserve n rest) as [g' n0] eqn:Er.
    destruct (rewrite_args variables n0 args) as [args' n1] eqn:Ea.
    destruct (rewrite_links variables g' n1 (Invoke cur args') rest) as [body n2] eqn:Eb.
    cbn [fst]. apply reserve_spec in Er as [Hn Hg'].
    pose proof (proj2 (proj2 rewrite_grows) args n0) as Hn1.
    rewrite Ea in Hn1. cbn [snd] in Hn1.
    destruct (Hcur refs (agree_refl _ _)) as (refs1 & E1 & A1).
    cbn [eval]. rewrite E1. destruct r as [[recv v]|err].
    2:{ exists (Throw err), refs1. repeat split; assumption. }
    cbn [continue]. rewrite safe_links_call.
    destruct (String.eqb (type_of v) "function") eqn:Hv.
    2:{ exists (Ok (undefined, undefined)), refs1. repeat split; assumption. }
    set (r' := match safe_args' args with
               | Ok vals =>
                   match call host v recv vals with
                   | Ok x => Ok (undefined, x)
                   | Throw e => Throw e
                   end
               | Throw e => Throw e
               end).
    destruct (IH g' n1 (Invoke cur args') lo r' refs1) as (R & refs2 & E2 & A2 & V2).
    + lia.
    + intros Hneed. destruct (Hg' Hneed) as [-> ->]. lia.
    + intros refs' A'.
      destruct (Hcur refs' (agree_trans _ _ _ _ A1 A')) as (refsc & Ec & Ac).
      destruct (IHa n0 refsc) as (refsa & Ea' & Aa).
      rewrite Ea in Ea'. cbn [fst] in Ea'.
      exists refsa. split.
      * rewrite eval_invoke, Ec, Ea'. unfold r'.
        destruct (safe_args' args) as [vals|]; [|reflexivity].
        destruct (call host v recv vals); reflexivity.
      * eapply agree_trans; [exact Ac|]. eapply agree_le; [|exact Aa]. lia.
    + rewrite Eb in E2. cbn [fst] in E2. rewrite E2.
      exists (match R with Ok (_, u) => Ok (undefined, u) | Throw e => Throw e end), refs2.
      split; [destruct R as [[? ?]|]; reflexivity|]. split.
      * eapply agree_trans; [exact A1|exact A2].
      * transitivity (value_of R); [destruct R as [[? ?]|]; reflexivity|].
        rewrite V2. unfold r', continue.
        destruct (safe_args' args) as [vals|]; [|reflexivity].
        destruct (call host v recv vals); reflexivity.
  - (* no argument *)
    intros n refs. exists refs. split; [reflexivity|apply agree_refl].
  - (* arguments *)
    intros c IHc cs IH n refs. cbn [rewrite_args].
    destruct (rewrite variables n c) as [e n0] eqn:Ec.
    destruct (rewrite_args variables n0 cs) as [es n1] eqn:Es. cbn [fst].
    pose proof (proj1 rewrite_grows c n) as Hn0. rewrite Ec in Hn0. cbn [snd] in Hn0.
    destruct (IHc n refs) as (R & refs1 & E1 & A1 & V1).
    rewrite Ec in E1. cbn [fst] in E1.
    destruct (IH n0 refs1) as (refs2 & E2 & A2). rewrite Es in E2. cbn [fst] in E2.
    rewrite eval_args_cons, safe_args_cons, E1.
    destruct R as [[rr vr]|er], (safe' c) as [[rs vs]|es'];
      cbn [value_of] in V1; inversion V1; subst.
    + rewrite E2. exists refs2. split.
      * destruct (safe_args' cs); reflexivity.
      * eapply agree_trans; [exact A1|]. eapply agree_le; [|exact A2]. lia.
    + exists refs1. split; [reflexivity|exact A1].
Qed.

(** Running the text of a rewritten chain gives the chain with a
    question mark at every link. *)
Lemma run_code_of c :
  run member index host env this (code_of variables c) = value_of (safe' c).
Proof.
  unfold run, code_of.
  destruct (proj1 rewrite_is_safe c 1 empty_store) as (R & refs' & E & _ & V).
  rewrite E. exact V.
Qed.

Lemma plain_links_index recv v key rest :
  plain_links' recv v (LIndex key rest) =
  match plain' key with
  | Ok (_, vk) =>
      if is_null v then Throw null_error
      else match index v vk with
           | Ok x => plain_links' v x rest
           | Throw err => Throw err
           end
  | Throw err => Throw err
  end.
Proof. reflexivity. Qed.

Lemma plain_links_call recv v args rest :
  plain_links' recv v (LCall args rest) =
  match plain_args' args with
  | Ok vals =>
      match call host v recv vals with
      | Ok x => plain_links' undefined x rest
      | Throw err => Throw err
      end
  | Throw err => Throw err
  end.
Proof. reflexivity. Qed.

Lemma plain_args_cons c cs :
  plain_args' (CCons c cs) =
  match plain' c with
  | Ok (_, v) =>
      match plain_args' cs with
      | Ok vs => Ok (v :: vs)
      | Throw err => Throw err
      end
  | Throw err => Throw err
  end.
Proof. reflexivity. Qed.

Lemma call_function f recv vals x :
  call host f recv vals = Ok x -> String.eqb (type_of f) "function" = true.
Proof. destruct f; try discriminate. reflexivity. Qed.

(** Where the plain chain has a value, the question marks change
    nothing. *)
Lemma plain_is_safe :
  (forall c r, plain' c = Ok r -> safe' c = Ok r) /\
  (forall ls recv v r, plain_links' recv v ls = Ok r -> safe_links' recv v ls = Ok r) /\
  (forall cs vs, plain_args' cs = Ok vs -> safe_args' cs = Ok vs).
Proof.
  apply chain_links_chains_ind.
  - intros root ls IH r. cbn [plain safe].
    destruct (root_value' root) as [[recv v]|]; [apply IH|discriminate].
  - intros recv v r E. exact E.
  - intros name rest IH recv v r. cbn [plain_links safe_links].
    destruct (is_null v); [discriminate|apply IH].
  - intros key IHk rest IH recv v r. rewrite plain_links_index, safe_links_index.
    destruct (plain' key) as [[rk vk]|]; [|discriminate].
    rewrite (IHk _ eq_refl). destruct (is_null v); [discriminate|].
    destruct (index v vk); [apply IH|discriminate].
  - intros args IHa rest IH recv v r. rewrite plain_links_call, safe_links_call.
    destruct (plain_args' args) as [vals|]; [|discriminate].
    rewrite (IHa _ eq_refl).
    destruct (call host v recv vals) as [x|] eqn:Ec; [|discriminate].
    rewrite (call_function _ _ _ _ Ec). apply IH.
  - intros vs E. exact E.
  - intros c IHc cs IH vs. rewrite plain_args_cons, safe_args_cons.
    destruct (plain' c) as [[rc vc]|]; [|discriminate].
    rewrite (IHc _ eq_refl).
    destruct (plain_args' cs) as [ws|]; [|discriminate].
    rewrite (IH _ eq_refl). intros E. exact E.
Qed.

(** Where the links [pre] lead to a value the next link cannot be
    applied to, the question marks give [undefined], whatever
    follows. *)
Lemma blocked_is_undefined pre : forall recv v recv' v' ls,
  plain_links' recv v pre = Ok (recv', v') ->
  blocked v' ls = true ->
  value_of (safe_links' recv v (lapp pre ls)) = Ok undefined.
Proof.
  induction pre as [|name rest IH|key rest IH|args rest IH]; intros recv v recv' v' ls E B.
  - cbn [plain_links] in E. inversion E; subst. cbn [lapp].
    destruct ls as [|name rest|key rest|args rest]; [discriminate| | |].
    + cbn [blocked] in B. cbn [safe_links]. rewrite B. reflexivity.
    + cbn [blocked] in B. rewrite safe_links_index, B. reflexivity.
    + cbn [blocked] in B. apply negb_true_iff in B.
      rewrite safe_links_call, B. reflexivity.
  - cbn [plain_links] in E. cbn [lapp safe_links].
    destruct (is_null v); [discriminate|]. eapply IH; eassumption.
  - rewrite plain_links_index in E. cbn [lapp]. rewrite safe_links_index.
    destruct (plain' key) as [[rk vk]|] eqn:Ek; [|discriminate].
    rewrite (proj1 plain_is_safe _ _ Ek). destruct (is_null v); [discriminate|].
    destruct (index v vk); [|discriminate]. eapply IH; eassumption.
  - rewrite plain_links_call in E. cbn [lapp]. rewrite safe_links_call.
    destruct (plain_args' args) as [vals|] eqn:Ea; [|discriminate].
    rewrite (proj2 (proj2 plain_is_safe) _ _ Ea).
    destruct (call host v recv vals) as [x|] eqn:Ec; [|discriminate].
    rewrite (call_function _ _ _ _ Ec). eapply IH; eassumption.
Qed.

End Semantics.

(** *** The text of the rewrite *)

Lemma name_char_word c : name_char c = true -> word_char c = true.
Proof.
  destruct c as [[] [] [] [] [] [] [] []]; intros E; try reflexivity; discriminate E.
Qed.

Lemma all_chars_impl (p q : ascii -> bool) s :
  (forall c, p c = true -> q c = true) ->
  Strings.all_chars p s = true -> Strings.all_chars q s = true.
Proof.
  intros Hpq. induction s as [|c t IH]; [reflexivity|].
  cbn [Strings.all_chars]. intros E. apply andb_true_iff in E as [Ec Et].
  rewrite (Hpq _ Ec), (IH Et). reflexivity.
Qed.

Lemma all_chars_append p a b :
  Strings.all_chars p (a +:+ b) = Strings.all_chars p a && Strings.all_chars p b.
Proof.
  induction a as [|c a IH]; [reflexivity|].
  change (String c a +:+ b) with (String c (a +:+ b)).
  cbn [Strings.all_chars]. rewrite IH, andb_assoc. reflexivity.
Qed.

Lemma no_pairs_append a b :
  no_pairs a = true -> last_quote a = false -> no_pairs b = true ->
  no_pairs (a +:+ b) = true.
Proof.
  intros Ha La Hb. induction a as [|c a IH]; [exact Hb|].
  destruct a as [|d a].
  - change (String c EmptyString +:+ b) with (String c b).
    cbn [last_quote] in La. destruct b as [|d b]; [reflexivity|].
    cbn [no_pairs] in Hb |- *. rewrite La. exact Hb.
  - change (String c (String d a) +:+ b) with (String c (String d (a +:+ b))).
    change (String d (a +:+ b)) with (String d a +:+ b) in IH |- *.
    cbn [no_pairs] in Ha. apply andb_true_iff in Ha as [Hc Ha].
    change (no_pairs (String c (String d a +:+ b)))
      with (negb (Strings.is_quote c && Ascii.eqb d c) && no_pairs (String d a +:+ b)).
    rewrite Hc. apply IH; [exact Ha|exact La].
Qed.

Lemma first_quote_append a b :
  first_quote a = false -> first_quote b = false -> first_quote (a +:+ b) = false.
Proof. destruct a; intros Ha Hb; [exact Hb|exact Ha]. Qed.

Lemma last_quote_append a b :
  last_quote a = false -> last_quote b = false -> last_quote (a +:+ b) = false.
Proof.
  intros Ha Hb. induction a as [|c a IH]; [exact Hb|].
  destruct a as [|d a].
  - change (String c EmptyString +:+ b) with (String c b).
    destruct b as [|d b]; [exact Ha|exact Hb].
  - change (String c (String d a) +:+ b) with (String c (String d (a +:+ b))).
    change (String d (a +:+ b)) with (String d a +:+ b) in IH |- *.
    apply IH. exact Ha.
Qed.

Lemma clean_spec s :
  clean s = true <->
  no_pairs s = true /\ first_quote s = false /\ last_quote s = false /\
  Strings.all_chars no_newline s = true.
Proof.
  unfold clean, tame. rewrite !andb_true_iff, !negb_true_iff. tauto.
Qed.

Lemma clean_append a b : clean a = true -> clean b = true -> clean (a +:+ b) = true.
Proof.
  rewrite !clean_spec. intros (Pa & Fa & La & Na) (Pb & Fb & Lb & Nb).
  repeat split.
  - apply no_pairs_append; assumption.
  - apply first_quote_append; assumption.
  - apply last_quote_append; assumption.
  - rewrite all_chars_append, Na, Nb. reflexivity.
Qed.

Lemma word_clean s : Strings.all_chars word_char s = true -> clean s = true.
Proof.
  intros H. apply clean_spec.
  induction s as [|c t IH]; [repeat split|].
  cbn [Strings.all_chars] in H. apply andb_true_iff in H as [Hc Ht].
  unfold word_char in Hc. apply andb_true_iff in Hc as [Hq Hn].
  apply negb_true_iff in Hq.
  destruct (IH Ht) as (P & F & L & N). repeat split.
  - destruct t as [|d t]; [reflexivity|]. cbn [no_pairs]. rewrite Hq. exact P.
  - exact Hq.
  - destruct t as [|d t]; [exact Hq|exact L].
  - cbn [Strings.all_chars]. rewrite Hn, N. reflexivity.
Qed.

Lemma name_clean name : Strings.all_chars name_char name = true -> clean name = true.
Proof. intros H. apply word_clean, (all_chars_impl _ _ _ name_char_word H). Qed.

Lemma digits_word d : Strings.all_chars word_char (NilEmpty.string_of_uint d) = true.
Proof. induction d; cbn [NilEmpty.string_of_uint Strings.all_chars]; try rewrite IHd; reflexivity. Qed.

Lemma ref_name_word n : Strings.all_chars word_char (ref_name n) = true.
Proof.
  unfold ref_name. rewrite all_chars_append. apply andb_true_iff. split; [reflexivity|].
  unfold NilZero.string_of_uint. destruct (Nat.to_uint n); try apply digits_word.
  reflexivity.
Qed.

Lemma ref_name_clean n : clean (ref_name n) = true.
Proof. apply word_clean, ref_name_word. Qed.

Lemma print_invoke e args :
  print (Invoke e args) = print e +:+ "(" +:+ print_args args +:+ ")".
Proof. reflexivity. Qed.

Lemma print_args_cons e es :
  print_args (KCons e es) =
  match es with
  | KNil => print e
  | KCons _ _ => print e +:+ ", " +:+ print_args es
  end.
Proof. destruct es; reflexivity. Qed.

Lemma show_links_call args rest :
  show_links (LCall args rest) = "(" +:+ show_args args +:+ ")" +:+ show_links rest.
Proof. reflexivity. Qed.

Lemma show_args_cons c cs :
  show_args (CCons c cs) =
  match cs with
  | CNil => show c
  | CCons _ _ => show c +:+ ", " +:+ show_args cs
  end.
Proof. destruct cs; reflexivity. Qed.

Lemma names_ok_chain root ls :
  names_ok (Chain root ls) = true ->
  Strings.all_chars name_char root = true /\ reserved root = false /\
  links_ok ls = true.
Proof.
  cbn [names_ok]. rewrite !andb_true_iff, negb_true_iff. tauto.
Qed.

Lemma links_ok_call args rest :
  links_ok (LCall args rest) = true -> args_ok args = true /\ links_ok rest = true.
Proof. intros E. apply andb_true_iff in E. exact E. Qed.

Lemma args_ok_cons c cs :
  args_ok (CCons c cs) = true -> names_ok c = true /\ args_ok cs = true.
Proof. intros E. apply andb_true_iff in E. exact E. Qed.

Create HintDb clean discriminated.

#[local] Hint Resolve clean_append ref_name_clean name_clean : clean.

#[local] Hint Extern 2 (clean ?s = true) =>
  lazymatch s with
  | context [String.append] => fail
  | _ => vm_compute; reflexivity
  end : clean.

(** The text of a chain has no delimiter of a literal and no line
    break. *)
Lemma show_word :
  (forall c, names_ok c = true -> Strings.all_chars word_char (show c) = true) /\
  (forall ls, links_ok ls = true -> Strings.all_chars word_char (show_links ls) = true) /\
  (forall cs, args_ok cs = true -> Strings.all_chars word_char (show_args cs) = true).
Proof.
  apply chain_links_chains_ind.
  - intros root ls IH E. apply names_ok_chain in E as (Hr & _ & Hl).
    cbn [show]. rewrite all_chars_append, (IH Hl), andb_true_r.
    apply (all_chars_impl _ _ _ name_char_word Hr).
  - reflexivity.
  - intros name rest IH E. cbn [links_ok] in E. apply andb_true_iff in E as [Hn Hr].
    cbn [show_links]. rewrite !all_chars_append, (IH Hr), andb_true_r.
    rewrite (all_chars_impl _ _ _ name_char_word Hn). reflexivity.
  - intros key IHk rest IH E. cbn [links_ok] in E. apply andb_true_iff in E as [Hk Hr].
    cbn [show_links]. rewrite !all_chars_append, (IH Hr), (IHk Hk). reflexivity.
  - intros args IHa rest IH E. apply links_ok_call in E as [Ha Hr].
    rewrite show_links_call, !all_chars_append, (IH Hr), (IHa Ha). reflexivity.
  - reflexivity.
  - intros c IHc cs IH E. apply args_ok_cons in E as [Hc Hs].
    rewrite show_args_cons. destruct cs as [|c' cs']; [exact (IHc Hc)|].
    rewrite !all_chars_append, (IHc Hc), (IH Hs). reflexivity.
Qed.

Lemma root_access_clean variables root :
  Strings.all_chars name_char root = true ->
  clean (print (root_access variables root)) = true.
Proof.
  intros Hr. unfold root_access. destruct (classify variables root); cbn [print]; auto 10 with clean.
Qed.

(** The text of a rewritten chain is one line that the restore step
    leaves alone. *)
Lemma rewrite_clean variables :
  (forall c, names_ok c = true ->
     forall n, clean (print (fst (rewrite variables n c))) = true) /\
  (forall ls, links_ok ls = true ->
     forall g n cur, clean (print cur) = true ->
     clean (print (fst (rewrite_links variables g n cur ls))) = true) /\
  (forall cs, args_ok cs = true ->
     forall n, clean (print_args (fst (rewrite_args variables n cs))) = true).
Proof.
  apply chain_links_chains_ind.
  - intros root ls IH E n. apply names_ok_chain in E as (Hr & _ & Hl).
    pose proof (root_access_clean variables root Hr) as Hroot.
    assert (G : forall g n0,
               clean (print (Paren (fst (rewrite_links variables g n0
                                           (root_access variables root) ls)))) = true).
    { intros g n0. cbn [print]. pose proof (IH Hl g n0 _ Hroot). auto 10 with clean. }
    destruct ls as [|name rest|key rest|args rest].
    + exact Hroot.
    + cbn [rewrite]. destruct (reserve n (LProp name rest)) as [g n0].
      specialize (G g n0). destruct (rewrite_links _ _ _ _ _). exact G.
    + cbn [rewrite]. destruct (reserve n (LIndex key rest)) as [g n0].
      specialize (G g n0). destruct (rewrite_links _ _ _ _ _). exact G.
    + cbn [rewrite]. destruct (reserve n (LCall args rest)) as [g n0].
      specialize (G g n0). destruct (rewrite_links _ _ _ _ _). exact G.
  - intros _ g n cur Hcur. exact Hcur.
  - intros name rest IH E g n cur Hcur.
    cbn [links_ok] in E. apply andb_true_iff in E as [Hn Hr].
    cbn [rewrite_links]. destruct (reserve n rest) as [g' n0].
    assert (Hstep : clean (print (Member (Ref g) name)) = true)
      by (cbn [print]; auto 10 with clean).
    pose proof (IH Hr g' n0 _ Hstep) as Hbody.
    destruct (rewrite_links _ _ _ _ _) as [body n1]. cbn [fst] in Hbody |- *.
    cbn [print]. auto 10 with clean.
  - intros key IHk rest IH E g n cur Hcur.
    cbn [links_ok] in E. apply andb_true_iff in E as [Hk Hr].
    cbn [rewrite_links]. destruct (reserve n rest) as [g' n0].
    pose proof (IHk Hk n0) as Hkey.
    destruct (rewrite variables n0 key) as [key' n1]. cbn [fst] in Hkey.
    assert (Hstep : clean (print (At (Ref g) key')) = true)
      by (cbn [print]; auto 10 with clean).
    pose proof (IH Hr g' n1 _ Hstep) as Hbody.
    destruct (rewrite_links _ _ _ _ _) as [body n2]. cbn [fst] in Hbody |- *.
    cbn [print]. auto 10 with clean.
  - intros args IHa rest IH E g n cur Hcur.
    apply links_ok_call in E as [Ha Hr].
    cbn [rewrite_links]. destruct (reserve n rest) as [g' n0].
    pose proof (IHa Ha n0) as Hargs.
    destruct (rewrite_args variables n0 args) as [args' n1]. cbn [fst] in Hargs.
    assert (Hstep : clean (print (Invoke cur args')) = true)
      by (rewrite print_invoke; auto 10 with clean).
    pose proof (IH Hr g' n1 _ Hstep) as Hbody.
    destruct (rewrite_links _ _ _ _ _) as [body n2]. cbn [fst] in Hbody |- *.
    cbn [print]. auto 10 with clean.
  - reflexivity.
  - intros c IHc cs IH E n. apply args_ok_cons in E as [Hc Hs].
    cbn [rewrite_args]. pose proof (IHc Hc n) as He.
    destruct (rewrite variables n c) as [e n0]. cbn [fst] in He.
    pose proof (IH Hs n0) as Hes.
    destruct (rewrite_args variables n0 cs) as [es n1]. cbn [fst] in Hes |- *.
    rewrite print_args_cons. destruct es as [|e' es']; [exact He|]. auto 10 with clean.
Qed.

(** *** From the text of a chain to the body of the function *)

Lemma word_not_quote c : word_char c = true -> negb (Strings.is_quote c) = true.
Proof. unfold word_char. intros E. apply andb_true_iff in E as [E _]. exact E. Qed.

Lemma tame_spec s :
  tame s = true <->
  no_pairs s = true /\ first_quote s = false /\ last_quote s = false.
Proof. unfold tame. rewrite !andb_true_iff, !negb_true_iff. tauto. Qed.

Lemma tame_append a b : tame a = true -> tame b = true -> tame (a +:+ b) = true.
Proof.
  rewrite !tame_spec. intros (Pa & Fa & La) (Pb & Fb & Lb). repeat split.
  - apply no_pairs_append; assumption.
  - apply first_quote_append; assumption.
  - apply last_quote_append; assumption.
Qed.

Lemma quote_free_tame s :
  Strings.all_chars (fun c => negb (Strings.is_quote c)) s = true -> tame s = true.
Proof.
  intros H. apply tame_spec.
  induction s as [|c t IH]; [repeat split|].
  cbn [Strings.all_chars] in H. apply andb_true_iff in H as [Hq Ht].
  apply negb_true_iff in Hq.
  destruct (IH Ht) as (P & F & L). repeat split.
  - destruct t as [|d t]; [reflexivity|]. cbn [no_pairs]. rewrite Hq. exact P.
  - exact Hq.
  - destruct t as [|d t]; [exact Hq|exact L].
Qed.

Lemma clean_tame s : clean s = true -> tame s = true.
Proof. unfold clean. intros E. apply andb_true_iff in E as [E _]. exact E. Qed.

Lemma clean_one_line s : clean s = true -> Strings.all_chars no_newline s = true.
Proof. unfold clean. intros E. apply andb_true_iff in E as [_ E]. exact E. Qed.

(** The restore step finds nothing to fill in a text without a pair
    of delimiters. *)
Lemma restore_no_pairs s : forall l,
  no_pairs s = true -> Strings.restore s l = (s, l).
Proof.
  induction s as [|c t IH]; intros l Hs; [reflexivity|].
  assert (Ht : no_pairs t = true).
  { destruct t as [|d t]; [reflexivity|].
    cbn [no_pairs] in Hs. apply andb_true_iff in Hs as [_ Hs]. exact Hs. }
  rewrite StringsFacts.restore_copy.
  - rewrite (IH l Ht). reflexivity.
  - intros Hq o' ->. cbn [no_pairs] in Hs. rewrite Hq, Ascii.eqb_refl in Hs. discriminate.
Qed.

(** The scan of the literals copies the text of a chain. *)
Lemma isolate_show c :
  names_ok c = true -> Strings.replace_quoteRegex (show c) = (show c, []).
Proof.
  intros Hc. rewrite StringsFacts.replace_quoteRegex_isolate.
  pose proof (StringsFacts.isolate_plain (show c) EmptyString) as E.
  rewrite RegexFacts.append_nil_r in E. rewrite E.
  - rewrite StringsFacts.isolate_nil. cbn [fst snd].
    rewrite RegexFacts.append_nil_r. reflexivity.
  - apply (all_chars_impl _ _ _ word_not_quote), (proj1 show_word c Hc).
Qed.

Lemma join_quote_free (p : ascii -> bool) sep l :
  Strings.all_chars p sep = true ->
  Forall (fun x => Strings.all_chars p x = true) l ->
  Strings.all_chars p (join sep l) = true.
Proof.
  intros Hsep Hl. induction Hl as [|x l Hx Hl IH]; [reflexivity|].
  destruct l as [|y l]; [exact Hx|].
  change (join sep (x :: y :: l)) with (x +:+ sep +:+ join sep (y :: l)).
  rewrite !all_chars_append, Hx, Hsep, IH. reflexivity.
Qed.

(** The declaration is empty, or a line without delimiters and its
    line break. *)
Lemma declaration_line n :
  declaration n = EmptyString \/
  exists line,
    declaration n = line +:+ str1 newline /\
    Strings.all_chars (fun c => negb (Strings.is_quote c)) line = true.
Proof.
  destruct n as [|[|k]]; [left; reflexivity|left; reflexivity|right].
  exists ("var " +:+ join ", " (map ref_name (seq 1 (S (S k) - 1))) +:+ ";").
  split.
  - unfold declaration. rewrite !RegexFacts.append_assoc. reflexivity.
  - rewrite !all_chars_append. apply andb_true_iff. split; [reflexivity|].
    apply andb_true_iff. split; [|reflexivity].
    apply join_quote_free; [reflexivity|].
    apply List.Forall_map, List.Forall_forall. intros m _.
    apply (all_chars_impl _ _ _ word_not_quote), ref_name_word.
Qed.

(** The [return] goes in front of the line after the declaration. *)
Lemma add_return_line a b :
  Strings.all_chars no_newline b = true ->
  add_return ((a +:+ str1 newline) +:+ b) = (a +:+ str1 newline) +:+ "return " +:+ b.
Proof.
  intros Hb. rewrite !RegexFacts.append_assoc.
  change (str1 newline +:+ b) with (String newline b).
  change (str1 newline +:+ "return " +:+ b) with (String newline ("return " +:+ b)).
  unfold add_return. rewrite (BuilderFacts.split_lines_app a b Hb).
  rewrite BuilderFacts.return_last_snoc.
  destruct (BuilderFacts.split_lines_nonempty a) as (x & rest & E).
  pose proof (BuilderFacts.join_split_lines a) as J. rewrite E in J |- *.
  rewrite BuilderFacts.join_snoc, J.
  reflexivity.
Qed.

Lemma add_return_text variables c :
  names_ok c = true ->
  add_return (parseExpression_text variables c) = function_text variables c.
Proof.
  intros Hc. unfold parseExpression_text, function_text, returning.
  pose proof (clean_one_line _ (proj1 (rewrite_clean variables) c Hc 1)) as Hl.
  fold (code_of variables c) in Hl.
  destruct (declaration_line (next_free variables c)) as [->|(line & -> & _)].
  - apply BuilderFacts.add_return_plain, Hl.
  - apply add_return_line, Hl.
Qed.

Lemma function_text_no_pairs variables c :
  names_ok c = true -> no_pairs (function_text variables c) = true.
Proof.
  intros Hc. apply tame_spec. unfold function_text, returning.
  pose proof (clean_tame _ (proj1 (rewrite_clean variables) c Hc 1)) as Hl.
  fold (code_of variables c) in Hl.
  apply tame_append; [|apply tame_append; [reflexivity|exact Hl]].
  destruct (declaration_line (next_free variables c)) as [->|(line & -> & Hq)].
  - reflexivity.
  - apply tame_append; [apply quote_free_tame, Hq|reflexivity].
Qed.

(** The text [parse] hands to the function constructor for a chain:
    the declaration of the temporaries, then the rewritten chain with
    [return] in front. *)
Lemma generated_chain (H : Collaborators) registry globals extraArgs c :
  names_ok c = true ->
  parseFormatters (show c) = Ok (show c) ->
  parseExpression (show c) (getVariables registry globals extraArgs) =
    Ok (parseExpression_text (getVariables registry globals extraArgs) c) ->
  generated registry (show c) false globals extraArgs =
    Ok (function_text (getVariables registry globals extraArgs) c).
Proof.
  intros Hc Hf He. unfold generated. rewrite (isolate_show c Hc), Hf, He.
  rewrite (add_return_text _ c Hc), StringsFacts.replace_emptyQuoteExpr_restore.
  rewrite (restore_no_pairs _ _ (function_text_no_pairs _ c Hc)). reflexivity.
Qed.

(** Both revisions build the same function object for a chain that is
    not in the cache. *)
Lemma parse_chain (H : Collaborators) c globals formatters extraArgs st text :
  strings st = None ->
  cache st !! cacheKey (show c) extraArgs = None ->
  is_setter extraArgs (valueProperty st) = false ->
  generated (exports_globals st) (show c) false globals extraArgs = Ok text ->
  function_syntax_error ("_globals_" :: "_formatters_" :: extraArgs) text = None ->
  RevA.parse (VStr (show c)) globals formatters extraArgs st =
    (Ok (length (heap st)),
     compiled (cacheKey (show c) extraArgs) globals formatters extraArgs text st) /\
  RevB.parse (VStr (show c)) globals formatters (Some extraArgs) st =
    (Ok (length (heap st)),
     compiled (cacheKey (show c) extraArgs) globals formatters extraArgs text st).
Proof.
  intros Hs Hmiss Hset Hg Hsyn.
  assert (E : compile (cacheKey (show c) extraArgs) (show c) (VStr (show c)) false
                      globals formatters extraArgs st =
              (Ok (length (heap st)),
               compiled (cacheKey (show c) extraArgs) globals formatters extraArgs text st)).
  { rewrite (ParseFacts.compile_generated _ _ _ _ _ _ _ _ _ _ Hs Hg), Hsyn. reflexivity. }
  split.
  - rewrite (parseA_miss _ _ _ _ _ Hmiss), Hset. exact E.
  - rewrite (parseB_miss_eq (VStr (show c)) globals formatters (Some extraArgs) st
               eq_refl Hmiss).
    cbn [RevB.array_or_empty]. rewrite Hset. exact E.
Qed.

(** *** The callable of a chain *)




(** The tests of [parse] on a single name and on a call: the value of
    the property, [undefined] where the context has no such property,
    and [undefined] where what is called is not a function. *)
Example parse_single_name_and_call :
  let H := StandIn.chains in
  let getFoo := Chain "foo" LNil in
  let callFoo := Chain "foo" (LCall CNil LNil) in
  let run c :=
    binder (run_chain StandIn.member StandIn.index StandIn.host StandIn.host_global
                      VUndefined ∅ c)
           (getter ∅ c VUndefined VUndefined []) in
  fst (RevA.parse (VStr "foo") VUndefined VUndefined [] init) = Ok 0 /\
  heap (snd (RevA.parse (VStr "foo") VUndefined VUndefined [] init)) !! 0 =
    Some (getter ∅ getFoo VUndefined VUndefined []) /\
  body (fo_func (getter ∅ getFoo VUndefined VUndefined [])) = "return this.foo" /\
  run getFoo (VObj [("foo", VStr "bar")]) [] = Some (Ok (Data (VStr "bar"))) /\
  run getFoo (VObj []) [] = Some (Ok undefined) /\
  heap (snd (RevA.parse (VStr "foo()") VUndefined VUndefined [] init)) !! 0 =
    Some (getter ∅ callFoo VUndefined VUndefined []) /\
  run callFoo (VObj []) [] = Some (Ok undefined).
Proof. intros H getFoo callFoo run. repeat split. Qed.

(** A method is called on the object it was read from. *)
Example parse_method_call :
  let H := StandIn.chains in
  let c := Chain "foo" (LProp "toString" (LCall CNil LNil)) in
  let run :=
    binder (run_chain StandIn.member StandIn.index StandIn.host StandIn.host_global
                      VUndefined ∅ c)
           (getter ∅ c VUndefined VUndefined []) in
  heap (snd (RevA.parse (VStr "foo.toString()") VUndefined VUndefined [] init)) !! 0 =
    Some (getter ∅ c VUndefined VUndefined []) /\
  body (fo_func (getter ∅ c VUndefined VUndefined [])) =
    "var _ref1;" +:+ str1 newline +:+
    "return ((_ref1 = this.foo) == null ? void 0 : " +:+
    "typeof _ref1.toString !== 'function' ? void 0 : _ref1.toString())" /\
  run (VObj [("foo", VStr "bar")]) [] = Some (Ok (Data (VStr "bar"))) /\
  run (VObj [("foo", VNum 1)]) [] = Some (Ok undefined) /\
  run (VObj []) [] = Some (Ok undefined).
Proof. intros H c run. repeat split. Qed.

(** A name that is in [exports.globals] only: [getVariables] has it
    in the table, so the chain is read from [_globals_], but
    [bindArguments] binds the globals of the call, and with none
    passed the callable throws. *)
Example registered_global_without_globals :
  let H := StandIn.chains in
  let st := set_global "cfg" (VObj [("a", VObj [("b", VNum 1)])]) init in
  let c := Chain "cfg" (LProp "a" (LProp "b" LNil)) in
  let variables := getVariables (exports_globals st) VUndefined [] in
  let first := RevA.parse (VStr "cfg.a.b") VUndefined VUndefined [] st in
  let callable := getter variables c VUndefined VUndefined [] in
  fst first = Ok 0 /\
  heap (snd first) !! 0 = Some callable /\
  body (fo_func callable) =
    "var _ref1, _ref2;" +:+ str1 newline +:+
    "return ((_ref1 = _globals_.cfg) == null ? void 0 : " +:+
    "(_ref2 = _ref1.a) == null ? void 0 : _ref2.b)" /\
  binder (run_chain StandIn.member StandIn.index StandIn.host StandIn.host_global
                    VUndefined variables c) callable (VObj []) [] =
    Some (Throw null_error).
Proof.
  intros H st c variables first callable.
  split; [vm_compute; reflexivity|]. split; [vm_compute; reflexivity|].
  split; vm_compute; reflexivity.
Qed.

End ChainsFacts.
